(** * screenshader: the compositor core of [src/screenshader.c]

    A shallow embedding of the window registry (the doubly-linked
    stacking list of [WinEntry] nodes), the per-window pixmap binder,
    the event handlers, pass 1 of [render_frame], shader hot-reload and
    the runtime parameter file, followed by the properties the
    specification states about them.

    Conventions.
    - C integers ([int], [Window], [Pixmap], [GLuint], [GLint], [time_t])
      are [Z]; the code only compares and copies them, except for the
      viewport origin in [render_frame].
    - A [WinEntry *] is an address ([ptr]); [NULL] is [None].  Entries
      live in a heap [gmap ptr Win.t]; reading or writing through an
      address that is not allocated makes the operation return [None].
    - Loops over the [next] chain carry fuel (the number of allocated
      entries); running out of fuel is [None] as well.
    - Answers of the X server and of the GL driver are inputs of the
      operation that asks for them.
    - Calls that create, destroy, latch or draw server-side resources are
      appended to the [calls] log of the state. *)

From Stdlib Require Import ZArith Lia Ascii String.
From stdpp Require Import base option list gmap sets strings fin_maps.

Open Scope Z_scope.

(** ** Data structures *)

Definition ptr := positive.

(** [struct WinEntry]; the projections keep the C field names and live in
    their own name space. *)
Module Win.

Record t := mk {
  xid : Z;
  pixmap : Z;
  glx_pixmap : Z;
  texture : Z;
  damage : Z;
  x : Z;
  y : Z;
  width : Z;
  height : Z;
  border_width : Z;
  mapped : bool;
  override_redirect : bool;
  damaged : bool;
  pixmap_valid : bool;
  next : option ptr;   (* above (toward viewer) *)
  prev : option ptr    (* below *)
}.

(** [calloc(1, sizeof(WinEntry))]: every field zero. *)
Definition zero : t :=
  mk 0 0 0 0 0 0 0 0 0 0 false false false false None None.

Definition set_xid (v : Z) (w : t) : t :=
  mk v (pixmap w) (glx_pixmap w) (texture w) (damage w) (x w) (y w)
     (width w) (height w) (border_width w) (mapped w) (override_redirect w)
     (damaged w) (pixmap_valid w) (next w) (prev w).

Definition set_pixmap (v : Z) (w : t) : t :=
  mk (xid w) v (glx_pixmap w) (texture w) (damage w) (x w) (y w)
     (width w) (height w) (border_width w) (mapped w) (override_redirect w)
     (damaged w) (pixmap_valid w) (next w) (prev w).

Definition set_glx_pixmap (v : Z) (w : t) : t :=
  mk (xid w) (pixmap w) v (texture w) (damage w) (x w) (y w)
     (width w) (height w) (border_width w) (mapped w) (override_redirect w)
     (damaged w) (pixmap_valid w) (next w) (prev w).

Definition set_texture (v : Z) (w : t) : t :=
  mk (xid w) (pixmap w) (glx_pixmap w) v (damage w) (x w) (y w)
     (width w) (height w) (border_width w) (mapped w) (override_redirect w)
     (damaged w) (pixmap_valid w) (next w) (prev w).

Definition set_damage (v : Z) (w : t) : t :=
  mk (xid w) (pixmap w) (glx_pixmap w) (texture w) v (x w) (y w)
     (width w) (height w) (border_width w) (mapped w) (override_redirect w)
     (damaged w) (pixmap_valid w) (next w) (prev w).

(** The five geometry fields are always written together. *)
Definition set_geometry (vx vy vw vh vb : Z) (w : t) : t :=
  mk (xid w) (pixmap w) (glx_pixmap w) (texture w) (damage w) vx vy
     vw vh vb (mapped w) (override_redirect w)
     (damaged w) (pixmap_valid w) (next w) (prev w).

Definition set_mapped (v : bool) (w : t) : t :=
  mk (xid w) (pixmap w) (glx_pixmap w) (texture w) (damage w) (x w) (y w)
     (width w) (height w) (border_width w) v (override_redirect w)
     (damaged w) (pixmap_valid w) (next w) (prev w).

Definition set_override_redirect (v : bool) (w : t) : t :=
  mk (xid w) (pixmap w) (glx_pixmap w) (texture w) (damage w) (x w) (y w)
     (width w) (height w) (border_width w) (mapped w) v
     (damaged w) (pixmap_valid w) (next w) (prev w).

Definition set_damaged (v : bool) (w : t) : t :=
  mk (xid w) (pixmap w) (glx_pixmap w) (texture w) (damage w) (x w) (y w)
     (width w) (height w) (border_width w) (mapped w) (override_redirect w)
     v (pixmap_valid w) (next w) (prev w).

Definition set_pixmap_valid (v : bool) (w : t) : t :=
  mk (xid w) (pixmap w) (glx_pixmap w) (texture w) (damage w) (x w) (y w)
     (width w) (height w) (border_width w) (mapped w) (override_redirect w)
     (damaged w) v (next w) (prev w).

Definition set_next (v : option ptr) (w : t) : t :=
  mk (xid w) (pixmap w) (glx_pixmap w) (texture w) (damage w) (x w) (y w)
     (width w) (height w) (border_width w) (mapped w) (override_redirect w)
     (damaged w) (pixmap_valid w) v (prev w).

Definition set_prev (v : option ptr) (w : t) : t :=
  mk (xid w) (pixmap w) (glx_pixmap w) (texture w) (damage w) (x w) (y w)
     (width w) (height w) (border_width w) (mapped w) (override_redirect w)
     (damaged w) (pixmap_valid w) (next w) v.

(** Everything of an entry except its two links. *)
Definition payload (w : t) : t := set_next None (set_prev None w).

End Win.

(** [XWindowAttributes], the fields the compositor reads. *)
Record XWindowAttributes := {
  attr_x : Z;
  attr_y : Z;
  attr_width : Z;
  attr_height : Z;
  attr_border_width : Z;
  attr_depth : Z;
  attr_map_state : Z;
  attr_override_redirect : bool
}.

Definition IsViewable : Z := 2.
Definition MAX_DEPTH : Z := 33.
Definition MAX_PARAMS : nat := 16.
Definition PlaceOnTop : Z := 0.
Definition XNone : Z := 0.   (* X11's None *)

(** Calls to the X server and the GL driver that create, destroy, latch
    or draw a resource. *)
Inductive XCall :=
  | XCompositeNameWindowPixmap (win : Z)
  | XFreePixmap (pm : Z)
  | glXCreatePixmap (pm : Z) (tex_fmt : Z)
  | glXDestroyPixmap (glxpm : Z)
  | glGenTextures
  | glDeleteTextures (tex : Z)
  | glXBindTexImageEXT (glxpm : Z)
  | glXReleaseTexImageEXT (glxpm : Z)
  | XDamageCreate (win : Z)
  | XDamageDestroy (dmg : Z)
  | XDamageSubtract (dmg : Z)
  | glTexImage2D (tex : Z) (w h : Z)
  | glDrawArrays (tex : Z) (vx vy vw vh : Z)
  | glDeleteShader (sh : Z)
  | glDeleteProgram (prog : Z).

(** What the server answers during one [bind_window_pixmap]. *)
Record BindReply := {
  reply_attr : option XWindowAttributes; (* XGetWindowAttributes; None: status 0 *)
  reply_pixmap : Z;                      (* XCompositeNameWindowPixmap *)
  reply_glx_pixmap : Z;                  (* glXCreatePixmap *)
  reply_texture : Z                      (* glGenTextures *)
}.

(** The depth-indexed texture-from-pixmap tables of [Compositor]. *)
Record TfpTable := {
  tfp_format : list Z;
  tfp_available : list bool
}.

Definition tfp_available_at (t : TfpTable) (depth : Z) : bool :=
  default false (tfp_available t !! Z.to_nat depth).

Definition tfp_format_at (t : TfpTable) (depth : Z) : Z :=
  default 0 (tfp_format t !! Z.to_nat depth).

(** The test of line 268, negated: the depth has a usable table entry. *)
Definition depth_usable (t : TfpTable) (depth : Z) : bool :=
  negb ((depth <=? 0) || (depth >=? MAX_DEPTH) || negb (tfp_available_at t depth)).

(** ** Window pixmap management *)

Definition unbind_window_pixmap (w : Win.t) : Win.t * list XCall :=
  if negb (Win.pixmap_valid w) then (w, [])
  else
    let c1 := [glXReleaseTexImageEXT (Win.glx_pixmap w);
               glDeleteTextures (Win.texture w)] in
    let w1 := Win.set_texture 0 w in
    let c2 := [glXDestroyPixmap (Win.glx_pixmap w1)] in
    let w2 := Win.set_glx_pixmap 0 w1 in
    let c3 := [XFreePixmap (Win.pixmap w2)] in
    let w3 := Win.set_pixmap 0 w2 in
    (Win.set_pixmap_valid false w3, c1 ++ c2 ++ c3).

Definition bind_window_pixmap (t : TfpTable) (srv : BindReply) (w : Win.t)
  : Win.t * list XCall :=
  let '(w, c0) :=
    if Win.pixmap_valid w then unbind_window_pixmap w else (w, []) in
  if negb (Win.mapped w) || (Win.width w <=? 0) || (Win.height w <=? 0)
  then (w, c0)
  else
    match reply_attr srv with
    | None => (w, c0)
    | Some attr =>
      if negb (attr_map_state attr =? IsViewable) then (w, c0)
      else
        let depth := attr_depth attr in
        if (depth <=? 0) || (depth >=? MAX_DEPTH)
           || negb (tfp_available_at t depth)
        then (w, c0)
        else
          let tex_fmt := tfp_format_at t depth in
          let w := Win.set_pixmap (reply_pixmap srv) w in
          let c1 := c0 ++ [XCompositeNameWindowPixmap (Win.xid w)] in
          if Win.pixmap w =? 0 then (w, c1)
          else
            let w := Win.set_glx_pixmap (reply_glx_pixmap srv) w in
            let c2 := c1 ++ [glXCreatePixmap (Win.pixmap w) tex_fmt] in
            if Win.glx_pixmap w =? 0
            then (Win.set_pixmap 0 w, c2 ++ [XFreePixmap (Win.pixmap w)])
            else
              let w := Win.set_texture (reply_texture srv) w in
              let c3 := c2 ++ [glGenTextures;
                               glXBindTexImageEXT (Win.glx_pixmap w)] in
              (Win.set_damaged true (Win.set_pixmap_valid true w), c3)
    end.

(** ** The compositor state *)

(** One slot of [Compositor.params].  The [float] value is kept as its
    32-bit pattern: the code only stores it and hands it to the driver. *)
Record Param := {
  param_name : string;
  param_value : Z;
  param_location : Z
}.

Definition set_param_location (v : Z) (p : Param) : Param :=
  {| param_name := param_name p; param_value := param_value p;
     param_location := v |}.

(** [struct Compositor], the fields the modelled functions use. *)
Module Comp.

Record t := mk {
  root : Z;
  overlay : Z;
  root_width : Z;
  root_height : Z;
  tfp : TfpTable;
  fbo_texture : Z;
  vert_shader : Z;
  postproc_prog : Z;
  u_screen_tex : Z;
  u_resolution : Z;
  u_time : Z;
  win_head : option ptr;
  win_tail : option ptr;
  params : list Param;
  param_count : nat;
  param_mtime : Z;
  needs_redraw : bool
}.

Definition set_root_size (w h : Z) (c : t) : t :=
  mk (root c) (overlay c) w h (tfp c) (fbo_texture c) (vert_shader c)
     (postproc_prog c) (u_screen_tex c) (u_resolution c) (u_time c)
     (win_head c) (win_tail c) (params c) (param_count c) (param_mtime c)
     (needs_redraw c).

Definition set_postproc_prog (v : Z) (c : t) : t :=
  mk (root c) (overlay c) (root_width c) (root_height c) (tfp c)
     (fbo_texture c) (vert_shader c)
     v (u_screen_tex c) (u_resolution c) (u_time c)
     (win_head c) (win_tail c) (params c) (param_count c) (param_mtime c)
     (needs_redraw c).

Definition set_uniforms (screen resolution time : Z) (c : t) : t :=
  mk (root c) (overlay c) (root_width c) (root_height c) (tfp c)
     (fbo_texture c) (vert_shader c)
     (postproc_prog c) screen resolution time
     (win_head c) (win_tail c) (params c) (param_count c) (param_mtime c)
     (needs_redraw c).

Definition set_win_head (v : option ptr) (c : t) : t :=
  mk (root c) (overlay c) (root_width c) (root_height c) (tfp c)
     (fbo_texture c) (vert_shader c)
     (postproc_prog c) (u_screen_tex c) (u_resolution c) (u_time c)
     v (win_tail c) (params c) (param_count c) (param_mtime c)
     (needs_redraw c).

Definition set_win_tail (v : option ptr) (c : t) : t :=
  mk (root c) (overlay c) (root_width c) (root_height c) (tfp c)
     (fbo_texture c) (vert_shader c)
     (postproc_prog c) (u_screen_tex c) (u_resolution c) (u_time c)
     (win_head c) v (params c) (param_count c) (param_mtime c)
     (needs_redraw c).

Definition set_params (v : list Param) (c : t) : t :=
  mk (root c) (overlay c) (root_width c) (root_height c) (tfp c)
     (fbo_texture c) (vert_shader c)
     (postproc_prog c) (u_screen_tex c) (u_resolution c) (u_time c)
     (win_head c) (win_tail c) v (param_count c) (param_mtime c)
     (needs_redraw c).

Definition set_param_count (v : nat) (c : t) : t :=
  mk (root c) (overlay c) (root_width c) (root_height c) (tfp c)
     (fbo_texture c) (vert_shader c)
     (postproc_prog c) (u_screen_tex c) (u_resolution c) (u_time c)
     (win_head c) (win_tail c) (params c) v (param_mtime c)
     (needs_redraw c).

Definition set_param_mtime (v : Z) (c : t) : t :=
  mk (root c) (overlay c) (root_width c) (root_height c) (tfp c)
     (fbo_texture c) (vert_shader c)
     (postproc_prog c) (u_screen_tex c) (u_resolution c) (u_time c)
     (win_head c) (win_tail c) (params c) (param_count c) v
     (needs_redraw c).

Definition set_needs_redraw (v : bool) (c : t) : t :=
  mk (root c) (overlay c) (root_width c) (root_height c) (tfp c)
     (fbo_texture c) (vert_shader c)
     (postproc_prog c) (u_screen_tex c) (u_resolution c) (u_time c)
     (win_head c) (win_tail c) (params c) (param_count c) (param_mtime c)
     v.

End Comp.

(** The compositor together with the memory holding its window entries
    and the log of resource calls made so far (oldest first). *)
Record State := mkState {
  comp : Comp.t;
  heap : gmap ptr Win.t;
  calls : list XCall
}.

Definition with_comp (f : Comp.t → Comp.t) (s : State) : State :=
  mkState (f (comp s)) (heap s) (calls s).

Definition with_heap (h : gmap ptr Win.t) (s : State) : State :=
  mkState (comp s) h (calls s).

Definition emit (c : list XCall) (s : State) : State :=
  mkState (comp s) (heap s) (calls s ++ c).

(** [*p], and [p->field = v] written as [store p (Win.set_field v)]. *)
Definition load (p : ptr) (s : State) : option Win.t := heap s !! p.

Definition store (p : ptr) (f : Win.t → Win.t) (s : State) : option State :=
  e ← heap s !! p; Some (with_heap (<[p := f e]> (heap s)) s).

(** [calloc]: [NULL] when memory is exhausted, else an address that is
    not in use. *)
Definition calloc (oom : bool) (s : State) : option ptr :=
  if oom then None else Some (fresh (dom (heap s))).

Definition free (p : ptr) (s : State) : State :=
  with_heap (delete p (heap s)) s.

(** ** Window list management *)

Fixpoint find_win_from (fuel : nat) (h : gmap ptr Win.t) (w : option ptr)
    (xid : Z) : option (option ptr) :=
  match w with
  | None => Some None
  | Some p =>
    match fuel with
    | O => None
    | S fuel' =>
      e ← h !! p;
      if Win.xid e =? xid then Some (Some p)
      else find_win_from fuel' h (Win.next e) xid
    end
  end.

Definition find_win (s : State) (xid : Z) : option (option ptr) :=
  find_win_from (size (heap s)) (heap s) (Comp.win_head (comp s)) xid.

(** Insert at the top of the stacking order.  The result is the new
    entry, or [NULL]. *)
Definition add_win (oom : bool) (xid : Z) (s : State)
  : option (option ptr * State) :=
  found ← find_win s xid;
  if found is Some _ then Some (None, s)
  else if (xid =? Comp.overlay (comp s)) || (xid =? Comp.root (comp s))
  then Some (None, s)
  else
    match calloc oom s with
    | None => Some (None, s)
    | Some w =>
      let s := with_heap (<[w := Win.set_xid xid Win.zero]> (heap s)) s in
      (* Link at tail (top of stack) *)
      s ← store w (Win.set_prev (Comp.win_tail (comp s))) s;
      s ← store w (Win.set_next None) s;
      s ← match Comp.win_tail (comp s) with
          | Some t => store t (Win.set_next (Some w)) s
          | None => Some (with_comp (Comp.set_win_head (Some w)) s)
          end;
      Some (Some w, with_comp (Comp.set_win_tail (Some w)) s)
    end.

(** The four "Unlink" lines shared by [remove_win], [restack_win] and
    [handle_circulate]. *)
Definition unlink (w : ptr) (s : State) : option State :=
  e ← load w s;
  s ← match Win.prev e with
      | Some p => store p (Win.set_next (Win.next e)) s
      | None => Some (with_comp (Comp.set_win_head (Win.next e)) s)
      end;
  e ← load w s;
  match Win.next e with
  | Some n => store n (Win.set_prev (Win.prev e)) s
  | None => Some (with_comp (Comp.set_win_tail (Win.prev e)) s)
  end.

(** A function that only touches [*w], run on the entry at address [w];
    its calls are logged. *)
Definition at_entry (f : Win.t → Win.t * list XCall) (w : ptr) (s : State)
  : option State :=
  e ← load w s;
  let '(e', c) := f e in
  store w (λ _, e') (emit c s).

(** [unbind_window_pixmap(comp, w)] and [bind_window_pixmap(comp, w)]
    on the entry at address [w]. *)
Definition unbind_at (w : ptr) (s : State) : option State :=
  at_entry unbind_window_pixmap w s.

Definition bind_at (srv : BindReply) (w : ptr) (s : State) : option State :=
  at_entry (bind_window_pixmap (Comp.tfp (comp s)) srv) w s.

(** Lines 341-344 of [remove_win], also in [handle_unmap]. *)
Definition damage_destroy (w : Win.t) : Win.t * list XCall :=
  if negb (Win.damage w =? 0)
  then (Win.set_damage 0 w, [XDamageDestroy (Win.damage w)])
  else (w, []).

Definition remove_win (w : option ptr) (s : State) : option State :=
  match w with
  | None => Some s
  | Some w =>
    s ← at_entry damage_destroy w s;
    s ← unbind_at w s;
    s ← unlink w s;
    _ ← load w s;
    Some (free w s)
  end.

(** Link [w] below everything: the "Place at bottom" branch. *)
Definition place_at_bottom (w : ptr) (s : State) : option State :=
  s ← store w (Win.set_next (Comp.win_head (comp s))) s;
  s ← store w (Win.set_prev None) s;
  s ← match Comp.win_head (comp s) with
      | Some h => store h (Win.set_prev (Some w)) s
      | None => Some (with_comp (Comp.set_win_tail (Some w)) s)
      end;
  Some (with_comp (Comp.set_win_head (Some w)) s).

(** Link [w] above everything: the "place at top" branch. *)
Definition place_at_top (w : ptr) (s : State) : option State :=
  s ← store w (Win.set_prev (Comp.win_tail (comp s))) s;
  s ← store w (Win.set_next None) s;
  s ← match Comp.win_tail (comp s) with
      | Some t => store t (Win.set_next (Some w)) s
      | None => Some (with_comp (Comp.set_win_head (Some w)) s)
      end;
  Some (with_comp (Comp.set_win_tail (Some w)) s).

(** Link [w] just above [below]: the "Place above 'below'" branch. *)
Definition place_above (w below : ptr) (s : State) : option State :=
  s ← store w (Win.set_prev (Some below)) s;
  b ← load below s;
  s ← store w (Win.set_next (Win.next b)) s;
  b ← load below s;
  s ← match Win.next b with
      | Some n => store n (Win.set_prev (Some w)) s
      | None => Some (with_comp (Comp.set_win_tail (Some w)) s)
      end;
  store below (Win.set_next (Some w)) s.

Definition restack_win (w : option ptr) (above_xid : Z) (s : State)
  : option State :=
  match w with
  | None => Some s
  | Some w =>
    s ← unlink w s;
    s ← store w (Win.set_prev None) s;
    s ← store w (Win.set_next None) s;
    if (above_xid =? XNone) || (above_xid =? 0)
    then place_at_bottom w s
    else
      below ← find_win s above_xid;
      match below with
      | Some below => place_above w below s
      | None => place_at_top w s
      end
  end.

(** ** Event handlers *)

(** What the server answers while one event is handled. *)
Record Server := {
  srv_oom : bool;                           (* calloc fails *)
  srv_attr : option XWindowAttributes;      (* the query of handle_map *)
  srv_reparent_attr : option XWindowAttributes; (* the query of handle_reparent *)
  srv_damage : Z;                           (* XDamageCreate *)
  srv_xerror : Z;                           (* g_last_xerror after XSync *)
  srv_bind : BindReply
}.

Record XConfigureEvent := {
  cfg_window : Z;
  cfg_x : Z;
  cfg_y : Z;
  cfg_width : Z;
  cfg_height : Z;
  cfg_border_width : Z;
  cfg_above : Z
}.

Inductive XEvent :=
  | MapNotify (window : Z)
  | UnmapNotify (window : Z)
  | DestroyNotify (window : Z)
  | ConfigureNotify (ev : XConfigureEvent)
  | ReparentNotify (window parent : Z)
  | CirculateNotify (window place : Z)
  | DamageNotify (drawable : Z)
  | OtherEvent.

(** Lines 410-416 of [handle_map]. *)
Definition map_fields (attr : XWindowAttributes) (w : Win.t) : Win.t :=
  Win.set_mapped true
    (Win.set_override_redirect (attr_override_redirect attr)
       (Win.set_geometry (attr_x attr) (attr_y attr) (attr_width attr)
          (attr_height attr) (attr_border_width attr) w)).

(** Lines 419-427 of [handle_map]: create damage tracking. *)
Definition damage_create (srv : Server) (w : Win.t) : Win.t * list XCall :=
  if Win.damage w =? 0 then
    let w := Win.set_damage (srv_damage srv) w in
    (if negb (srv_xerror srv =? 0) then Win.set_damage 0 w else w,
     [XDamageCreate (Win.xid w)])
  else (w, []).

(** Lines 404-430 of [handle_map]: what is done with the entry [w] once
    it has been found or created. *)
Definition handle_map_entry (srv : Server) (w : ptr) (s : State)
  : option State :=
  match srv_attr srv with
  | None => remove_win (Some w) s
  | Some attr =>
    s ← store w (map_fields attr) s;
    s ← at_entry (damage_create srv) w s;
    s ← bind_at (srv_bind srv) w s;
    Some (with_comp (Comp.set_needs_redraw true) s)
  end.

Definition handle_map (srv : Server) (window : Z) (s : State) : option State :=
  found ← find_win s window;
  '(w, s) ← match found with
            | Some w => Some (Some w, s)
            | None => add_win (srv_oom srv) window s
            end;
  match w with
  | None => Some s
  | Some w => handle_map_entry srv w s
  end.

Definition handle_unmap (window : Z) (s : State) : option State :=
  found ← find_win s window;
  match found with
  | None => Some s
  | Some w =>
    s ← store w (Win.set_mapped false) s;
    s ← unbind_at w s;
    s ← at_entry damage_destroy w s;
    Some (with_comp (Comp.set_needs_redraw true) s)
  end.

Definition handle_destroy (window : Z) (s : State) : option State :=
  found ← find_win s window;
  match found with
  | Some w =>
    s ← remove_win (Some w) s;
    Some (with_comp (Comp.set_needs_redraw true) s)
  | None => Some s
  end.

(** Lines 474-479 of [handle_configure]. *)
Definition configure_fields (ev : XConfigureEvent) (w : Win.t) : Win.t :=
  Win.set_geometry (cfg_x ev) (cfg_y ev) (cfg_width ev) (cfg_height ev)
    (cfg_border_width ev) w.

Definition resized (ev : XConfigureEvent) (w : Win.t) : bool :=
  negb (Win.width w =? cfg_width ev) || negb (Win.height w =? cfg_height ev).

Definition handle_configure (srv : Server) (ev : XConfigureEvent) (s : State)
  : option State :=
  if cfg_window ev =? Comp.root (comp s) then
    (* Root window resize (e.g. xrandr) *)
    let s :=
      if negb (cfg_width ev =? Comp.root_width (comp s))
         || negb (cfg_height ev =? Comp.root_height (comp s))
      then
        let s := with_comp (Comp.set_root_size (cfg_width ev) (cfg_height ev)) s in
        emit [glTexImage2D (Comp.fbo_texture (comp s))
                (Comp.root_width (comp s)) (Comp.root_height (comp s))] s
      else s in
    Some (with_comp (Comp.set_needs_redraw true) s)
  else
    found ← find_win s (cfg_window ev);
    match found with
    | None => Some s
    | Some w =>
      e ← load w s;
      let was_resized := resized ev e in
      s ← store w (configure_fields ev) s;
      (* Handle restacking *)
      s ← restack_win (Some w) (cfg_above ev) s;
      (* Rebind pixmap if resized *)
      e ← load w s;
      s ← (if was_resized && Win.mapped e
           then bind_at (srv_bind srv) w s else Some s);
      Some (with_comp (Comp.set_needs_redraw true) s)
    end.

Definition handle_reparent (srv : Server) (window parent : Z) (s : State)
  : option State :=
  if parent =? Comp.root (comp s) then
    match srv_reparent_attr srv with
    | Some attr =>
      if attr_map_state attr =? IsViewable then handle_map srv window s
      else Some s
    | None => Some s
    end
  else
    found ← find_win s window;
    match found with
    | Some w =>
      s ← remove_win (Some w) s;
      Some (with_comp (Comp.set_needs_redraw true) s)
    | None => Some s
    end.

Definition handle_circulate (window place : Z) (s : State) : option State :=
  found ← find_win s window;
  match found with
  | None => Some s
  | Some w =>
    s ← unlink w s;
    s ← store w (Win.set_prev None) s;
    s ← store w (Win.set_next None) s;
    s ← (if place =? PlaceOnTop then
           s ← store w (Win.set_prev (Comp.win_tail (comp s))) s;
           s ← match Comp.win_tail (comp s) with
               | Some t => store t (Win.set_next (Some w)) s
               | None => Some (with_comp (Comp.set_win_head (Some w)) s)
               end;
           Some (with_comp (Comp.set_win_tail (Some w)) s)
         else
           s ← store w (Win.set_next (Comp.win_head (comp s))) s;
           s ← match Comp.win_head (comp s) with
               | Some h => store h (Win.set_prev (Some w)) s
               | None => Some (with_comp (Comp.set_win_tail (Some w)) s)
               end;
           Some (with_comp (Comp.set_win_head (Some w)) s));
    Some (with_comp (Comp.set_needs_redraw true) s)
  end.

(** The [XDamageNotify] branch of [handle_event]. *)
Definition handle_damage (drawable : Z) (s : State) : option State :=
  found ← find_win s drawable;
  match found with
  | None => Some s
  | Some w =>
    e ← load w s;
    if negb (Win.damage e =? 0) then
      s ← store w (Win.set_damaged true) s;
      Some (with_comp (Comp.set_needs_redraw true)
              (emit [XDamageSubtract (Win.damage e)] s))
    else Some s
  end.

Definition handle_event (srv : Server) (ev : XEvent) (s : State)
  : option State :=
  match ev with
  | MapNotify window => handle_map srv window s
  | UnmapNotify window => handle_unmap window s
  | DestroyNotify window => handle_destroy window s
  | ConfigureNotify ev => handle_configure srv ev s
  | ReparentNotify window parent => handle_reparent srv window parent s
  | CirculateNotify window place => handle_circulate window place s
  | DamageNotify drawable => handle_damage drawable s
  | OtherEvent => Some s
  end.

(** The event loop of [main]: events are handled in arrival order. *)
Fixpoint handle_events (evs : list (Server * XEvent)) (s : State)
  : option State :=
  match evs with
  | [] => Some s
  | (srv, ev) :: evs => s ← handle_event srv ev s; handle_events evs s
  end.

(** ** Rendering: pass 1 of [render_frame] *)

(** The body of the loop of lines 580-604 for one entry. *)
Definition composite_window (root_height : Z) (w : Win.t)
  : Win.t * list XCall :=
  if negb (Win.mapped w) || negb (Win.pixmap_valid w) then (w, [])
  else if (Win.width w <=? 0) || (Win.height w <=? 0) then (w, [])
  else
    (* Re-bind texture if window content changed *)
    let '(w, c) :=
      if Win.damaged w
      then (Win.set_damaged false w,
            [glXReleaseTexImageEXT (Win.glx_pixmap w);
             glXBindTexImageEXT (Win.glx_pixmap w)])
      else (w, []) in
    let wy := root_height - Win.y w - Win.height w in
    (w, c ++ [glDrawArrays (Win.texture w) (Win.x w) wy
                (Win.width w) (Win.height w)]).

Fixpoint composite_from (fuel : nat) (w : option ptr) (s : State)
  : option State :=
  match w with
  | None => Some s
  | Some p =>
    match fuel with
    | O => None
    | S fuel' =>
      s ← at_entry (composite_window (Comp.root_height (comp s))) p s;
      e ← load p s;
      composite_from fuel' (Win.next e) s
    end
  end.

Definition render_pass1 (s : State) : option State :=
  composite_from (size (heap s)) (Comp.win_head (comp s)) s.

(** Pass 2 draws the intermediate texture over the whole screen. *)
Definition render_frame (s : State) : option State :=
  s ← render_pass1 s;
  Some (emit [glDrawArrays (Comp.fbo_texture (comp s)) 0 0
                (Comp.root_width (comp s)) (Comp.root_height (comp s))] s).

(** ** Shader hot-reload and runtime parameters *)

(** What the file system and the GL driver answer during one
    [reload_postproc_shader]. *)
Record ShaderReply := {
  sh_source : option string;  (* load_file; None: NULL *)
  sh_shader : Z;              (* glCreateShader *)
  sh_compile_ok : bool;       (* GL_COMPILE_STATUS *)
  sh_program : Z;             (* glCreateProgram *)
  sh_link_ok : bool           (* GL_LINK_STATUS *)
}.

Definition compile_shader (srv : ShaderReply) : Z * list XCall :=
  let shader := sh_shader srv in
  if negb (sh_compile_ok srv) then (0, [glDeleteShader shader])
  else (shader, []).

Definition link_program (srv : ShaderReply) : Z * list XCall :=
  let prog := sh_program srv in
  if negb (sh_link_ok srv) then (0, [glDeleteProgram prog])
  else (prog, []).

(** What [stat] and [fopen] answer during one [read_params]. *)
Record ParamFile := {
  pf_stat : option Z;         (* st_mtime; None: stat failed *)
  pf_fopen : option string    (* the content; None: fopen failed *)
}.

Definition isspace (c : ascii) : bool :=
  let n := nat_of_ascii c in
  (n =? 32)%nat || ((9 <=? n)%nat && (n <=? 13)%nat).

Fixpoint skip_space (l : list ascii) : list ascii :=
  match l with
  | c :: l' => if isspace c then skip_space l' else l
  | [] => []
  end.

(** The [%63s] conversion: up to [n] characters that are not white space. *)
Fixpoint scan_word (n : nat) (l : list ascii) : list ascii * list ascii :=
  match n, l with
  | S n', c :: l' =>
    if isspace c then ([], l)
    else let '(w, rest) := scan_word n' l' in (c :: w, rest)
  | _, _ => ([], l)
  end.

(** The successive results of [fgets(line, 256, f)]: a chunk ends after a
    newline, after 255 characters, or at the end of the file.  [cur] is
    the chunk being filled, last character first, and [room] the
    characters it can still take. *)
Fixpoint fgets_from (room : nat) (cur : list ascii) (l : list ascii)
  : list (list ascii) :=
  match l with
  | [] => if cur is [] then [] else [reverse cur]
  | c :: l' =>
    if (nat_of_ascii c =? 10)%nat || (room =? 1)%nat
    then reverse (c :: cur) :: fgets_from 255 [] l'
    else fgets_from (room - 1) (c :: cur) l'
  end.

Definition fgets_lines (content : string) : list (list ascii) :=
  fgets_from 255 [] (list_ascii_of_string content).

(** [strncpy(dst, name, 63); dst[63] = 0]. *)
Definition strncpy63 (name : list ascii) : string :=
  string_of_list_ascii (take 63%nat name).

Section Environment.

(** The [%f] conversion of the C library: the bit pattern of the [float]
    that the longest numeric prefix of the input denotes, [None] when no
    prefix is a number. *)
Variable strtof : list ascii → option Z.

(** The driver's uniform table: program and name to location ([-1] when
    the program has no such active uniform). *)
Variable glGetUniformLocation : Z → string → Z.

(** [sscanf(line, "%63s %f", name, &value) == 2]. *)
Definition sscanf_name_value (line : list ascii)
  : option (list ascii * Z) :=
  match skip_space line with
  | [] => None
  | l =>
    let '(name, rest) := scan_word 63 l in
    value ← strtof (skip_space rest);
    Some (name, value)
  end.

(** The [while] loop of [read_params] over the remaining lines. *)
Fixpoint read_param_lines (lines : list (list ascii)) (c : Comp.t) : Comp.t :=
  match lines with
  | [] => c
  | line :: lines' =>
    if (Comp.param_count c <? MAX_PARAMS)%nat then
      match sscanf_name_value line with
      | Some (name, value) =>
        let idx := Comp.param_count c in
        let c := Comp.set_param_count (S idx) c in
        let entry :=
          {| param_name := strncpy63 name;
             param_value := value;
             param_location :=
               glGetUniformLocation (Comp.postproc_prog c)
                 (string_of_list_ascii name) |} in
        read_param_lines lines' (Comp.set_params (<[idx := entry]> (Comp.params c)) c)
      | None => read_param_lines lines' c
      end
    else c
  end.

Definition read_params (f : ParamFile) (s : State) : State :=
  match pf_stat f with
  | None => s
  | Some st_mtime =>
    if st_mtime =? Comp.param_mtime (comp s) then s   (* unchanged *)
    else
      let s := with_comp (Comp.set_param_mtime st_mtime) s in
      match pf_fopen f with
      | None => s
      | Some content =>
        let s := with_comp (Comp.set_param_count 0) s in
        let s := with_comp (read_param_lines (fgets_lines content)) s in
        with_comp (Comp.set_needs_redraw true) s
      end
  end.

(** The loop of lines 668-670: slots below [n] get a new location. *)
Definition relocate_params (prog : Z) (n : nat) (ps : list Param)
  : list Param :=
  ((λ p, set_param_location (glGetUniformLocation prog (param_name p)) p)
     <$> take n ps) ++ drop n ps.

Definition reload_postproc_shader (srv : ShaderReply) (s : State) : State :=
  match sh_source srv with
  | None => s
  | Some frag_src =>
    let '(frag, c) := compile_shader srv in
    let s := emit c s in
    if frag =? 0 then s
    else
      let '(new_prog, c) := link_program srv in
      let s := emit (c ++ [glDeleteShader frag]) s in
      if new_prog =? 0 then s
      else
        let s := emit [glDeleteProgram (Comp.postproc_prog (comp s))] s in
        let s := with_comp (Comp.set_postproc_prog new_prog) s in
        let s :=
          with_comp
            (Comp.set_uniforms
               (glGetUniformLocation new_prog "u_screen")
               (glGetUniformLocation new_prog "u_resolution")
               (glGetUniformLocation new_prog "u_time")) s in
        with_comp
          (λ c, Comp.set_params
                  (relocate_params new_prog (Comp.param_count c)
                     (Comp.params c)) c) s
  end.

(** The parameters [apply_params] hands to the driver, in order. *)
Definition apply_params (c : Comp.t) : list (Z * Z) :=
  omap (λ p, if 0 <=? param_location p
             then Some (param_location p, param_value p) else None)
       (take (Comp.param_count c) (Comp.params c)).

End Environment.

(** ** The stacking order a state spells *)

(** [seg f h cur l stop]: following field [f] from [cur] through heap [h]
    visits exactly the addresses [l], each allocated, and then reaches
    [stop]. *)
Fixpoint seg (f : Win.t → option ptr) (h : gmap ptr Win.t)
    (cur : option ptr) (l : list ptr) (stop : option ptr) : Prop :=
  match l with
  | [] => cur = stop
  | p :: l' => cur = Some p ∧ ∃ e, h !! p = Some e ∧ seg f h (f e) l' stop
  end.

(** A well-formed doubly-linked list: [next] from the head spells [l]
    bottom to top, [prev] from the tail spells it top to bottom, and no
    address occurs twice.  Every link therefore points to an allocated
    entry of the list whose opposite link points back. *)
Definition dll (h : gmap ptr Win.t) (head tail : option ptr) (l : list ptr)
  : Prop :=
  seg Win.next h head l None ∧ seg Win.prev h tail (reverse l) None ∧ NoDup l.

Definition entries_of (h : gmap ptr Win.t) (l : list ptr) : list Win.t :=
  omap (λ p, h !! p) l.

Definition xids_of (h : gmap ptr Win.t) (l : list ptr) : list Z :=
  Win.xid <$> entries_of h l.

(** The window list of the state spells [l]. *)
Definition linked (s : State) (l : list ptr) : Prop :=
  dll (heap s) (Comp.win_head (comp s)) (Comp.win_tail (comp s)) l.

(** The registry invariant: the list is well linked, every allocated
    entry is on it, and no window identity is tracked twice. *)
Definition registry_ok (s : State) (l : list ptr) : Prop :=
  linked s l
  ∧ (∀ p, is_Some (heap s !! p) → p ∈ l)
  ∧ NoDup (xids_of (heap s) l).

(** The addresses met when following [f] from [w], by the same fuelled
    traversal as [find_win]. *)
Fixpoint chain_from (f : Win.t → option ptr) (fuel : nat)
    (h : gmap ptr Win.t) (w : option ptr) : option (list ptr) :=
  match w with
  | None => Some []
  | Some p =>
    match fuel with
    | O => None
    | S fuel' =>
      e ← h !! p; l ← chain_from f fuel' h (f e); Some (p :: l)
    end
  end.

(** Bottom-to-top order read through [next], top-to-bottom through [prev]. *)
Definition stacking_order (s : State) : option (list ptr) :=
  chain_from Win.next (size (heap s)) (heap s) (Comp.win_head (comp s)).

Definition stacking_order_rev (s : State) : option (list ptr) :=
  chain_from Win.prev (size (heap s)) (heap s) (Comp.win_tail (comp s)).

(** A checker of [registry_ok] for concrete states. *)
Definition registry_okb (s : State) (l : list ptr) : bool :=
  bool_decide (stacking_order s = Some l)
  && bool_decide (stacking_order_rev s = Some (reverse l))
  && bool_decide (NoDup l)
  && bool_decide (dom (heap s) ⊆ list_to_set l)
  && bool_decide (NoDup (xids_of (heap s) l)).


(** ** Operation sequences *)

(** Registry operations, addressed by window identity the way the event
    handlers address them: the handle is what [find_win] returns. *)
Inductive RegOp :=
  | Insert (oom : bool) (xid : Z)
  | Remove (xid : Z)
  | Restack (xid above : Z)
  | Circulate (xid place : Z).

Definition reg_step (op : RegOp) (s : State) : option State :=
  match op with
  | Insert oom xid => '(_, s) ← add_win oom xid s; Some s
  | Remove xid => w ← find_win s xid; remove_win w s
  | Restack xid above => w ← find_win s xid; restack_win w above s
  | Circulate xid place => handle_circulate xid place s
  end.

Fixpoint reg_run (ops : list RegOp) (s : State) : option State :=
  match ops with
  | [] => Some s
  | op :: ops => s ← reg_step op s; reg_run ops s
  end.

(** What [handle_configure] does to the entry it finds, links aside. *)
Definition configure_entry (t : TfpTable) (ev : XConfigureEvent)
    (srv : BindReply) (w : Win.t) : Win.t * list XCall :=
  let was_resized := resized ev w in
  let w := configure_fields ev w in
  if was_resized && Win.mapped w then bind_window_pixmap t srv w
  else (w, []).

(** What [handle_map] does to the entry it finds or creates, when the
    attribute query succeeds. *)
Definition map_entry (t : TfpTable) (srv : Server) (attr : XWindowAttributes)
    (w : Win.t) : Win.t * list XCall :=
  let '(w, c1) := damage_create srv (map_fields attr w) in
  let '(w, c2) := bind_window_pixmap t (srv_bind srv) w in
  (w, c1 ++ c2).

(** What [handle_unmap] does to the entry it finds. *)
Definition unmap_entry (w : Win.t) : Win.t * list XCall :=
  let '(w, c1) := unbind_window_pixmap (Win.set_mapped false w) in
  let '(w, c2) := damage_destroy w in
  (w, c1 ++ c2).

(** Operations on the binding of one window. *)
Inductive BinderOp :=
  | OpBind (srv : BindReply)
  | OpUnbind
  | OpResize (ev : XConfigureEvent) (srv : BindReply)
  | OpMap (srv : Server) (attr : XWindowAttributes)
  | OpUnmap.

Definition binder_step (t : TfpTable) (op : BinderOp) (w : Win.t) : Win.t :=
  match op with
  | OpBind srv => (bind_window_pixmap t srv w).1
  | OpUnbind => (unbind_window_pixmap w).1
  | OpResize ev srv => (configure_entry t ev srv w).1
  | OpMap srv attr => (map_entry t srv attr w).1
  | OpUnmap => (unmap_entry w).1
  end.

Definition binder_run (t : TfpTable) (ops : list BinderOp) (w : Win.t) : Win.t :=
  foldl (λ w op, binder_step t op w) w ops.

(** Every attribute reply used by the operation reports depth [d]: the
    depth of an X window is fixed when the window is created. *)
Definition reply_depth (d : Z) (srv : BindReply) : Prop :=
  ∀ a, reply_attr srv = Some a → attr_depth a = d.

Definition op_depth (d : Z) (op : BinderOp) : Prop :=
  match op with
  | OpBind srv | OpResize _ srv => reply_depth d srv
  | OpMap srv _ => reply_depth d (srv_bind srv)
  | OpUnbind | OpUnmap => True
  end.

(** The window holds a live GPU binding. *)
Definition bound (w : Win.t) : Prop := Win.pixmap_valid w = true.

(** The three conditions of the specification, for a window of depth [d]. *)
Definition bindable (t : TfpTable) (d : Z) (w : Win.t) : Prop :=
  Win.mapped w = true ∧ 0 < Win.width w ∧ 0 < Win.height w
  ∧ depth_usable t d = true.

(** No binding and no handle left behind. *)
Definition released (w : Win.t) : Prop :=
  Win.pixmap_valid w = false ∧ Win.pixmap w = 0 ∧ Win.glx_pixmap w = 0
  ∧ Win.texture w = 0.

(** The binding invariant of one entry. *)
Definition binding_ok (t : TfpTable) (d : Z) (w : Win.t) : Prop :=
  (bound w → bindable t d w ∧ Win.pixmap w ≠ 0 ∧ Win.glx_pixmap w ≠ 0)
  ∧ (¬ bound w → released w).

(** The server lets [bind_window_pixmap] go through. *)
Definition reply_succeeds (t : TfpTable) (srv : BindReply) : Prop :=
  ∃ a, reply_attr srv = Some a ∧ attr_map_state a = IsViewable
       ∧ depth_usable t (attr_depth a) = true
       ∧ reply_pixmap srv ≠ 0 ∧ reply_glx_pixmap srv ≠ 0.

(** One of the four preconditions of [bind] named by the specification
    fails. *)
Definition bind_precondition_fails (t : TfpTable) (srv : BindReply)
    (w : Win.t) : Prop :=
  Win.mapped w = false ∨ Win.width w ≤ 0 ∨ Win.height w ≤ 0
  ∨ ∃ a, reply_attr srv = Some a ∧ depth_usable t (attr_depth a) = false.

(** ** Views used by the statements *)

(** Pass 1 draws the entry. *)
Definition drawable (w : Win.t) : bool :=
  Win.mapped w && Win.pixmap_valid w && (0 <? Win.width w) && (0 <? Win.height w).

Definition draw_of (root_height : Z) (w : Win.t) : XCall :=
  glDrawArrays (Win.texture w) (Win.x w)
    (root_height - Win.y w - Win.height w) (Win.width w) (Win.height w).

Definition is_draw (c : XCall) : bool :=
  match c with glDrawArrays _ _ _ _ _ => true | _ => false end.

(** The ParameterSet: the slots in use. *)
Definition param_set (c : Comp.t) : list Param :=
  take (Comp.param_count c) (Comp.params c).

(** The lines of a parameter file that [read_params] accepts, in order. *)
Definition well_formed_lines (strtof : list ascii → option Z)
    (content : string) : list (list ascii * Z) :=
  omap (sscanf_name_value strtof) (fgets_lines content).

Definition reload_succeeds (srv : ShaderReply) : bool :=
  bool_decide (is_Some (sh_source srv))
  && sh_compile_ok srv && negb (sh_shader srv =? 0)
  && sh_link_ok srv && negb (sh_program srv =? 0).

(** Field [f] of the entry at [p], if [p] is allocated. *)
Definition field_at {A : Type} (f : Win.t → A) (h : gmap ptr Win.t) (p : ptr)
  : option A :=
  f <$> h !! p.

(** The first address on [l] whose entry has identity [x]: what
    [find_win] returns on a well-linked list. *)
Fixpoint lookup_xid (h : gmap ptr Win.t) (l : list ptr) (x : Z) : option ptr :=
  match l with
  | [] => None
  | p :: l' =>
    if decide (field_at Win.xid h p = Some x) then Some p
    else lookup_xid h l' x
  end.

(** [s'] differs from [s] only in how the entries are linked. *)
Definition same_but_links (s s' : State) : Prop :=
  (∀ q, field_at Win.payload (heap s') q = field_at Win.payload (heap s) q)
  ∧ Comp.set_win_head None (Comp.set_win_tail None (comp s'))
    = Comp.set_win_head None (Comp.set_win_tail None (comp s))
  ∧ calls s' = calls s.

(** [f] works on the window behind an entry and leaves its identity and
    its two links alone. *)
Definition keeps_links (f : Win.t → Win.t * list XCall) : Prop :=
  ∀ e, Win.xid (f e).1 = Win.xid e ∧ Win.next (f e).1 = Win.next e
       ∧ Win.prev (f e).1 = Win.prev e.

(** Every link of every allocated entry points to an allocated entry
    whose opposite link points back. *)
Definition no_dangling (h : gmap ptr Win.t) : Prop :=
  ∀ p e, h !! p = Some e →
    (∀ n, Win.next e = Some n → ∃ en, h !! n = Some en ∧ Win.prev en = Some p)
    ∧ (∀ q, Win.prev e = Some q → ∃ eq, h !! q = Some eq ∧ Win.next eq = Some p).

(** The slot [read_params] fills for an accepted line. *)
Definition param_of_line (glGetUniformLocation : Z → string → Z) (prog : Z)
    (line : list ascii * Z) : Param :=
  {| param_name := string_of_list_ascii line.1;
     param_value := line.2;
     param_location :=
       glGetUniformLocation prog (string_of_list_ascii line.1) |}.

(** ** Texture-from-pixmap configurations: [find_tfp_fbconfigs] *)

Definition GLX_PIXMAP_BIT : Z := 2.
Definition GLX_TEXTURE_2D_BIT_EXT : Z := 2.
Definition GLX_TEXTURE_FORMAT_RGB_EXT : Z := 0x20D9.
Definition GLX_TEXTURE_FORMAT_RGBA_EXT : Z := 0x20DA.

(** What the server reports about one [GLXFBConfig].  An attribute the
    server does not answer keeps the [0] its variable was initialised to. *)
Record FBConfig := {
  fb_config : Z;                (* the GLXFBConfig handle *)
  fb_drawable_type : Z;         (* GLX_DRAWABLE_TYPE *)
  fb_tex_targets : Z;           (* GLX_BIND_TO_TEXTURE_TARGETS_EXT *)
  fb_doublebuffer : Z;          (* GLX_DOUBLEBUFFER *)
  fb_bind_rgb : Z;              (* GLX_BIND_TO_TEXTURE_RGB_EXT *)
  fb_bind_rgba : Z;             (* GLX_BIND_TO_TEXTURE_RGBA_EXT *)
  fb_visual_depth : option Z    (* glXGetVisualFromFBConfig; None: NULL *)
}.

(** The body of the loop of lines 761-790.  The accumulator is the pair
    of [tfp_format]/[tfp_available] and the [tfp_config] array. *)
Definition tfp_step (acc : TfpTable * list Z) (c : FBConfig)
  : TfpTable * list Z :=
  let '(t, cfgs) := acc in
  if Z.land (fb_drawable_type c) GLX_PIXMAP_BIT =? 0 then acc
  else if Z.land (fb_tex_targets c) GLX_TEXTURE_2D_BIT_EXT =? 0 then acc
  else if negb (fb_doublebuffer c =? 0) then acc
  else if (fb_bind_rgb c =? 0) && (fb_bind_rgba c =? 0) then acc
  else
    match fb_visual_depth c with
    | None => acc
    | Some depth =>
      if (depth <=? 0) || (depth >=? MAX_DEPTH) then acc
      else if tfp_available_at t depth then acc  (* keep first match per depth *)
      else
        ({| tfp_format :=
              <[Z.to_nat depth :=
                  if negb (fb_bind_rgba c =? 0)
                  then GLX_TEXTURE_FORMAT_RGBA_EXT
                  else GLX_TEXTURE_FORMAT_RGB_EXT]> (tfp_format t);
            tfp_available := <[Z.to_nat depth := true]> (tfp_available t) |},
         <[Z.to_nat depth := fb_config c]> cfgs)
    end.

(** [configs] is what [glXGetFBConfigs] returns ([None]: [NULL]). *)
Definition find_tfp_fbconfigs (configs : option (list FBConfig))
    (t : TfpTable) (cfgs : list Z) : TfpTable * list Z :=
  (* memset(comp->tfp_available, 0, sizeof(comp->tfp_available)) *)
  let t := {| tfp_format := tfp_format t;
              tfp_available := replicate (Z.to_nat MAX_DEPTH) false |} in
  match configs with
  | None => (t, cfgs)
  | Some configs => foldl tfp_step (t, cfgs) configs
  end.

(** Lines 905-913 of [init_compositor]: some depth has a configuration. *)
Definition have_any_tfp (t : TfpTable) : bool :=
  existsb (λ d, tfp_available_at t (Z.of_nat d)) (seq 0 (Z.to_nat MAX_DEPTH)).

(** ** Start-up: the windows that exist already *)

(** Lines 1076-1082 of [init_compositor]: damage tracking for an entry
    that was just created. *)
Definition damage_create_init (srv : Server) (w : Win.t)
  : Win.t * list XCall :=
  let w := Win.set_damage (srv_damage srv) w in
  (if negb (srv_xerror srv =? 0) then Win.set_damage 0 w else w,
   [XDamageCreate (Win.xid w)]).

(** The body of the loop of lines 1059-1084 for one child of the root. *)
Definition init_child (child : Z) (srv : Server) (s : State) : option State :=
  match srv_attr srv with
  | None => Some s
  | Some attr =>
    if negb (attr_map_state attr =? IsViewable) then Some s
    else if child =? Comp.overlay (comp s) then Some s
    else
      '(w, s) ← add_win (srv_oom srv) child s;
      match w with
      | None => Some s
      | Some w =>
        s ← store w (map_fields attr) s;
        s ← at_entry (damage_create_init srv) w s;
        bind_at (srv_bind srv) w s
      end
  end.

Fixpoint init_children (children : list (Z * Server)) (s : State)
  : option State :=
  match children with
  | [] => Some s
  | (child, srv) :: children =>
    s ← init_child child srv s; init_children children s
  end.

(** Lines 1057-1088 of [init_compositor].  [tree] is the child list of
    [XQueryTree], bottom-most first, each child with what the server
    answers about it; [None] when the query fails. *)
Definition init_windows (tree : option (list (Z * Server))) (s : State)
  : option State :=
  s ← match tree with
      | Some children => init_children children s
      | None => Some s
      end;
  Some (with_comp (Comp.set_needs_redraw true) s).

(** ** Shutdown: the window loop of [cleanup_compositor] *)

(** Lines 1101-1108. *)
Fixpoint cleanup_from (fuel : nat) (w : option ptr) (s : State)
  : option State :=
  match w with
  | None => Some s
  | Some p =>
    match fuel with
    | O => None
    | S fuel' =>
      e ← load p s;
      let next := Win.next e in
      let s :=
        if negb (Win.damage e =? 0)
        then emit [XDamageDestroy (Win.damage e)] s else s in
      s ← unbind_at p s;
      _ ← load p s;
      cleanup_from fuel' next (free p s)
    end
  end.

(** Lines 1101-1109. *)
Definition cleanup_windows (s : State) : option State :=
  s ← cleanup_from (size (heap s)) (Comp.win_head (comp s)) s;
  Some (with_comp (Comp.set_win_head None)
          (with_comp (Comp.set_win_tail None) s)).

(** ** The main loop *)

(** The compositor together with the two pieces of loop state that are
    not part of [State]: the poll counter of the parameter file and the
    number of frames presented ([glXSwapBuffers]) so far. *)
Record Loop := {
  loop_state : State;
  param_check_ctr : Z;
  frames : nat
}.

(** What happens around one iteration of the loop of [main]: the events
    that are pending, whether [SIGUSR1] has set [g_reload] (with the
    answers to the reload it triggers), and the parameter file. *)
Record Tick := {
  tick_events : list (Server * XEvent);
  tick_reload : option ShaderReply;
  tick_params : ParamFile
}.

(** Lines 1182-1217: one iteration of [while (g_running)]. *)
Definition main_iteration (strtof : list ascii → option Z)
    (glGetUniformLocation : Z → string → Z) (t : Tick) (m : Loop)
  : option Loop :=
  (* Process all pending X events *)
  s ← handle_events (tick_events t) (loop_state m);
  (* Check for shader reload *)
  let s :=
    match tick_reload t with
    | Some srv =>
      with_comp (Comp.set_needs_redraw true)
        (reload_postproc_shader glGetUniformLocation srv s)
    | None => s
    end in
  (* Check for param file changes *)
  let ctr := param_check_ctr m + 1 in
  let '(ctr, s) :=
    if ctr >=? 30
    then (0, read_params strtof glGetUniformLocation (tick_params t) s)
    else (ctr, s) in
  (* Render *)
  '(s, n) ← (if Comp.needs_redraw (comp s)
             then s ← render_frame s;
                  Some (with_comp (Comp.set_needs_redraw false) s,
                        S (frames m))
             else Some (s, frames m));
  (* Always mark redraw for animated shaders *)
  Some {| loop_state := with_comp (Comp.set_needs_redraw true) s;
          param_check_ctr := ctr;
          frames := n |}.

(** The iterations made while [g_running] stays set. *)
Fixpoint main_loop (strtof : list ascii → option Z)
    (glGetUniformLocation : Z → string → Z) (ticks : list Tick) (m : Loop)
  : option Loop :=
  match ticks with
  | [] => Some m
  | t :: ticks =>
    m ← main_iteration strtof glGetUniformLocation t m;
    main_loop strtof glGetUniformLocation ticks m
  end.

(** ** Shader path resolution *)

Section Paths.

(** [PATH_MAX] of [<limits.h>]. *)
Variable PATH_MAX : nat.

(** [access(path, R_OK) == 0]. *)
Variable readable : list ascii → bool.

(** [s[i]] of a C string: the terminating NUL follows the last character. *)
Definition char_at (s : list ascii) (i : nat) : ascii := nth i s zero.

(** [snprintf(path, PATH_MAX, "%s/%s", shader_dir, input)]: at most
    [PATH_MAX - 1] characters are stored. *)
Definition snprintf_dir_input (shader_dir input : list ascii) : list ascii :=
  take (PATH_MAX - 1) (shader_dir ++ "/"%char :: input).

(** [resolve_shader_path]; [None] is [NULL], returned when [malloc] or
    [strdup] finds no memory. *)
Definition resolve_shader_path (malloc_fails strdup_fails : bool)
    (shader_dir input : list ascii) : option (list ascii) :=
  let strdup (s : list ascii) := if strdup_fails then None else Some s in
  (* If absolute or starts with ./ or ../, use as-is *)
  if Ascii.eqb (char_at input 0) "/"%char
     || (Ascii.eqb (char_at input 0) "."%char
         && (Ascii.eqb (char_at input 1) "/"%char
             || Ascii.eqb (char_at input 1) "."%char))
  then strdup input
  else
    (* Try relative to executable directory first *)
    if malloc_fails then None
    else
      let path := snprintf_dir_input shader_dir input in
      if readable path then Some path
      else strdup input.   (* Fall back to input as-is *)

End Paths.

(** ** Views used by the further statements *)

(** The configuration passes every test of the loop of
    [find_tfp_fbconfigs] and its visual has depth [d], [0 < d < MAX_DEPTH]. *)
Definition tfp_candidate (c : FBConfig) : option Z :=
  if negb (Z.land (fb_drawable_type c) GLX_PIXMAP_BIT =? 0)
     && negb (Z.land (fb_tex_targets c) GLX_TEXTURE_2D_BIT_EXT =? 0)
     && (fb_doublebuffer c =? 0)
     && (negb (fb_bind_rgb c =? 0) || negb (fb_bind_rgba c =? 0))
  then
    d ← fb_visual_depth c;
    if (0 <? d) && (d <? MAX_DEPTH) then Some d else None
  else None.

Definition tfp_format_of (c : FBConfig) : Z :=
  if negb (fb_bind_rgba c =? 0)
  then GLX_TEXTURE_FORMAT_RGBA_EXT else GLX_TEXTURE_FORMAT_RGB_EXT.

(** The first configuration of the list that is a candidate for depth
    [d]. *)
Definition tfp_first (configs : list FBConfig) (d : Z) : option FBConfig :=
  head (filter (λ c, tfp_candidate c = Some d) configs).

(** The test of line 721 of [resolve_shader_path]: the path is absolute
    or starts with [./] or [..]. *)
Definition used_as_is (input : list ascii) : bool :=
  Ascii.eqb (char_at input 0) "/"%char
  || (Ascii.eqb (char_at input 0) "."%char
      && (Ascii.eqb (char_at input 1) "/"%char
          || Ascii.eqb (char_at input 1) "."%char)).

(** Window textures: generated minus deleted, over a call log. *)
Definition tex_delta (c : XCall) : Z :=
  match c with
  | glGenTextures => 1
  | glDeleteTextures _ => -1
  | _ => 0
  end.

Definition textures_alive (cs : list XCall) : Z :=
  foldr (λ c n, tex_delta c + n) 0 cs.

(** The number of entries that hold a binding. *)
Definition bound_windows (h : gmap ptr Win.t) : Z :=
  Z.of_nat (size (filter (λ kv, Win.pixmap_valid kv.2 = true) h)).

(** Neither the root nor the overlay has an entry. *)
Definition no_self (s : State) : Prop :=
  ∀ p e, heap s !! p = Some e →
    Win.xid e ≠ Comp.root (comp s) ∧ Win.xid e ≠ Comp.overlay (comp s).

(** The child can be tracked: the server answers the attribute query
    with a viewable window, memory is available, and the child is neither
    the overlay nor the root. *)
Definition init_accepts (c : Comp.t) (child : Z * Server) : bool :=
  match srv_attr child.2 with
  | Some attr =>
    (attr_map_state attr =? IsViewable)
    && negb (child.1 =? Comp.overlay c) && negb (child.1 =? Comp.root c)
    && negb (srv_oom child.2)
  | None => false
  end.

(** What one ParameterSet entry makes [apply_params] send. *)
Definition uniform_of (p : Param) : option (Z * Z) :=
  if 0 <=? param_location p then Some (param_location p, param_value p)
  else None.

(** The calls of a bind that goes through, and of the unbind that undoes
    it. *)
Definition bind_calls (t : TfpTable) (srv : BindReply) (w : Win.t)
    (depth : Z) : list XCall :=
  [XCompositeNameWindowPixmap (Win.xid w);
   glXCreatePixmap (reply_pixmap srv) (tfp_format_at t depth);
   glGenTextures;
   glXBindTexImageEXT (reply_glx_pixmap srv)].

Definition unbind_calls (srv : BindReply) : list XCall :=
  [glXReleaseTexImageEXT (reply_glx_pixmap srv);
   glDeleteTextures (reply_texture srv);
   glXDestroyPixmap (reply_glx_pixmap srv);
   XFreePixmap (reply_pixmap srv)].

(** The parameter array is used within its bounds: 16 slots, at most 16
    in use, and every name in use fits [name[64]] with its terminator. *)
Definition params_ok (c : Comp.t) : Prop :=
  length (Comp.params c) = MAX_PARAMS
  ∧ (Comp.param_count c ≤ MAX_PARAMS)%nat
  ∧ Forall (λ p, (String.length (param_name p) ≤ 63)%nat) (param_set c).

(** ** The shape of the state transformers *)

(** A field update that leaves the identity and the binding flag alone. *)
Definition field_fn (g : Win.t → Win.t) : Prop :=
  ∀ e, Win.xid (g e) = Win.xid e
       ∧ Win.pixmap_valid (g e) = Win.pixmap_valid e.

(** An operation on one entry that keeps the identity and generates or
    deletes a texture exactly when the binding flag goes up or down. *)
Definition entry_fn (f : Win.t → Win.t * list XCall) : Prop :=
  ∀ e, Win.xid (f e).1 = Win.xid e
       ∧ textures_alive (f e).2
         = Z.b2z (Win.pixmap_valid (f e).1) - Z.b2z (Win.pixmap_valid e).

(** An update of the compositor record that keeps the root and the
    overlay and does not withdraw a redraw request. *)
Definition comp_fn (g : Comp.t → Comp.t) : Prop :=
  ∀ c, Comp.root (g c) = Comp.root c ∧ Comp.overlay (g c) = Comp.overlay c
       ∧ (Comp.needs_redraw c = true → Comp.needs_redraw (g c) = true).

(** The window textures alive exceed the bound windows by [k]. *)
Definition tex_balance (k : Z) (s : State) : Prop :=
  textures_alive (calls s) = k + bound_windows (heap s).

(** A redraw has been requested. *)
Definition redraw_pending (s : State) : Prop :=
  Comp.needs_redraw (comp s) = true.

(** ** Sample data for the examples *)

(** Depths 24 ([GLX_TEXTURE_FORMAT_RGB_EXT], 0x20D9) and 32 ([..._RGBA_EXT],
    0x20DA) can be bound, as on a typical server. *)
Definition sample_tfp : TfpTable :=
  {| tfp_format := <[32%nat := 0x20DA]> (replicate 33 0x20D9);
     tfp_available := <[24%nat := true]> (<[32%nat := true]> (replicate 33 false)) |}.

Definition sample_comp : Comp.t :=
  Comp.mk 1 2 800 600 sample_tfp 7 8 9 0 1 2 None None
    (replicate MAX_PARAMS (Build_Param EmptyString 0 0)) 0 0 false.

(** The state right after start-up on an empty screen. *)
Definition empty_state : State := mkState sample_comp ∅ [].

Definition sample_attr : XWindowAttributes :=
  {| attr_x := 10; attr_y := 20; attr_width := 100; attr_height := 50;
     attr_border_width := 0; attr_depth := 24; attr_map_state := IsViewable;
     attr_override_redirect := false |}.

Definition bind_ok : BindReply :=
  {| reply_attr := Some sample_attr; reply_pixmap := 71;
     reply_glx_pixmap := 72; reply_texture := 73 |}.

(** [XCompositeNameWindowPixmap] fails. *)
Definition bind_no_pixmap : BindReply :=
  {| reply_attr := Some sample_attr; reply_pixmap := 0;
     reply_glx_pixmap := 72; reply_texture := 73 |}.

Definition srv_ok : Server :=
  {| srv_oom := false; srv_attr := Some sample_attr;
     srv_reparent_attr := Some sample_attr; srv_damage := 55;
     srv_xerror := 0; srv_bind := bind_ok |}.

Definition srv_no_pixmap : Server :=
  {| srv_oom := false; srv_attr := Some sample_attr;
     srv_reparent_attr := Some sample_attr; srv_damage := 55;
     srv_xerror := 0; srv_bind := bind_no_pixmap |}.

(** A window that was just mapped and bound. *)
Definition bound_entry : Win.t :=
  (map_entry sample_tfp srv_ok sample_attr (Win.set_xid 100 Win.zero)).1.

(** A resize to width 0. *)
Definition shrink_event : XConfigureEvent :=
  {| cfg_window := 100; cfg_x := 10; cfg_y := 20; cfg_width := 0;
     cfg_height := 50; cfg_border_width := 0; cfg_above := 0 |}.

Definition grow_event : XConfigureEvent :=
  {| cfg_window := 100; cfg_x := 10; cfg_y := 20; cfg_width := 300;
     cfg_height := 200; cfg_border_width := 0; cfg_above := 0 |}.

(** Windows 100 and 101 registered in that order: entry 1 is below
    entry 2. *)
Definition two_windows : State :=
  default empty_state
    (reg_run [Insert false 100; Insert false 101] empty_state).

(** The answers of a server whose window [k] is viewable, has depth 24
    and gets resources numbered after [k]. *)
Definition srv_win (k : Z) : Server :=
  let attr :=
    {| attr_x := k; attr_y := 0; attr_width := 100; attr_height := 50;
       attr_border_width := 0; attr_depth := 24; attr_map_state := IsViewable;
       attr_override_redirect := false |} in
  {| srv_oom := false; srv_attr := Some attr; srv_reparent_attr := Some attr;
     srv_damage := k + 1000; srv_xerror := 0;
     srv_bind := {| reply_attr := Some attr; reply_pixmap := k + 2000;
                    reply_glx_pixmap := k + 3000;
                    reply_texture := k + 4000 |} |}.

(** Windows A = 100, B = 101 and C = 102 mapped in that order. *)
Definition abc_events : list (Server * XEvent) :=
  [(srv_win 100, MapNotify 100); (srv_win 101, MapNotify 101);
   (srv_win 102, MapNotify 102)].

Definition abc_state : State :=
  default empty_state (handle_events abc_events empty_state).

(** The draw calls among the calls logged after the first [n]. *)
Definition draws_after (n : nat) (s : State) : list XCall :=
  filter (λ c, is_draw c = true) (drop n (calls s)).

(** The [%f] conversion on the three literals of the examples ([0.5],
    [1.2] and [9.9] as IEEE-754 single-precision patterns); any other
    input is taken not to be a number. *)
Definition strtof_sample (l : list ascii) : option Z :=
  match string_of_list_ascii (take 3%nat l) with
  | "0.5"%string => Some 0x3F000000
  | "1.2"%string => Some 0x3F99999A
  | "9.9"%string => Some 0x411E6666
  | _ => None
  end.

(** A driver whose program 9 has a uniform [brightness] at location 3 and
    whose program 12 has [glitch] at location 5. *)
Definition uniforms_sample (prog : Z) (name : string) : Z :=
  if (prog =? 9) && String.eqb name "brightness" then 3
  else if (prog =? 12) && String.eqb name "glitch" then 5
  else -1.

Definition params_file_1 : ParamFile :=
  {| pf_stat := Some 1700000000;
     pf_fopen := Some "brightness 0.5
contrast 1.2"%string |}.

Definition params_file_2 : ParamFile :=
  {| pf_stat := Some 1700000060; pf_fopen := Some "glitch 9.9"%string |}.


(** The state after the first parameter file has been read. *)
Definition state_with_params : State :=
  read_params strtof_sample uniforms_sample params_file_1 empty_state.

(** A hot-reload that compiles and links, and two that do not. *)
Definition reload_good : ShaderReply :=
  {| sh_source := Some "void main() {}"%string; sh_shader := 11;
     sh_compile_ok := true; sh_program := 12; sh_link_ok := true |}.

Definition reload_broken : ShaderReply :=
  {| sh_source := Some "void main() {"%string; sh_shader := 11;
     sh_compile_ok := false; sh_program := 12; sh_link_ok := true |}.

Definition reload_unlinked : ShaderReply :=
  {| sh_source := Some "void main() {}"%string; sh_shader := 11;
     sh_compile_ok := true; sh_program := 12; sh_link_ok := false |}.

(** The children of the root at start-up: window 100, the overlay (2), a
    window that is not viewable (103), and window 101. *)
Definition sample_children : list (Z * Server) :=
  [(100, srv_win 100);
   (2, srv_win 2);
   (103, {| srv_oom := false;
            srv_attr := Some {| attr_x := 0; attr_y := 0; attr_width := 10;
                                attr_height := 10; attr_border_width := 0;
                                attr_depth := 24; attr_map_state := 0;
                                attr_override_redirect := false |};
            srv_reparent_attr := None; srv_damage := 0; srv_xerror := 0;
            srv_bind := bind_ok |});
   (101, srv_win 101)].

(** The state in which [init_compositor] hands over to the main loop. *)
Definition started_state : State :=
  default empty_state (init_windows (Some sample_children) empty_state).

(** Two iterations: window 102 is mapped and a parameter file appears;
    then window 101 is unmapped and [SIGUSR1] asks for a reload. *)
Definition sample_ticks : list Tick :=
  [{| tick_events := [(srv_win 102, MapNotify 102)];
      tick_reload := None;
      tick_params := params_file_1 |};
   {| tick_events := [(srv_ok, UnmapNotify 101)];
      tick_reload := Some reload_good;
      tick_params := params_file_2 |}].

Definition sample_loop : Loop :=
  {| loop_state := started_state; param_check_ctr := 29; frames := 0 |}.

(** Six configurations: one for windows only, two for depth 24 (RGB
    first), one for depth 32 with alpha, one double-buffered, one whose
    visual is deeper than the tables. *)
Definition sample_fbconfigs : list FBConfig :=
  [{| fb_config := 11; fb_drawable_type := 1; fb_tex_targets := 2;
      fb_doublebuffer := 0; fb_bind_rgb := 1; fb_bind_rgba := 0;
      fb_visual_depth := Some 24 |};
   {| fb_config := 12; fb_drawable_type := 3; fb_tex_targets := 2;
      fb_doublebuffer := 0; fb_bind_rgb := 1; fb_bind_rgba := 0;
      fb_visual_depth := Some 24 |};
   {| fb_config := 13; fb_drawable_type := 7; fb_tex_targets := 3;
      fb_doublebuffer := 0; fb_bind_rgb := 1; fb_bind_rgba := 1;
      fb_visual_depth := Some 24 |};
   {| fb_config := 14; fb_drawable_type := 3; fb_tex_targets := 2;
      fb_doublebuffer := 0; fb_bind_rgb := 1; fb_bind_rgba := 1;
      fb_visual_depth := Some 32 |};
   {| fb_config := 15; fb_drawable_type := 3; fb_tex_targets := 2;
      fb_doublebuffer := 1; fb_bind_rgb := 1; fb_bind_rgba := 1;
      fb_visual_depth := Some 30 |};
   {| fb_config := 16; fb_drawable_type := 3; fb_tex_targets := 2;
      fb_doublebuffer := 0; fb_bind_rgb := 1; fb_bind_rgba := 1;
      fb_visual_depth := Some 40 |}].

(** The tables of a [Compositor] that was just zeroed. *)
Definition zero_tfp : TfpTable :=
  {| tfp_format := replicate 33 0; tfp_available := replicate 33 false |}.
(** * Properties *)

(** ** The binder on one entry *)

Ltac bool_to_Z :=
  rewrite ?orb_true_iff, ?orb_false_iff, ?andb_true_iff, ?andb_false_iff,
    ?negb_true_iff, ?negb_false_iff, ?Z.leb_le, ?Z.leb_gt, ?Z.geb_le,
    ?Z.ltb_lt, ?Z.ltb_ge, ?Z.eqb_eq, ?Z.eqb_neq in *.

Ltac split_ifs :=
  repeat match goal with
         | |- context [if ?b then _ else _] => destruct b eqn:?; simpl
         end.

Lemma unbind_released (w : Win.t) :
  Win.pixmap_valid (unbind_window_pixmap w).1 = false.
Proof.
  unfold unbind_window_pixmap.
  destruct (Win.pixmap_valid w) eqn:E; simpl; [done | by rewrite E].
Qed.

Lemma unbind_unbound (w : Win.t) :
  Win.pixmap_valid w = false → unbind_window_pixmap w = (w, []).
Proof. intros E. unfold unbind_window_pixmap. by rewrite E. Qed.

Lemma unbind_fields (w : Win.t) :
  let w' := (unbind_window_pixmap w).1 in
  Win.mapped w' = Win.mapped w ∧ Win.width w' = Win.width w
  ∧ Win.height w' = Win.height w ∧ Win.xid w' = Win.xid w
  ∧ Win.next w' = Win.next w ∧ Win.prev w' = Win.prev w
  ∧ Win.damage w' = Win.damage w.
Proof.
  unfold unbind_window_pixmap.
  destruct (Win.pixmap_valid w); simpl; done.
Qed.

Lemma unbind_bound_released (w : Win.t) :
  Win.pixmap_valid w = true → released (unbind_window_pixmap w).1.
Proof.
  intros E. unfold unbind_window_pixmap, released. rewrite E. simpl. done.
Qed.

(** [bind] starts by dropping the old binding and then works on the
    unbound entry. *)
Lemma bind_after_unbind (t : TfpTable) (srv : BindReply) (w : Win.t) :
  bind_window_pixmap t srv w =
  let '(w1, c0) := unbind_window_pixmap w in
  let '(w2, c) := bind_window_pixmap t srv w1 in (w2, c0 ++ c).
Proof.
  destruct (Win.pixmap_valid w) eqn:Ev.
  - pose proof (unbind_released w) as Hr.
    unfold bind_window_pixmap at 1. rewrite Ev.
    destruct (unbind_window_pixmap w) as [w1 c0]. simpl in Hr.
    unfold bind_window_pixmap. rewrite Hr.
    destruct (reply_attr srv); split_ifs; by rewrite ?app_nil_r, <- ?app_assoc.
  - rewrite unbind_unbound by done. by destruct (bind_window_pixmap t srv w).
Qed.

Lemma bind_unbound_bound_iff (t : TfpTable) (srv : BindReply) (w : Win.t) :
  Win.pixmap_valid w = false →
  bound (bind_window_pixmap t srv w).1 ↔
  Win.mapped w = true ∧ 0 < Win.width w ∧ 0 < Win.height w
  ∧ reply_succeeds t srv.
Proof.
  intros Ev.
  unfold bound, reply_succeeds, depth_usable, bind_window_pixmap.
  rewrite Ev.
  destruct (Win.mapped w); simpl; [| split; [congruence | intros [? _]; done]].
  destruct (Z.leb_spec (Win.width w) 0); simpl;
    [split; [congruence | lia] |].
  destruct (Z.leb_spec (Win.height w) 0); simpl;
    [split; [congruence | lia] |].
  destruct (reply_attr srv) as [a|]; simpl;
    [| split; [congruence | intros (_ & _ & _ & ? & ? & _); done]].
  destruct (Z.eqb_spec (attr_map_state a) IsViewable); simpl;
    [| split; [congruence | intros (_ & _ & _ & ? & ? & ? & _); congruence]].
  destruct (_ || _ || _) eqn:Ed; simpl.
  { split; [congruence | intros (_ & _ & _ & ? & ? & ? & ? & _)].
    simplify_eq. by rewrite Ed in *. }
  destruct (Z.eqb_spec (reply_pixmap srv) 0); simpl;
    [split; [congruence | intros (_ & _ & _ & ? & ? & ? & ? & ? & _); done] |].
  destruct (Z.eqb_spec (reply_glx_pixmap srv) 0); simpl;
    [split; [congruence | intros (_ & _ & _ & ? & ? & ? & ? & ? & ?); done] |].
  split; [intros _ | done].
  repeat split; try done. exists a. by rewrite Ed.
Qed.

Lemma bind_bound_iff (t : TfpTable) (srv : BindReply) (w : Win.t) :
  bound (bind_window_pixmap t srv w).1 ↔
  Win.mapped w = true ∧ 0 < Win.width w ∧ 0 < Win.height w
  ∧ reply_succeeds t srv.
Proof.
  rewrite bind_after_unbind.
  pose proof (unbind_fields w) as (Hm & Hw & Hh & _).
  pose proof (unbind_released w) as Hr.
  destruct (unbind_window_pixmap w) as [w1 c0]. simpl in *.
  pose proof (bind_unbound_bound_iff t srv w1 Hr) as Hb.
  destruct (bind_window_pixmap t srv w1) as [w2 c]. simpl in *.
  by rewrite Hb, Hm, Hw, Hh.
Qed.

Lemma released_not_bound (w : Win.t) : released w → ¬ bound w.
Proof. intros [E _]. unfold bound. congruence. Qed.

Lemma unbind_keeps_ok (t : TfpTable) (d : Z) (w : Win.t) :
  binding_ok t d w → binding_ok t d (unbind_window_pixmap w).1.
Proof.
  intros [Hb Hr]. destruct (Win.pixmap_valid w) eqn:Ev.
  - pose proof (unbind_bound_released w Ev) as Hrel.
    split; [intros Hb'; by apply released_not_bound in Hrel | done].
  - by rewrite unbind_unbound.
Qed.

Lemma bind_unbound_ok (t : TfpTable) (d : Z) (srv : BindReply) (w : Win.t) :
  released w → reply_depth d srv →
  binding_ok t d (bind_window_pixmap t srv w).1.
Proof.
  intros (Ev & Hp & Hg & Ht) Hd.
  assert (binding_ok t d w) as Hw.
  { split; [unfold bound; congruence | done]. }
  unfold bind_window_pixmap. rewrite Ev.
  destruct (negb (Win.mapped w) || (Win.width w <=? 0) || (Win.height w <=? 0))
    eqn:Eloc; simpl; [done |].
  destruct (reply_attr srv) as [a|] eqn:Ea; simpl; [| done].
  destruct (negb (attr_map_state a =? IsViewable)); simpl; [done |].
  destruct ((attr_depth a <=? 0) || (attr_depth a >=? MAX_DEPTH)
            || negb (tfp_available_at t (attr_depth a))) eqn:Ed; simpl;
    [done |].
  destruct (Z.eqb_spec (reply_pixmap srv) 0) as [E0|E0]; simpl.
  { split; [unfold bound; simpl; intros ?; congruence |].
    intros _. unfold released. simpl. by rewrite E0. }
  destruct (Z.eqb_spec (reply_glx_pixmap srv) 0) as [E1|E1]; simpl.
  { split; [unfold bound; simpl; intros ?; congruence |].
    intros _. unfold released. simpl. done. }
  split; [intros _ | unfold bound; simpl; congruence].
  unfold bindable, depth_usable. simpl.
  rewrite <- (Hd a Ea), Ed. bool_to_Z.
  destruct Eloc as [[Em ?] ?]. repeat split; try done; lia.
Qed.

(** [bind] restores the invariant whatever binding the entry had. *)
Lemma bind_ok_any (t : TfpTable) (d : Z) (srv : BindReply) (w : Win.t) :
  (¬ bound w → released w) → reply_depth d srv →
  binding_ok t d (bind_window_pixmap t srv w).1.
Proof.
  intros Hr Hd. rewrite bind_after_unbind.
  destruct (Win.pixmap_valid w) eqn:Ev.
  - pose proof (unbind_bound_released w Ev) as Hrel.
    destruct (unbind_window_pixmap w) as [w1 c0]. simpl in Hrel.
    pose proof (bind_unbound_ok t d srv w1 Hrel Hd).
    by destruct (bind_window_pixmap t srv w1).
  - rewrite unbind_unbound by done.
    assert (released w) as Hrel by (apply Hr; unfold bound; congruence).
    pose proof (bind_unbound_ok t d srv w Hrel Hd).
    by destruct (bind_window_pixmap t srv w).
Qed.

(** [bind] never touches the fields its conditions read. *)
Lemma bind_fields (t : TfpTable) (srv : BindReply) (w : Win.t) :
  let w' := (bind_window_pixmap t srv w).1 in
  Win.mapped w' = Win.mapped w ∧ Win.width w' = Win.width w
  ∧ Win.height w' = Win.height w ∧ Win.xid w' = Win.xid w
  ∧ Win.next w' = Win.next w ∧ Win.prev w' = Win.prev w
  ∧ Win.damage w' = Win.damage w.
Proof.
  rewrite bind_after_unbind.
  pose proof (unbind_fields w) as Hu. pose proof (unbind_released w) as Ev.
  destruct (unbind_window_pixmap w) as [w1 c0]. simpl in Hu, Ev.
  destruct Hu as (<- & <- & <- & <- & <- & <- & <-).
  unfold bind_window_pixmap. rewrite Ev.
  destruct (reply_attr srv); split_ifs; done.
Qed.

Lemma configure_keeps_ok (t : TfpTable) (d : Z) (ev : XConfigureEvent)
    (srv : BindReply) (w : Win.t) :
  binding_ok t d w → reply_depth d srv →
  binding_ok t d (configure_entry t ev srv w).1.
Proof.
  intros [Hb Hr] Hd. unfold configure_entry.
  destruct (resized ev w && _) eqn:E.
  - apply bind_ok_any; done.
  - simpl in *. split; [| done].
    intros Hbd. destruct (Hb Hbd) as ((Hm & Hw & Hh & Hu) & ? & ?).
    rewrite Hm, andb_true_r in E. unfold resized in E. bool_to_Z.
    destruct E as [Ew Eh]. unfold bindable. simpl. by rewrite <- Ew, <- Eh.
Qed.

Lemma map_keeps_ok (t : TfpTable) (d : Z) (srv : Server)
    (attr : XWindowAttributes) (w : Win.t) :
  binding_ok t d w → reply_depth d (srv_bind srv) →
  binding_ok t d (map_entry t srv attr w).1.
Proof.
  intros [Hb Hr] Hd. unfold map_entry.
  destruct (damage_create srv (map_fields attr w)) as [w1 c1] eqn:E1.
  assert (¬ bound w1 → released w1) as Hr1.
  { unfold damage_create in E1. revert E1. split_ifs; intros [= <- _]; done. }
  pose proof (bind_ok_any t d (srv_bind srv) w1 Hr1 Hd).
  by destruct (bind_window_pixmap t (srv_bind srv) w1).
Qed.

Lemma unmap_releases (w : Win.t) :
  (¬ bound w → released w) →
  released (unmap_entry w).1 ∧ Win.mapped (unmap_entry w).1 = false.
Proof.
  intros Hr. unfold unmap_entry.
  set (w0 := Win.set_mapped false w).
  assert (released (unbind_window_pixmap w0).1
          ∧ Win.mapped (unbind_window_pixmap w0).1 = false) as [Hrel Hm].
  { destruct (Win.pixmap_valid w) eqn:Ev.
    - split; [by apply unbind_bound_released |].
      by destruct (unbind_fields w0) as (-> & _).
    - rewrite unbind_unbound by done. split; [| done].
      apply Hr. unfold bound. congruence. }
  destruct (unbind_window_pixmap w0) as [w1 c1]. simpl in *.
  unfold damage_destroy. split_ifs; done.
Qed.

Lemma binder_step_ok (t : TfpTable) (d : Z) (op : BinderOp) (w : Win.t) :
  binding_ok t d w → op_depth d op → binding_ok t d (binder_step t op w).
Proof.
  intros Hw Hd. destruct op; simpl in *.
  - apply bind_ok_any; [apply Hw | done].
  - by apply unbind_keeps_ok.
  - by apply configure_keeps_ok.
  - by apply map_keeps_ok.
  - destruct (unmap_releases w) as [Hrel _]; [apply Hw |].
    split; [intros Hb; by apply released_not_bound in Hrel | done].
Qed.

Lemma binder_run_ok (t : TfpTable) (d : Z) (ops : list BinderOp) (w : Win.t) :
  binding_ok t d w → Forall (op_depth d) ops →
  binding_ok t d (binder_run t ops w).
Proof.
  intros Hw Hops. revert w Hw.
  induction Hops as [| op ops Hop _ IH]; intros w Hw; [done |].
  apply IH. by apply binder_step_ok.
Qed.

Lemma fresh_entry_ok (t : TfpTable) (d : Z) (xid : Z) :
  binding_ok t d (Win.set_xid xid Win.zero).
Proof. split; [intros [=] | done]. Qed.

(** C1 (as amended).  After any sequence of bind, unbind, resize, map and
    unmap operations on a tracked window whose depth the server reports
    as [d], the window holds a live GPU binding only if it is mapped, has
    positive width and height and [d] has a usable table entry; an
    unmapped window holds neither a binding nor a pixmap, GLX pixmap or
    texture handle; and when the sequence ends with a bind that the
    server lets through, the binding exists exactly when the three
    conditions hold. *)
Theorem binding_only_if_bindable (t : TfpTable) (d : Z)
    (ops : list BinderOp) (w : Win.t) :
  binding_ok t d w → Forall (op_depth d) ops →
  let w' := binder_run t ops w in
  (bound w' → bindable t d w')
  ∧ (Win.mapped w' = false → released w')
  ∧ (∀ srv, reply_depth d srv → reply_succeeds t srv →
       let w'' := binder_step t (OpBind srv) w' in
       bound w'' ↔ bindable t d w'').
Proof.
  intros Hw Hops. pose proof (binder_run_ok t d ops w Hw Hops) as [Hb Hr].
  simpl. split; [intros Hbd; by apply Hb |]. split.
  - intros Hm. apply Hr. intros Hbd. destruct (Hb Hbd) as ((Hm' & _) & _).
    congruence.
  - intros srv Hd Hs. simpl. rewrite bind_bound_iff.
    unfold bindable.
    destruct (bind_fields t srv (binder_run t ops w)) as (-> & -> & -> & _).
    destruct Hs as (a & Ha & Hv & Hu & Hp & Hg).
    rewrite <- (Hd a Ha). split; [naive_solver |].
    intros (? & ? & ? & ?). repeat split; try done. by exists a.
Qed.

Lemma binding_only_if_bindable_witness :
  let w' :=
    binder_run sample_tfp
      [OpMap srv_ok sample_attr; OpResize grow_event bind_ok; OpUnmap;
       OpUnbind; OpBind bind_no_pixmap]
      (Win.set_xid 100 Win.zero) in
  (bound w' → bindable sample_tfp 24 w')
  ∧ (Win.mapped w' = false → released w')
  ∧ (∀ srv, reply_depth 24 srv → reply_succeeds sample_tfp srv →
       let w'' := binder_step sample_tfp (OpBind srv) w' in
       bound w'' ↔ bindable sample_tfp 24 w'').
Proof.
  apply (binding_only_if_bindable sample_tfp 24).
  - apply fresh_entry_ok.
  - repeat constructor; simpl; intros a [= <-]; reflexivity.
Defined.

(** C1 as stated fails: a mapped window of positive size and usable depth
    is left without a binding when the server cannot name its pixmap, and
    also after a plain unbind. *)
Lemma binding_iff_bindable_fails :
  let w1 := binder_run sample_tfp [OpMap srv_no_pixmap sample_attr]
              (Win.set_xid 100 Win.zero) in
  let w2 := binder_run sample_tfp [OpMap srv_ok sample_attr; OpUnbind]
              (Win.set_xid 100 Win.zero) in
  ¬ (bound w1 ↔ bindable sample_tfp 24 w1)
  ∧ ¬ (bound w2 ↔ bindable sample_tfp 24 w2).
Proof.
  split; intros [_ H].
  - assert (bound
              (binder_run sample_tfp [OpMap srv_no_pixmap sample_attr]
                 (Win.set_xid 100 Win.zero))) as Hb.
    { apply H. by vm_compute. }
    discriminate Hb.
  - assert (bound
              (binder_run sample_tfp [OpMap srv_ok sample_attr; OpUnbind]
                 (Win.set_xid 100 Win.zero))) as Hb.
    { apply H. by vm_compute. }
    discriminate Hb.
Qed.

(** C6.  [unbind] is idempotent: a second call right after the first
    returns the entry unchanged and makes no call at all, both on the
    entry itself and on the entry addressed through the heap. *)
Theorem unbind_idempotent :
  (∀ w : Win.t,
     unbind_window_pixmap (unbind_window_pixmap w).1
     = ((unbind_window_pixmap w).1, []))
  ∧ (∀ (p : ptr) (s : State),
       unbind_at p s ≫= unbind_at p = unbind_at p s).
Proof.
  split.
  - intros w. apply unbind_unbound, unbind_released.
  - intros p s. unfold unbind_at, at_entry, load.
    destruct (heap s !! p) as [e|] eqn:He; [| done]. simpl.
    pose proof (unbind_released e) as Hr.
    destruct (unbind_window_pixmap e) as [e' c] eqn:Eu. simpl in Hr.
    unfold store, emit, with_heap. simpl. rewrite He. simpl.
    rewrite lookup_insert_eq. simpl.
    rewrite (unbind_unbound e' Hr). simpl.
    by rewrite insert_insert_eq, app_nil_r.
Qed.

Lemma composite_skips_unbound (rh : Z) (w : Win.t) :
  Win.pixmap_valid w = false → composite_window rh w = (w, []).
Proof.
  intros E. unfold composite_window. rewrite E.
  by destruct (Win.mapped w).
Qed.

Lemma bind_unbound_noop (t : TfpTable) (srv : BindReply) (w : Win.t) :
  Win.pixmap_valid w = false → bind_precondition_fails t srv w →
  bind_window_pixmap t srv w = (w, []).
Proof.
  intros Ev Hf. unfold bind_window_pixmap. rewrite Ev.
  destruct (negb (Win.mapped w) || (Win.width w <=? 0) || (Win.height w <=? 0))
    eqn:Eloc; [done |].
  bool_to_Z. destruct Eloc as [[Em Ew] Eh].
  destruct Hf as [Hf | [Hf | [Hf | (a & Ha & Hu)]]]; [congruence | lia | lia |].
  rewrite Ha. destruct (negb (attr_map_state a =? IsViewable)); [done |].
  unfold depth_usable in Hu. apply negb_false_iff in Hu. by rewrite Hu.
Qed.

Lemma precondition_after_unbind (t : TfpTable) (srv : BindReply) (w : Win.t) :
  bind_precondition_fails t srv w →
  bind_precondition_fails t srv (unbind_window_pixmap w).1.
Proof.
  unfold bind_precondition_fails.
  by destruct (unbind_fields w) as (-> & -> & -> & _).
Qed.

(** C7 (as amended).  When one of the four preconditions fails, [bind]
    does exactly what [unbind] does: it releases the binding the window
    may still hold and nothing else.  The window is then unbound, pass 1
    skips it, and a window that was already unbound is left unchanged
    with no call made. *)
Theorem bind_without_precondition (t : TfpTable) (srv : BindReply)
    (w : Win.t) (rh : Z) :
  bind_precondition_fails t srv w →
  let w' := (bind_window_pixmap t srv w).1 in
  bind_window_pixmap t srv w = unbind_window_pixmap w
  ∧ Win.pixmap_valid w' = false
  ∧ composite_window rh w' = (w', [])
  ∧ (Win.pixmap_valid w = false → bind_window_pixmap t srv w = (w, [])).
Proof.
  intros Hf. simpl.
  assert (bind_window_pixmap t srv w = unbind_window_pixmap w) as Heq.
  { rewrite bind_after_unbind.
    pose proof (precondition_after_unbind t srv w Hf) as Hf'.
    pose proof (unbind_released w) as Hr.
    destruct (unbind_window_pixmap w) as [w1 c0]. simpl in *.
    rewrite (bind_unbound_noop t srv w1 Hr Hf'). by rewrite app_nil_r. }
  rewrite Heq. split; [done |]. split; [apply unbind_released |].
  split; [apply composite_skips_unbound, unbind_released |].
  apply unbind_unbound.
Qed.

Lemma bind_without_precondition_witness :
  let w := (configure_fields shrink_event bound_entry) in
  let w' := (bind_window_pixmap sample_tfp bind_ok w).1 in
  bind_window_pixmap sample_tfp bind_ok w = unbind_window_pixmap w
  ∧ Win.pixmap_valid w' = false
  ∧ composite_window 600 w' = (w', [])
  ∧ (Win.pixmap_valid w = false →
     bind_window_pixmap sample_tfp bind_ok w = (w, [])).
Proof.
  apply (bind_without_precondition sample_tfp bind_ok
           (configure_fields shrink_event bound_entry) 600).
  right. left. vm_compute. discriminate.
Defined.

(** C7 as stated fails: [handle_configure] shrinks a bound window to
    width 0 and calls [bind]; the width precondition fails, yet the entry
    changes, because the binding it held is released. *)
Lemma bind_noop_fails :
  let w := configure_fields shrink_event bound_entry in
  bind_precondition_fails sample_tfp bind_ok w
  ∧ Win.pixmap_valid w = true
  ∧ (bind_window_pixmap sample_tfp bind_ok w).1 ≠ w
  ∧ Win.pixmap_valid (bind_window_pixmap sample_tfp bind_ok w).1 = false.
Proof.
  simpl. split; [right; left; vm_compute; discriminate |].
  split; [reflexivity |]. split; [| reflexivity].
  vm_compute. discriminate.
Qed.

(** ** Chains through the heap *)

Lemma field_at_insert {A} (f : Win.t → A) (h : gmap ptr Win.t) (p q : ptr)
    (e : Win.t) :
  field_at f (<[p := e]> h) q
  = if decide (q = p) then Some (f e) else field_at f h q.
Proof.
  unfold field_at. case_decide as E.
  - subst q. by rewrite lookup_insert_eq.
  - by rewrite lookup_insert_ne.
Qed.

Lemma field_at_Some {A} (f : Win.t → A) (h : gmap ptr Win.t) (p : ptr)
    (e : Win.t) :
  h !! p = Some e → field_at f h p = Some (f e).
Proof. intros E. unfold field_at. by rewrite E. Qed.

Lemma field_at_is_Some {A} (f : Win.t → A) (h : gmap ptr Win.t) (p : ptr) :
  is_Some (field_at f h p) ↔ is_Some (h !! p).
Proof. unfold field_at. by rewrite fmap_is_Some. Qed.

Section Chains.

Context (f : Win.t → option ptr).
Implicit Types (h : gmap ptr Win.t) (l : list ptr) (cur stop : option ptr).

Lemma seg_app h cur l1 l2 stop :
  seg f h cur (l1 ++ l2) stop ↔
  ∃ mid, seg f h cur l1 mid ∧ seg f h mid l2 stop.
Proof.
  revert cur. induction l1 as [| p l1 IH]; intros cur; simpl.
  - split; [intros H; by exists cur | by intros (mid & -> & H)].
  - split.
    + intros (-> & e & He & Hs). apply IH in Hs as (mid & H1 & H2).
      exists mid. split; [| done]. split; [done |]. by exists e.
    + intros (mid & (-> & e & He & H1) & H2). split; [done |].
      exists e. split; [done |]. apply IH. by exists mid.
Qed.

Lemma seg_snoc h cur l p stop :
  seg f h cur (l ++ [p]) stop ↔
  seg f h cur l (Some p) ∧ field_at f h p = Some stop.
Proof.
  rewrite seg_app. simpl. unfold field_at. split.
  - intros (mid & H1 & -> & e & He & <-). by rewrite He.
  - intros (H1 & He). exists (Some p). split; [done |]. split; [done |].
    destruct (h !! p) as [e|]; [| done]. exists e. by simplify_eq/=.
Qed.

Lemma seg_frame h h' cur l stop :
  (∀ q, q ∈ l → field_at f h' q = field_at f h q) →
  seg f h cur l stop → seg f h' cur l stop.
Proof.
  revert cur. induction l as [| p l IH]; intros cur Hq; simpl; [done |].
  intros (-> & e & He & Hs). split; [done |].
  pose proof (Hq p ltac:(left)) as Hp. unfold field_at in Hp.
  rewrite He in Hp. destruct (h' !! p) as [e'|]; [| done].
  simpl in Hp. injection Hp as Hp.
  exists e'. split; [done |]. rewrite Hp. apply IH; [| done].
  intros q Hin. apply Hq. by right.
Qed.

Lemma seg_head h cur l stop :
  seg f h cur l stop → cur = match l with [] => stop | p :: _ => Some p end.
Proof. destruct l; simpl; [done | by intros (-> & _)]. Qed.

Lemma seg_head_None h cur l : seg f h cur l None → cur = head l.
Proof. intros H. apply seg_head in H. by destruct l. Qed.

Lemma seg_allocated h cur l stop p :
  seg f h cur l stop → p ∈ l → is_Some (h !! p).
Proof.
  revert cur. induction l as [| q l IH]; intros cur; simpl.
  - intros _ Hin. by apply elem_of_nil in Hin.
  - intros (-> & e & He & Hs) [-> | Hin]%elem_of_cons; [by exists e |].
    by eapply IH.
Qed.

(** The field of a node on the chain is its successor on the list. *)
Lemma seg_field h cur a w b :
  seg f h cur (a ++ w :: b) None → field_at f h w = Some (head b).
Proof.
  rewrite seg_app. intros (mid & _ & _ & e & He & Hs).
  apply seg_head_None in Hs. by rewrite (field_at_Some _ _ _ _ He), Hs.
Qed.

(** Linking [w] into the chain between [a] and [b]. *)
Lemma seg_insert h h' cur cur' a b w :
  seg f h cur (a ++ b) None →
  NoDup (a ++ w :: b) →
  field_at f h' w = Some (head b) →
  (∀ q, q ∈ a ++ b →
     field_at f h' q
     = if decide (Some q = last a) then Some (Some w) else field_at f h q) →
  cur' = (if last a is Some _ then cur else Some w) →
  seg f h' cur' (a ++ w :: b) None.
Proof.
  intros Hs Hnd Hw Hq ->.
  apply NoDup_app in Hnd as (Hnda & Hab & [Hwb Hndb]%NoDup_cons).
  apply seg_app in Hs as (mid & Ha & Hb).
  apply seg_app. exists (Some w). split.
  - destruct (last a) as [p|] eqn:El.
    + apply last_Some in El as [a' ->].
      apply NoDup_app in Hnda as (_ & Hpa & _).
      apply seg_snoc in Ha as [Ha _]. apply seg_snoc. split.
      * eapply seg_frame; [| done]. intros q Hin. rewrite Hq.
        -- case_decide as E; [| done].
           injection E as ->. destruct (Hpa p Hin). by left.
        -- apply elem_of_app. left. apply elem_of_app. by left.
      * rewrite Hq.
        -- by rewrite decide_True.
        -- apply elem_of_app. left. apply elem_of_app. right. by left.
    + apply last_None in El as ->. done.
  - simpl. split; [done |]. unfold field_at in Hw.
    destruct (h' !! w) as [e|]; [| done]. injection Hw as Hw.
    exists e. split; [done |]. rewrite Hw.
    pose proof (seg_head_None _ _ _ Hb) as <-.
    eapply seg_frame; [| done]. intros q Hin. rewrite Hq.
    + case_decide as E; [| done]. symmetry in E.
      apply last_Some_elem_of in E. destruct (Hab q E). by right.
    + apply elem_of_app. by right.
Qed.

(** Taking [w] out of the chain. *)
Lemma seg_unlink h h' cur cur' a b w v :
  seg f h cur (a ++ w :: b) None →
  NoDup (a ++ w :: b) →
  field_at f h w = Some v →
  (∀ q, q ∈ a ++ b →
     field_at f h' q
     = if decide (Some q = last a) then Some v else field_at f h q) →
  cur' = (if last a is Some _ then cur else v) →
  seg f h' cur' (a ++ b) None.
Proof.
  intros Hs Hnd Hw Hq ->.
  apply NoDup_app in Hnd as (Hnda & Hab & [Hwb Hndb]%NoDup_cons).
  pose proof (seg_field _ _ _ _ _ Hs) as Hv. rewrite Hw in Hv.
  injection Hv as ->.
  apply seg_app in Hs as (mid & Ha & _ & e & He & Hb).
  apply seg_app. exists (head b). split.
  - destruct (last a) as [p|] eqn:El.
    + apply last_Some in El as [a' ->].
      apply NoDup_app in Hnda as (_ & Hpa & _).
      apply seg_snoc in Ha as [Ha _]. apply seg_snoc. split.
      * eapply seg_frame; [| done]. intros q Hin. rewrite Hq.
        -- case_decide as E; [| done].
           injection E as ->. destruct (Hpa p Hin). by left.
        -- apply elem_of_app. left. apply elem_of_app. by left.
      * rewrite Hq.
        -- by rewrite decide_True.
        -- apply elem_of_app. left. apply elem_of_app. right. by left.
    + apply last_None in El as ->. done.
  - pose proof (seg_head_None _ _ _ Hb) as Hh. rewrite <- Hh.
    eapply seg_frame; [| done]. intros q Hin. rewrite Hq.
    + case_decide as E; [| done]. symmetry in E.
      apply last_Some_elem_of in E. destruct (Hab q E). by right.
    + apply elem_of_app. by right.
Qed.

(** The fuelled traversal reads the list off a chain. *)
Lemma chain_from_seg h cur l fuel :
  seg f h cur l None → (length l ≤ fuel)%nat →
  chain_from f fuel h cur = Some l.
Proof.
  revert cur fuel. induction l as [| p l IH]; intros cur fuel; simpl.
  - intros -> _. by destruct fuel.
  - intros (-> & e & He & Hs) Hlen. destruct fuel as [| fuel]; [lia |].
    simpl. rewrite He. simpl. rewrite (IH _ fuel Hs) by lia. done.
Qed.

Lemma seg_chain_from h cur l fuel :
  chain_from f fuel h cur = Some l → seg f h cur l None.
Proof.
  revert cur l. induction fuel as [| fuel IH]; intros cur l; simpl.
  - destruct cur; [done |]. by intros [= <-].
  - destruct cur as [p|]; [| by intros [= <-]].
    destruct (h !! p) as [e|] eqn:He; [| done]. simpl.
    destruct (chain_from f fuel h (f e)) as [l'|] eqn:El; [| done].
    simpl. intros [= <-]. simpl. split; [done |]. exists e.
    split; [done |]. by apply IH.
Qed.

End Chains.

(** ** Stores and the three views of the heap *)

Lemma store_Some (p : ptr) (g : Win.t → Win.t) (s : State) (e : Win.t) :
  heap s !! p = Some e →
  store p g s = Some (with_heap (<[p := g e]> (heap s)) s).
Proof. intros E. unfold store. by rewrite E. Qed.

Lemma field_at_allocated {A} (f : Win.t → A) (h : gmap ptr Win.t) (p : ptr)
    (v : A) :
  field_at f h p = Some v → ∃ e, h !! p = Some e ∧ f e = v.
Proof.
  unfold field_at. destruct (h !! p) as [e|]; [| done].
  intros [= <-]. by exists e.
Qed.

Lemma same_but_links_refl (s : State) : same_but_links s s.
Proof. done. Qed.

Lemma same_but_links_trans (s1 s2 s3 : State) :
  same_but_links s1 s2 → same_but_links s2 s3 → same_but_links s1 s3.
Proof.
  intros (H1 & H2 & H3) (H1' & H2' & H3'). split; [| split].
  - intros q. by rewrite H1', H1.
  - by rewrite H2', H2.
  - by rewrite H3', H3.
Qed.

(** Writing a link leaves everything else as it was. *)
Lemma store_next_views (p : ptr) (v : option ptr) (s : State) :
  is_Some (heap s !! p) →
  ∃ s', store p (Win.set_next v) s = Some s'
    ∧ (∀ q, field_at Win.next (heap s') q
            = if decide (q = p) then Some v else field_at Win.next (heap s) q)
    ∧ (∀ q, field_at Win.prev (heap s') q = field_at Win.prev (heap s) q)
    ∧ same_but_links s s'
    ∧ comp s' = comp s.
Proof.
  intros [e He]. eexists. split; [by apply store_Some |].
  unfold with_heap, same_but_links. simpl.
  split; [intros q; by rewrite field_at_insert |].
  split; [| split; [split |]]; try done.
  all: intros q; rewrite field_at_insert; case_decide; [subst q | done].
  all: by rewrite (field_at_Some _ _ _ _ He).
Qed.

Lemma store_prev_views (p : ptr) (v : option ptr) (s : State) :
  is_Some (heap s !! p) →
  ∃ s', store p (Win.set_prev v) s = Some s'
    ∧ (∀ q, field_at Win.next (heap s') q = field_at Win.next (heap s) q)
    ∧ (∀ q, field_at Win.prev (heap s') q
            = if decide (q = p) then Some v else field_at Win.prev (heap s) q)
    ∧ same_but_links s s'
    ∧ comp s' = comp s.
Proof.
  intros [e He]. eexists. split; [by apply store_Some |].
  unfold with_heap, same_but_links. simpl.
  split; [| split; [intros q; by rewrite field_at_insert |]].
  2: split; [split |]; try done.
  all: intros q; rewrite field_at_insert; case_decide; [subst q | done].
  all: by rewrite (field_at_Some _ _ _ _ He).
Qed.

Lemma set_head_links (v : option ptr) (s : State) :
  same_but_links s (with_comp (Comp.set_win_head v) s).
Proof. done. Qed.

Lemma set_tail_links (v : option ptr) (s : State) :
  same_but_links s (with_comp (Comp.set_win_tail v) s).
Proof. done. Qed.

Lemma same_but_links_allocated (s s' : State) (p : ptr) :
  same_but_links s s' → is_Some (heap s' !! p) ↔ is_Some (heap s !! p).
Proof.
  intros (H & _). by rewrite <- !(field_at_is_Some Win.payload), H.
Qed.

Lemma load_fields (w : ptr) (s : State) (vn vp : option ptr) :
  field_at Win.next (heap s) w = Some vn →
  field_at Win.prev (heap s) w = Some vp →
  ∃ e, load w s = Some e ∧ Win.next e = vn ∧ Win.prev e = vp.
Proof.
  unfold load, field_at. destruct (heap s !! w) as [e|]; [| done].
  intros [= <-] [= <-]. by exists e.
Qed.

(** The "Unlink" lines: the neighbours of [w] are linked to each other,
    or the head and tail move. *)
Lemma unlink_views (w : ptr) (s : State) (e : Win.t) :
  heap s !! w = Some e →
  (∀ p, Win.prev e = Some p → is_Some (heap s !! p)) →
  (∀ n, Win.next e = Some n → is_Some (heap s !! n)) →
  ∃ s', unlink w s = Some s'
    ∧ (∀ q, field_at Win.next (heap s') q
            = if decide (Some q = Win.prev e) then Some (Win.next e)
              else field_at Win.next (heap s) q)
    ∧ (∀ q, field_at Win.prev (heap s') q
            = if decide (Some q = Win.next e) then Some (Win.prev e)
              else field_at Win.prev (heap s) q)
    ∧ same_but_links s s'
    ∧ Comp.win_head (comp s')
      = (if Win.prev e is Some _ then Comp.win_head (comp s) else Win.next e)
    ∧ Comp.win_tail (comp s')
      = (if Win.next e is Some _ then Comp.win_tail (comp s) else Win.prev e).
Proof.
  intros He Hp Hn. unfold unlink.
  change (load w s) with (heap s !! w). rewrite He. simpl.
  assert (∃ s1,
    match Win.prev e with
    | Some p => store p (Win.set_next (Win.next e)) s
    | None => Some (with_comp (Comp.set_win_head (Win.next e)) s)
    end = Some s1
    ∧ (∀ q, field_at Win.next (heap s1) q
            = if decide (Some q = Win.prev e) then Some (Win.next e)
              else field_at Win.next (heap s) q)
    ∧ (∀ q, field_at Win.prev (heap s1) q = field_at Win.prev (heap s) q)
    ∧ same_but_links s s1
    ∧ Comp.win_head (comp s1)
      = (if Win.prev e is Some _ then Comp.win_head (comp s) else Win.next e)
    ∧ Comp.win_tail (comp s1) = Comp.win_tail (comp s))
    as (s1 & -> & Hn1 & Hp1 & Hl1 & Hh1 & Ht1).
  { destruct (Win.prev e) as [p|] eqn:Ep.
    - destruct (store_next_views p (Win.next e) s (Hp p eq_refl))
        as (s1 & -> & Hn1 & Hp1 & Hl1 & Hc1).
      exists s1. split; [done |]. rewrite Hc1. repeat split; try done; try apply Hl1.
      intros q. rewrite Hn1.
      destruct (decide (q = p)) as [-> |]; [by rewrite decide_True |].
      rewrite decide_False; [done | congruence].
    - eexists. split; [done |]. repeat split; try done. }
  simpl.
  destruct (load_fields w s1 (Win.next e) (Win.prev e)) as (e1 & -> & En & Ep).
  { rewrite Hn1. rewrite (field_at_Some _ _ _ _ He). by case_decide. }
  { rewrite Hp1. by rewrite (field_at_Some _ _ _ _ He). }
  simpl. rewrite En, Ep.
  destruct (Win.next e) as [n|] eqn:Enx.
  - destruct (store_prev_views n (Win.prev e) s1) as (s2 & -> & Hn2 & Hp2 & Hl2 & Hc2).
    { apply (same_but_links_allocated s s1); [done |]. by apply Hn. }
    exists s2. split; [done |]. rewrite Hc2.
    split; [intros q; by rewrite Hn2, Hn1 |].
    split; [| split; [by eapply same_but_links_trans | done]].
    intros q. rewrite Hp2, Hp1.
    destruct (decide (q = n)) as [-> |]; [by rewrite decide_True |].
    rewrite decide_False; [done | congruence].
  - eexists. split; [done |]. unfold with_comp. simpl.
    split; [done |]. split; [intros q; by rewrite Hp1 |].
    split; [| done]. eapply same_but_links_trans; [done |]. done.
Qed.

(** "Place at top": [w] gets the old tail below it and nothing above. *)
Lemma place_at_top_views (w : ptr) (s : State) :
  is_Some (heap s !! w) →
  (∀ t, Comp.win_tail (comp s) = Some t → is_Some (heap s !! t)) →
  ∃ s', place_at_top w s = Some s'
    ∧ (∀ q, field_at Win.next (heap s') q
            = if decide (Some q = Comp.win_tail (comp s)) then Some (Some w)
              else if decide (q = w) then Some None
              else field_at Win.next (heap s) q)
    ∧ (∀ q, field_at Win.prev (heap s') q
            = if decide (q = w) then Some (Comp.win_tail (comp s))
              else field_at Win.prev (heap s) q)
    ∧ same_but_links s s'
    ∧ Comp.win_head (comp s')
      = (if Comp.win_tail (comp s) is Some _ then Comp.win_head (comp s)
         else Some w)
    ∧ Comp.win_tail (comp s') = Some w.
Proof.
  intros Hw Ht. unfold place_at_top.
  destruct (store_prev_views w (Comp.win_tail (comp s)) s Hw)
    as (s1 & -> & Hn1 & Hp1 & Hl1 & Hc1). simpl.
  destruct (store_next_views w None s1) as (s2 & -> & Hn2 & Hp2 & Hl2 & Hc2).
  { by apply (same_but_links_allocated s s1). }
  simpl. rewrite Hc2, Hc1.
  pose proof (same_but_links_trans _ _ _ Hl1 Hl2) as Hl.
  destruct (Comp.win_tail (comp s)) as [t|] eqn:Et.
  - destruct (store_next_views t (Some w) s2) as (s3 & -> & Hn3 & Hp3 & Hl3 & Hc3).
    { apply (same_but_links_allocated s s2); [done |]. by apply Ht. }
    simpl. eexists. split; [done |].
    split; [| split; [| split;
      [| unfold with_comp; simpl; by rewrite ?Hc3, ?Hc2, ?Hc1]]].
    + intros q. unfold with_comp. simpl. rewrite Hn3, Hn2, Hn1.
      repeat case_decide; congruence.
    + intros q. unfold with_comp. simpl. by rewrite Hp3, Hp2, Hp1.
    + exact (same_but_links_trans _ _ _
               (same_but_links_trans _ _ _ Hl Hl3) (set_tail_links _ s3)).
  - simpl. eexists. split; [done |].
    split; [| split; [| split;
      [| unfold with_comp; simpl; by rewrite ?Hc2, ?Hc1]]].
    + intros q. unfold with_comp. simpl. by rewrite Hn2, Hn1.
    + intros q. unfold with_comp. simpl. by rewrite Hp2, Hp1.
    + exact (same_but_links_trans _ _ _ Hl
               (same_but_links_trans _ _ _ (set_head_links _ s2)
                  (set_tail_links _ _))).
Qed.

(** "Place at bottom": the mirror image. *)
Lemma place_at_bottom_views (w : ptr) (s : State) :
  is_Some (heap s !! w) →
  (∀ t, Comp.win_head (comp s) = Some t → is_Some (heap s !! t)) →
  ∃ s', place_at_bottom w s = Some s'
    ∧ (∀ q, field_at Win.next (heap s') q
            = if decide (q = w) then Some (Comp.win_head (comp s))
              else field_at Win.next (heap s) q)
    ∧ (∀ q, field_at Win.prev (heap s') q
            = if decide (Some q = Comp.win_head (comp s)) then Some (Some w)
              else if decide (q = w) then Some None
              else field_at Win.prev (heap s) q)
    ∧ same_but_links s s'
    ∧ Comp.win_head (comp s') = Some w
    ∧ Comp.win_tail (comp s')
      = (if Comp.win_head (comp s) is Some _ then Comp.win_tail (comp s)
         else Some w).
Proof.
  intros Hw Ht. unfold place_at_bottom.
  destruct (store_next_views w (Comp.win_head (comp s)) s Hw)
    as (s1 & -> & Hn1 & Hp1 & Hl1 & Hc1). simpl.
  destruct (store_prev_views w None s1) as (s2 & -> & Hn2 & Hp2 & Hl2 & Hc2).
  { by apply (same_but_links_allocated s s1). }
  simpl. rewrite Hc2, Hc1.
  pose proof (same_but_links_trans _ _ _ Hl1 Hl2) as Hl.
  destruct (Comp.win_head (comp s)) as [t|] eqn:Et.
  - destruct (store_prev_views t (Some w) s2) as (s3 & -> & Hn3 & Hp3 & Hl3 & Hc3).
    { apply (same_but_links_allocated s s2); [done |]. by apply Ht. }
    simpl. eexists. split; [done |].
    split; [| split; [| split;
      [| unfold with_comp; simpl; by rewrite ?Hc3, ?Hc2, ?Hc1]]].
    + intros q. unfold with_comp. simpl. by rewrite Hn3, Hn2, Hn1.
    + intros q. unfold with_comp. simpl. rewrite Hp3, Hp2, Hp1.
      repeat case_decide; congruence.
    + exact (same_but_links_trans _ _ _
               (same_but_links_trans _ _ _ Hl Hl3) (set_head_links _ s3)).
  - simpl. eexists. split; [done |].
    split; [| split; [| split;
      [| unfold with_comp; simpl; by rewrite ?Hc2, ?Hc1]]].
    + intros q. unfold with_comp. simpl. by rewrite Hn2, Hn1.
    + intros q. unfold with_comp. simpl. by rewrite Hp2, Hp1.
    + exact (same_but_links_trans _ _ _ Hl
               (same_but_links_trans _ _ _ (set_tail_links _ s2)
                  (set_head_links _ _))).
Qed.

(** "Place above 'below'". *)
Lemma place_above_views (w below : ptr) (s : State) (b : Win.t) :
  is_Some (heap s !! w) → w ≠ below →
  heap s !! below = Some b →
  (∀ n, Win.next b = Some n → is_Some (heap s !! n)) →
  ∃ s', place_above w below s = Some s'
    ∧ (∀ q, field_at Win.next (heap s') q
            = if decide (q = below) then Some (Some w)
              else if decide (q = w) then Some (Win.next b)
              else field_at Win.next (heap s) q)
    ∧ (∀ q, field_at Win.prev (heap s') q
            = if decide (Some q = Win.next b) then Some (Some w)
              else if decide (q = w) then Some (Some below)
              else field_at Win.prev (heap s) q)
    ∧ same_but_links s s'
    ∧ Comp.win_head (comp s') = Comp.win_head (comp s)
    ∧ Comp.win_tail (comp s')
      = (if Win.next b is Some _ then Comp.win_tail (comp s) else Some w).
Proof.
  intros Hw Hne Hb Hnx. unfold place_above.
  destruct (store_prev_views w (Some below) s Hw)
    as (s1 & -> & Hn1 & Hp1 & Hl1 & Hc1). simpl.
  destruct (load_fields below s1 (Win.next b) (Win.prev b))
    as (b1 & -> & En1 & Ep1).
  { by rewrite Hn1, (field_at_Some _ _ _ _ Hb). }
  { rewrite Hp1, decide_False by done. by rewrite (field_at_Some _ _ _ _ Hb). }
  simpl. rewrite En1.
  destruct (store_next_views w (Win.next b) s1) as (s2 & -> & Hn2 & Hp2 & Hl2 & Hc2).
  { by apply (same_but_links_allocated s s1). }
  simpl.
  destruct (load_fields below s2 (Win.next b) (Win.prev b))
    as (b2 & -> & En2 & Ep2).
  { rewrite Hn2, decide_False by done.
    by rewrite Hn1, (field_at_Some _ _ _ _ Hb). }
  { rewrite Hp2, Hp1, decide_False by done.
    by rewrite (field_at_Some _ _ _ _ Hb). }
  simpl. rewrite En2.
  pose proof (same_but_links_trans _ _ _ Hl1 Hl2) as Hl.
  assert (is_Some (heap s2 !! below)) as Hb2.
  { apply (same_but_links_allocated s s2); [done | by exists b]. }
  destruct (Win.next b) as [n|] eqn:En.
  - destruct (store_prev_views n (Some w) s2) as (s3 & -> & Hn3 & Hp3 & Hl3 & Hc3).
    { apply (same_but_links_allocated s s2); [done |]. by apply Hnx. }
    simpl.
    destruct (store_next_views below (Some w) s3)
      as (s4 & -> & Hn4 & Hp4 & Hl4 & Hc4).
    { by apply (same_but_links_allocated s2 s3). }
    exists s4. split; [done |].
    split; [| split; [| split; [| by rewrite ?Hc4, ?Hc3, ?Hc2, ?Hc1]]].
    + intros q. by rewrite Hn4, Hn3, Hn2, Hn1.
    + intros q. rewrite Hp4, Hp3, Hp2, Hp1.
      repeat case_decide; congruence.
    + exact (same_but_links_trans _ _ _ Hl
               (same_but_links_trans _ _ _ Hl3 Hl4)).
  - simpl.
    destruct (store_next_views below (Some w)
                (with_comp (Comp.set_win_tail (Some w)) s2))
      as (s4 & -> & Hn4 & Hp4 & Hl4 & Hc4); [done |].
    exists s4. split; [done |].
    split; [| split; [| split;
      [| rewrite Hc4; unfold with_comp; simpl; by rewrite ?Hc2, ?Hc1]]].
    + intros q. rewrite Hn4. simpl. by rewrite Hn2, Hn1.
    + intros q. rewrite Hp4. simpl. by rewrite Hp2, Hp1.
    + exact (same_but_links_trans _ _ _ Hl
               (same_but_links_trans _ _ _ (set_tail_links _ s2) Hl4)).
Qed.

(** ** The linked list of a state *)

Lemma linked_ends (s : State) (l : list ptr) :
  linked s l →
  Comp.win_head (comp s) = head l ∧ Comp.win_tail (comp s) = last l.
Proof.
  intros (Hf & Hb & _). split; [by eapply seg_head_None |].
  rewrite <- head_reverse. by eapply seg_head_None.
Qed.

Lemma linked_allocated (s : State) (l : list ptr) (p : ptr) :
  linked s l → p ∈ l → is_Some (heap s !! p).
Proof. intros (Hf & _) Hin. by eapply seg_allocated. Qed.

Lemma reverse_middle (a b : list ptr) (w : ptr) :
  reverse (a ++ w :: b) = reverse b ++ w :: reverse a.
Proof. by rewrite reverse_app, reverse_cons, <- app_assoc. Qed.

Lemma linked_node (s : State) (a b : list ptr) (w : ptr) :
  linked s (a ++ w :: b) →
  ∃ e, heap s !! w = Some e ∧ Win.next e = head b ∧ Win.prev e = last a.
Proof.
  intros (Hf & Hb & _).
  apply seg_field in Hf. rewrite reverse_middle in Hb. apply seg_field in Hb.
  rewrite head_reverse in Hb.
  apply field_at_allocated in Hf as (e & He & Hn).
  rewrite (field_at_Some _ _ _ _ He) in Hb. injection Hb as Hp.
  by exists e.
Qed.

Lemma NoDup_reverse (l : list ptr) : NoDup l → NoDup (reverse l).
Proof. by rewrite reverse_Permutation. Qed.

Lemma NoDup_remove_middle (a b : list ptr) (w : ptr) :
  NoDup (a ++ w :: b) → NoDup (a ++ b) ∧ w ∉ a ++ b.
Proof.
  rewrite !NoDup_app, NoDup_cons, elem_of_app.
  intros (Ha & Hab & Hw & Hb). split; [| intros [Hin | Hin]].
  - repeat split; [done | | done]. intros x Hx Hxb.
    apply (Hab x Hx). by right.
  - apply (Hab w Hin). by left.
  - done.
Qed.

Lemma NoDup_insert_middle (a b : list ptr) (w : ptr) :
  NoDup (a ++ b) → w ∉ a ++ b → NoDup (a ++ w :: b).
Proof.
  rewrite !NoDup_app, NoDup_cons, elem_of_app.
  intros (Ha & Hab & Hb) Hw. repeat split; [done | | tauto | done].
  intros x Hx [-> | Hxb]%elem_of_cons; [tauto |]. by apply (Hab x).
Qed.

(** A state that agrees with [s] on the links of the listed entries and
    on the two ends is linked the same way. *)
Lemma linked_frame (s s' : State) (l : list ptr) :
  linked s l →
  (∀ q, q ∈ l → field_at Win.next (heap s') q = field_at Win.next (heap s) q) →
  (∀ q, q ∈ l → field_at Win.prev (heap s') q = field_at Win.prev (heap s) q) →
  Comp.win_head (comp s') = Comp.win_head (comp s) →
  Comp.win_tail (comp s') = Comp.win_tail (comp s) →
  linked s' l.
Proof.
  intros (Hf & Hb & Hnd) Hn Hp Hh Ht. unfold linked. rewrite Hh, Ht.
  split; [by eapply seg_frame | split; [| done]].
  eapply seg_frame; [| done]. intros q Hq. apply Hp.
  by rewrite elem_of_reverse in Hq.
Qed.

Lemma unlink_linked (s : State) (a b : list ptr) (w : ptr) :
  linked s (a ++ w :: b) →
  ∃ s', unlink w s = Some s' ∧ linked s' (a ++ b) ∧ same_but_links s s'.
Proof.
  intros Hl. destruct (linked_node s a b w Hl) as (e & He & En & Ep).
  destruct (unlink_views w s e He) as (s' & Hs' & Hn & Hp & Hlinks & Hh & Ht).
  { intros p Hp. apply (linked_allocated s (a ++ w :: b)); [done |].
    rewrite Ep in Hp. apply last_Some_elem_of in Hp.
    apply elem_of_app. by left. }
  { intros n Hn. apply (linked_allocated s (a ++ w :: b)); [done |].
    rewrite En in Hn. apply head_Some_elem_of in Hn.
    apply elem_of_app. right. by right. }
  exists s'. split; [done |]. split; [| done].
  destruct Hl as (Hf & Hb & Hnd).
  split; [| split; [| exact (proj1 (NoDup_remove_middle a b w Hnd))]].
  - eapply (seg_unlink Win.next); [done | done | by apply field_at_Some | |].
    + intros q _. by rewrite Hn, Ep.
    + by rewrite Hh, Ep.
  - rewrite reverse_app. rewrite reverse_middle in Hb.
    eapply (seg_unlink Win.prev); [done | | by apply field_at_Some | |].
    + rewrite <- reverse_middle. by apply NoDup_reverse.
    + intros q _. by rewrite Hp, last_reverse, En.
    + by rewrite Ht, last_reverse, En.
Qed.

Lemma place_at_top_linked (s : State) (l : list ptr) (w : ptr) :
  linked s l → w ∉ l → is_Some (heap s !! w) →
  ∃ s', place_at_top w s = Some s' ∧ linked s' (l ++ [w])
        ∧ same_but_links s s'.
Proof.
  intros Hl Hw Ha. destruct (linked_ends s l Hl) as [Eh Et].
  destruct (place_at_top_views w s Ha) as (s' & Hs' & Hn & Hp & Hlinks & Hh & Ht).
  { intros t Ht. apply (linked_allocated s l); [done |].
    rewrite Et in Ht. by apply last_Some_elem_of in Ht. }
  exists s'. split; [done |]. split; [| done].
  destruct Hl as (Hf & Hb & Hnd).
  assert (NoDup (l ++ [w])) as Hnd'.
  { apply NoDup_insert_middle; by rewrite app_nil_r. }
  split; [| split; [| done]].
  - eapply (seg_insert Win.next); [by rewrite app_nil_r | done | | |].
    + rewrite Hn, Et.
      case_decide as E; [symmetry in E; by apply last_Some_elem_of in E |].
      by rewrite decide_True.
    + intros q Hq. rewrite app_nil_r in Hq. rewrite Hn, Et.
      case_decide; [done |]. rewrite decide_False; [done | congruence].
    + by rewrite Hh, Et.
  - rewrite reverse_app. simpl.
    eapply (seg_insert Win.prev _ _ _ _ []); [done | | | |].
    + simpl. apply NoDup_cons. split; [| by apply NoDup_reverse].
      by rewrite elem_of_reverse.
    + by rewrite Hp, decide_True, head_reverse, Et.
    + intros q Hq. simpl in Hq. rewrite elem_of_reverse in Hq.
      rewrite Hp. simpl. rewrite decide_False; [done | congruence].
    + done.
Qed.

Lemma place_at_bottom_linked (s : State) (l : list ptr) (w : ptr) :
  linked s l → w ∉ l → is_Some (heap s !! w) →
  ∃ s', place_at_bottom w s = Some s' ∧ linked s' (w :: l)
        ∧ same_but_links s s'.
Proof.
  intros Hl Hw Ha. destruct (linked_ends s l Hl) as [Eh Et].
  destruct (place_at_bottom_views w s Ha)
    as (s' & Hs' & Hn & Hp & Hlinks & Hh & Ht).
  { intros t Ht. apply (linked_allocated s l); [done |].
    rewrite Eh in Ht. by apply head_Some_elem_of in Ht. }
  exists s'. split; [done |]. split; [| done].
  destruct Hl as (Hf & Hb & Hnd).
  assert (NoDup (w :: l)) as Hnd' by by apply NoDup_cons.
  split; [| split; [| done]].
  - eapply (seg_insert Win.next _ _ _ _ []); [done | done | | | done].
    + by rewrite Hn, decide_True, Eh.
    + intros q Hq. simpl in Hq. rewrite Hn. simpl.
      rewrite decide_False; [done | congruence].
  - rewrite reverse_cons.
    eapply (seg_insert Win.prev);
      [by rewrite app_nil_r | by rewrite <- reverse_cons; apply NoDup_reverse
      | | |].
    + rewrite Hp, Eh.
      case_decide as E; [symmetry in E; by apply head_Some_elem_of in E |].
      by rewrite decide_True.
    + intros q Hq. rewrite app_nil_r in Hq. rewrite elem_of_reverse in Hq.
      rewrite Hp, Eh, last_reverse.
      case_decide; [done |]. rewrite decide_False; [done | congruence].
    + by rewrite Ht, Eh, last_reverse.
Qed.

Lemma place_above_linked (s : State) (a b : list ptr) (w below : ptr) :
  linked s (a ++ below :: b) → w ∉ a ++ below :: b →
  is_Some (heap s !! w) →
  ∃ s', place_above w below s = Some s'
        ∧ linked s' (a ++ below :: w :: b) ∧ same_but_links s s'.
Proof.
  intros Hl Hw Ha. destruct (linked_ends s _ Hl) as [Eh Et].
  destruct (linked_node s a b below Hl) as (e & He & En & Ep).
  assert (w ≠ below) as Hne.
  { intros ->. apply Hw, elem_of_app. right. by left. }
  assert (w ∉ b) as Hwb.
  { intros Hin. apply Hw, elem_of_app. right. by right. }
  destruct (place_above_views w below s e Ha Hne He)
    as (s' & Hs' & Hn & Hp & Hlinks & Hh & Ht).
  { intros n Hn. apply (linked_allocated s (a ++ below :: b)); [done |].
    rewrite En in Hn. apply head_Some_elem_of in Hn.
    apply elem_of_app. right. by right. }
  exists s'. split; [done |]. split; [| done].
  destruct Hl as (Hf & Hb & Hnd).
  assert (NoDup ((a ++ [below]) ++ w :: b)) as Hnd'.
  { apply NoDup_insert_middle; by rewrite <- app_assoc. }
  split; [| split; [| by rewrite <- app_assoc in Hnd']].
  - replace (a ++ below :: w :: b) with ((a ++ [below]) ++ w :: b)
      by by rewrite <- app_assoc.
    eapply (seg_insert Win.next);
      [by rewrite <- app_assoc | done | | |].
    + rewrite Hn, decide_False, decide_True by done. by rewrite En.
    + intros q Hq. rewrite <- app_assoc in Hq. simpl in Hq.
      rewrite Hn, last_snoc.
      repeat case_decide; congruence.
    + by rewrite last_snoc.
  - replace (reverse (a ++ below :: w :: b))
      with (reverse b ++ w :: below :: reverse a).
    2: { by rewrite reverse_middle, reverse_cons, <- app_assoc. }
    rewrite reverse_middle in Hb.
    eapply (seg_insert Win.prev); [done | | | |].
    + replace (reverse b ++ w :: below :: reverse a)
        with (reverse ((a ++ [below]) ++ w :: b)); [by apply NoDup_reverse |].
      by rewrite reverse_middle, reverse_app.
    + rewrite Hp, En. simpl.
      case_decide as E; [symmetry in E; by apply head_Some_elem_of in E |].
      by rewrite decide_True.
    + intros q Hq. rewrite Hp, last_reverse, En.
      repeat case_decide; try congruence. subst q. destruct Hw.
      rewrite <- reverse_middle, elem_of_reverse in Hq. done.
    + by rewrite Ht, last_reverse, En.
Qed.

(** [w->prev = w->next = NULL] on an entry that is off the list. *)
Lemma detach_linked (s : State) (l : list ptr) (w : ptr) :
  linked s l → w ∉ l → is_Some (heap s !! w) →
  ∃ s1 s2, store w (Win.set_prev None) s = Some s1
        ∧ store w (Win.set_next None) s1 = Some s2
        ∧ linked s2 l ∧ same_but_links s s2.
Proof.
  intros Hl Hw Ha.
  destruct (store_prev_views w None s Ha) as (s1 & E1 & Hn1 & Hp1 & Hl1 & Hc1).
  destruct (store_next_views w None s1) as (s2 & E2 & Hn2 & Hp2 & Hl2 & Hc2).
  { by apply (same_but_links_allocated s s1). }
  exists s1, s2. split; [done |]. split; [done |].
  split; [| by eapply same_but_links_trans].
  apply (linked_frame s); [done | | | by rewrite Hc2, Hc1 ..].
  - intros q Hq. rewrite Hn2, Hn1, decide_False; [done | congruence].
  - intros q Hq. rewrite Hp2, Hp1, decide_False; [done | congruence].
Qed.

(** ** [find_win] *)

Lemma find_win_from_spec (h : gmap ptr Win.t) (cur : option ptr)
    (l : list ptr) (fuel : nat) (x : Z) :
  seg Win.next h cur l None → (length l ≤ fuel)%nat →
  find_win_from fuel h cur x = Some (lookup_xid h l x).
Proof.
  revert cur fuel. induction l as [| p l IH]; intros cur fuel; simpl.
  - intros -> _. by destruct fuel.
  - intros (-> & e & He & Hs) Hlen. destruct fuel as [| fuel]; [lia |].
    simpl. rewrite He. simpl. rewrite (field_at_Some _ _ _ _ He).
    destruct (Z.eqb_spec (Win.xid e) x) as [-> | Hne].
    + by rewrite decide_True.
    + rewrite decide_False by congruence. apply IH; [done | lia].
Qed.

Lemma linked_length (s : State) (l : list ptr) :
  linked s l → (length l ≤ size (heap s))%nat.
Proof.
  intros Hl. pose proof Hl as (_ & _ & Hnd).
  rewrite <- size_dom, <- (size_list_to_set (C := gset ptr) l Hnd).
  apply subseteq_size. intros p Hp. apply elem_of_list_to_set in Hp.
  apply elem_of_dom. by eapply linked_allocated.
Qed.

Lemma find_win_linked (s : State) (l : list ptr) (x : Z) :
  linked s l → find_win s x = Some (lookup_xid (heap s) l x).
Proof.
  intros Hl. apply find_win_from_spec; [apply Hl | by apply linked_length].
Qed.

Lemma lookup_xid_Some (h : gmap ptr Win.t) (l : list ptr) (x : Z) (p : ptr) :
  lookup_xid h l x = Some p → p ∈ l ∧ field_at Win.xid h p = Some x.
Proof.
  induction l as [| q l IH]; simpl; [done |].
  case_decide as E.
  - intros [= <-]. split; [by left | done].
  - intros H. destruct (IH H). split; [by right | done].
Qed.

Lemma lookup_xid_None (h : gmap ptr Win.t) (l : list ptr) (x : Z) :
  lookup_xid h l x = None ↔ ∀ p, p ∈ l → field_at Win.xid h p ≠ Some x.
Proof.
  induction l as [| q l IH]; simpl.
  - split; [intros _ p Hp; by apply elem_of_nil in Hp | done].
  - case_decide as E.
    + split; [done |]. intros H. destruct (H q); [by left | done].
    + rewrite IH. split.
      * intros H p [-> | Hp]%elem_of_cons; [done | by apply H].
      * intros H p Hp. apply H. by right.
Qed.

Lemma lookup_xid_frame (h h' : gmap ptr Win.t) (l : list ptr) (x : Z) :
  (∀ q, q ∈ l → field_at Win.xid h' q = field_at Win.xid h q) →
  lookup_xid h' l x = lookup_xid h l x.
Proof.
  induction l as [| q l IH]; intros Hq; simpl; [done |].
  rewrite Hq by by left. rewrite IH; [done |].
  intros p Hp. apply Hq. by right.
Qed.

(** ** The registry invariant *)

Lemma xids_of_omap (h : gmap ptr Win.t) (l : list ptr) :
  xids_of h l = omap (field_at Win.xid h) l.
Proof.
  unfold xids_of, entries_of, field_at.
  induction l as [| p l IH]; [done |]. cbn.
  destruct (h !! p); cbn; [f_equal |]; exact IH.
Qed.

Lemma xids_of_frame (h h' : gmap ptr Win.t) (l : list ptr) :
  (∀ q, q ∈ l → field_at Win.xid h' q = field_at Win.xid h q) →
  xids_of h' l = xids_of h l.
Proof.
  rewrite !xids_of_omap.
  induction l as [| p l IH]; intros Hq; [done |]. cbn.
  rewrite Hq by by left.
  assert (omap (field_at Win.xid h') l = omap (field_at Win.xid h) l) as E.
  { apply IH. intros q Hin. apply Hq. by right. }
  destruct (field_at Win.xid h p); [f_equal |]; exact E.
Qed.

Lemma xids_of_app (h : gmap ptr Win.t) (l1 l2 : list ptr) :
  xids_of h (l1 ++ l2) = xids_of h l1 ++ xids_of h l2.
Proof. rewrite !xids_of_omap. apply omap_app. Qed.

Lemma elem_of_xids_of (h : gmap ptr Win.t) (l : list ptr) (x : Z) :
  x ∈ xids_of h l ↔ ∃ p, p ∈ l ∧ field_at Win.xid h p = Some x.
Proof. rewrite xids_of_omap. apply list_elem_of_omap. Qed.

Lemma lookup_xid_None_xids (h : gmap ptr Win.t) (l : list ptr) (x : Z) :
  lookup_xid h l x = None ↔ x ∉ xids_of h l.
Proof.
  rewrite lookup_xid_None, elem_of_xids_of. split.
  - intros H (p & Hp & E). by apply (H p).
  - intros H p Hp E. apply H. by exists p.
Qed.

(** With distinct identities, [find_win] finds the entry of an identity
    wherever it sits. *)
Lemma lookup_xid_unique (h : gmap ptr Win.t) (l : list ptr) (x : Z) (p : ptr) :
  NoDup (xids_of h l) → p ∈ l → field_at Win.xid h p = Some x →
  lookup_xid h l x = Some p.
Proof.
  induction l as [| q l IH]; intros Hnd Hp Hx; simpl.
  - by apply elem_of_nil in Hp.
  - case_decide as E.
    + apply elem_of_cons in Hp as [-> | Hp]; [done |].
      rewrite xids_of_omap in Hnd. cbn in Hnd. rewrite E in Hnd.
      apply NoDup_cons in Hnd as [Hnin _]. destruct Hnin.
      change (x ∈ omap (field_at Win.xid h) l).
      rewrite <- xids_of_omap. apply elem_of_xids_of. by exists p.
    + apply elem_of_cons in Hp as [-> | Hp]; [done |].
      apply IH; [| done | done].
      rewrite xids_of_omap in Hnd |- *. cbn in Hnd.
      destruct (field_at Win.xid h q);
        [by apply NoDup_cons in Hnd as [_ ?] | exact Hnd].
Qed.

Lemma payload_xid (e e' : Win.t) :
  Win.payload e' = Win.payload e → Win.xid e' = Win.xid e.
Proof. intros H. by apply (f_equal Win.xid) in H. Qed.

Lemma same_but_links_xid (s s' : State) (q : ptr) :
  same_but_links s s' →
  field_at Win.xid (heap s') q = field_at Win.xid (heap s) q.
Proof.
  intros (H & _). specialize (H q). unfold field_at in *.
  destruct (heap s' !! q) as [e'|], (heap s !! q) as [e|]; simpl in *;
    try done.
  injection H as H. by rewrite H.
Qed.

(** Relinking the same entries in another order keeps the invariant. *)
Lemma registry_relinked (s s' : State) (l l' : list ptr) :
  registry_ok s l → linked s' l' → l' ≡ₚ l → same_but_links s s' →
  registry_ok s' l'.
Proof.
  intros (Hl & Hdom & Hx) Hl' Hperm Hlinks. split; [done |]. split.
  - intros p Hp. rewrite Hperm. apply Hdom.
    by apply (same_but_links_allocated s s').
  - rewrite (xids_of_frame (heap s)).
    + rewrite xids_of_omap, Hperm, <- xids_of_omap. done.
    + intros q _. by apply same_but_links_xid.
Qed.

Lemma registry_mem_allocated (s : State) (l : list ptr) (p : ptr) :
  registry_ok s l → p ∈ l ↔ is_Some (heap s !! p).
Proof.
  intros (Hl & Hdom & _). split; [by apply linked_allocated | apply Hdom].
Qed.

(** Splitting the order at a tracked entry. *)
Lemma registry_split (s : State) (l : list ptr) (w : ptr) :
  registry_ok s l → w ∈ l →
  ∃ a b, l = a ++ w :: b ∧ w ∉ a ++ b.
Proof.
  intros ((_ & _ & Hnd) & _) Hw.
  apply list_elem_of_split in Hw as (a & b & ->).
  exists a, b. split; [done |]. by apply NoDup_remove_middle in Hnd as [_ ?].
Qed.

Lemma registry_without (s : State) (a b : list ptr) (w : ptr) :
  registry_ok s (a ++ w :: b) →
  NoDup (xids_of (heap s) (a ++ b))
  ∧ ∀ x, field_at Win.xid (heap s) w = Some x → x ∉ xids_of (heap s) (a ++ b).
Proof.
  intros (_ & _ & Hx).
  rewrite xids_of_omap, <- Permutation_middle, <- xids_of_omap in Hx.
  rewrite xids_of_omap in Hx. cbn in Hx.
  destruct (field_at Win.xid (heap s) w) as [x|].
  - apply NoDup_cons in Hx as [Hnin Hnd]. rewrite xids_of_omap.
    split; [done |]. by intros ? [= <-].
  - rewrite xids_of_omap. by split.
Qed.

(** The first three steps of [restack_win] and [handle_circulate]: [w]
    is off the list, which is otherwise intact. *)
Lemma detached (s : State) (a b : list ptr) (w : ptr) :
  registry_ok s (a ++ w :: b) →
  ∃ s1 s2 s3, unlink w s = Some s1
    ∧ store w (Win.set_prev None) s1 = Some s2
    ∧ store w (Win.set_next None) s2 = Some s3
    ∧ linked s3 (a ++ b) ∧ same_but_links s s3
    ∧ (w ∉ a ++ b) ∧ is_Some (heap s3 !! w)
    ∧ field_at Win.next (heap s3) w = Some None
    ∧ field_at Win.prev (heap s3) w = Some None.
Proof.
  intros Hok. pose proof Hok as (Hl & _).
  pose proof Hl as (_ & _ & Hnd).
  apply NoDup_remove_middle in Hnd as [_ Hw].
  destruct (unlink_linked s a b w Hl) as (s1 & E1 & Hl1 & Hs1).
  assert (is_Some (heap s1 !! w)) as Ha1.
  { apply (same_but_links_allocated s s1); [done |].
    apply (linked_allocated s (a ++ w :: b)); [done |].
    apply elem_of_app. right. by left. }
  destruct (detach_linked s1 (a ++ b) w Hl1 Hw Ha1)
    as (s2 & s3 & E2 & E3 & Hl3 & Hs3).
  exists s1, s2, s3. split_and!; try done.
  - by eapply same_but_links_trans.
  - by apply (same_but_links_allocated s1 s3).
  - destruct (store_next_views w None s2) as (s3' & E3' & Hn & _).
    { apply (same_but_links_allocated s1 s3) in Ha1; [| done].
      unfold store in E3. by destruct (heap s2 !! w). }
    rewrite E3 in E3'. injection E3' as <-. by rewrite Hn, decide_True.
  - destruct (store_prev_views w None s1 Ha1) as (s2' & E2' & _ & Hp2 & _).
    rewrite E2 in E2'. injection E2' as <-.
    destruct (store_next_views w None s2) as (s3' & E3' & _ & Hp3 & _).
    { unfold store in E3. by destruct (heap s2 !! w). }
    rewrite E3 in E3'. injection E3' as <-.
    by rewrite Hp3, Hp2, decide_True.
Qed.

Lemma restack_bottom_ok (s : State) (a b : list ptr) (w : ptr) (above : Z) :
  registry_ok s (a ++ w :: b) → above = 0 →
  ∃ s', restack_win (Some w) above s = Some s'
        ∧ registry_ok s' (w :: a ++ b) ∧ same_but_links s s'.
Proof.
  intros Hok ->.
  destruct (detached s a b w Hok)
    as (s1 & s2 & s3 & E1 & E2 & E3 & Hl3 & Hs3 & Hw & Ha3 & _).
  destruct (place_at_bottom_linked s3 (a ++ b) w Hl3 Hw Ha3)
    as (s' & E' & Hl' & Hs').
  exists s'. unfold restack_win. rewrite E1. simpl. rewrite E2. simpl.
  rewrite E3. simpl. split; [done |].
  pose proof (same_but_links_trans _ _ _ Hs3 Hs') as Hlinks.
  split; [| done]. eapply registry_relinked; [done | done | | done].
  apply Permutation_middle.
Qed.

Lemma restack_top_ok (s : State) (a b : list ptr) (w : ptr) (above : Z) :
  registry_ok s (a ++ w :: b) → above ≠ 0 →
  above ∉ xids_of (heap s) (a ++ b) →
  ∃ s', restack_win (Some w) above s = Some s'
        ∧ registry_ok s' (a ++ b ++ [w]) ∧ same_but_links s s'.
Proof.
  intros Hok Hne Hnin.
  destruct (detached s a b w Hok)
    as (s1 & s2 & s3 & E1 & E2 & E3 & Hl3 & Hs3 & Hw & Ha3 & _).
  destruct (place_at_top_linked s3 (a ++ b) w Hl3 Hw Ha3)
    as (s' & E' & Hl' & Hs').
  exists s'. unfold restack_win. rewrite E1. simpl. rewrite E2. simpl.
  rewrite E3. simpl. unfold XNone.
  apply Z.eqb_neq in Hne. rewrite Hne. simpl.
  rewrite (find_win_linked s3 (a ++ b)) by done. simpl.
  rewrite (lookup_xid_frame (heap s)).
  2: { intros q _. by apply same_but_links_xid. }
  apply lookup_xid_None_xids in Hnin. rewrite Hnin.
  split; [done |].
  pose proof (same_but_links_trans _ _ _ Hs3 Hs') as Hlinks.
  split; [| done]. rewrite app_assoc.
  eapply registry_relinked; [done | done | | done].
  rewrite (Permutation_app_comm (a ++ b) [w]). simpl.
  apply Permutation_middle.
Qed.

Lemma restack_above_ok (s : State) (a b c d : list ptr) (w below : ptr)
    (above : Z) :
  registry_ok s (a ++ w :: b) → above ≠ 0 →
  a ++ b = c ++ below :: d →
  field_at Win.xid (heap s) below = Some above →
  ∃ s', restack_win (Some w) above s = Some s'
        ∧ registry_ok s' (c ++ below :: w :: d) ∧ same_but_links s s'.
Proof.
  intros Hok Hne Hsplit Hx.
  destruct (detached s a b w Hok)
    as (s1 & s2 & s3 & E1 & E2 & E3 & Hl3 & Hs3 & Hw & Ha3 & _).
  rewrite Hsplit in Hl3, Hw.
  destruct (place_above_linked s3 c d w below Hl3 Hw Ha3)
    as (s' & E' & Hl' & Hs').
  exists s'. unfold restack_win. rewrite E1. simpl. rewrite E2. simpl.
  rewrite E3. simpl. unfold XNone.
  apply Z.eqb_neq in Hne. rewrite Hne. simpl.
  rewrite (find_win_linked s3 (c ++ below :: d)) by done. simpl.
  rewrite (lookup_xid_frame (heap s)).
  2: { intros q _. by apply same_but_links_xid. }
  rewrite (lookup_xid_unique _ _ _ below); [| | | done].
  2: { rewrite <- Hsplit. by apply (registry_without s a b w). }
  2: { apply elem_of_app. right. by left. }
  split; [done |].
  pose proof (same_but_links_trans _ _ _ Hs3 Hs') as Hlinks.
  split; [| done].
  eapply registry_relinked; [done | done | | done].
  rewrite <- (Permutation_middle a), Hsplit, <- !Permutation_middle.
  apply Permutation_swap.
Qed.

(** ** Updating one entry in place *)

Lemma at_entry_Some (f : Win.t → Win.t * list XCall) (w : ptr) (s : State)
    (e : Win.t) :
  heap s !! w = Some e →
  at_entry f w s
  = Some (mkState (comp s) (<[w := (f e).1]> (heap s)) (calls s ++ (f e).2)).
Proof.
  intros He. unfold at_entry, load. rewrite He. simpl.
  destruct (f e) as [e' c]. unfold store, emit, with_heap. simpl.
  by rewrite He.
Qed.

(** Replacing an entry by one with the same identity and links. *)
Lemma registry_update (s s' : State) (l : list ptr) (w : ptr) (e e' : Win.t) :
  registry_ok s l → heap s !! w = Some e →
  Win.xid e' = Win.xid e → Win.next e' = Win.next e →
  Win.prev e' = Win.prev e →
  heap s' = <[w := e']> (heap s) →
  Comp.win_head (comp s') = Comp.win_head (comp s) →
  Comp.win_tail (comp s') = Comp.win_tail (comp s) →
  registry_ok s' l.
Proof.
  intros (Hl & Hdom & Hx) He Ex En Ep Hh Hhd Htl.
  assert (∀ {A} (f : Win.t → A), f e' = f e →
          ∀ q, field_at f (heap s') q = field_at f (heap s) q) as Hf.
  { intros A f Ef q. rewrite Hh, field_at_insert. case_decide; [| done].
    subst q. by rewrite (field_at_Some _ _ _ _ He), Ef. }
  split; [| split].
  - apply (linked_frame s); [done | | | done | done]; intros q _; by apply Hf.
  - intros p Hp. apply Hdom. rewrite <- (field_at_is_Some Win.xid) in Hp |- *.
    by rewrite <- (Hf _ Win.xid Ex).
  - rewrite (xids_of_frame (heap s)); [done |]. intros q _. by apply Hf.
Qed.

Lemma at_entry_ok (f : Win.t → Win.t * list XCall) (s : State)
    (l : list ptr) (w : ptr) (e : Win.t) :
  registry_ok s l → keeps_links f → heap s !! w = Some e →
  ∃ s', at_entry f w s = Some s'
        ∧ heap s' = <[w := (f e).1]> (heap s) ∧ comp s' = comp s
        ∧ calls s' = calls s ++ (f e).2 ∧ registry_ok s' l.
Proof.
  intros Hok Hk He. eexists. split; [by apply at_entry_Some |].
  simpl. split_and!; try done.
  destruct (Hk e) as (Ex & En & Ep).
  by eapply (registry_update s _ l w e (f e).1).
Qed.

Lemma store_ok (g : Win.t → Win.t) (s : State) (l : list ptr) (w : ptr)
    (e : Win.t) :
  registry_ok s l → keeps_links (λ e, (g e, [])) → heap s !! w = Some e →
  ∃ s', store w g s = Some s'
        ∧ heap s' = <[w := g e]> (heap s) ∧ comp s' = comp s
        ∧ calls s' = calls s ∧ registry_ok s' l.
Proof.
  intros Hok Hk He. eexists. split; [by apply store_Some |].
  simpl. split_and!; try done.
  destruct (Hk e) as (Ex & En & Ep).
  by eapply (registry_update s _ l w e (g e)).
Qed.

Lemma unbind_keeps_links : keeps_links unbind_window_pixmap.
Proof. intros e. by destruct (unbind_fields e) as (_ & _ & _ & ? & ? & ? & _). Qed.

Lemma bind_keeps_links (t : TfpTable) (srv : BindReply) :
  keeps_links (bind_window_pixmap t srv).
Proof. intros e. by destruct (bind_fields t srv e) as (_ & _ & _ & ? & ? & ? & _). Qed.

Lemma damage_destroy_keeps_links : keeps_links damage_destroy.
Proof. intros e. unfold damage_destroy. by split_ifs. Qed.

Lemma damage_create_keeps_links (srv : Server) : keeps_links (damage_create srv).
Proof. intros e. unfold damage_create. by split_ifs. Qed.

Lemma composite_keeps_links (rh : Z) : keeps_links (composite_window rh).
Proof. intros e. unfold composite_window. by split_ifs. Qed.

(** ** [add_win] *)

Lemma registry_fresh (s : State) (l : list ptr) :
  registry_ok s l →
  heap s !! fresh (dom (heap s)) = None ∧ fresh (dom (heap s)) ∉ l.
Proof.
  intros Hok. pose proof (is_fresh (dom (heap s))) as Hf.
  rewrite elem_of_dom in Hf. split.
  - by apply eq_None_not_Some.
  - intros Hin. by apply (registry_mem_allocated s l) in Hin.
Qed.

Lemma add_win_tracked (s : State) (l : list ptr) (oom : bool) (xid : Z) :
  registry_ok s l → xid ∈ xids_of (heap s) l →
  add_win oom xid s = Some (None, s).
Proof.
  intros (Hl & _) Hin. unfold add_win.
  rewrite (find_win_linked s l) by done. simpl.
  destruct (lookup_xid (heap s) l xid) eqn:E; [done |].
  by apply lookup_xid_None_xids in E.
Qed.

Lemma add_win_refused (s : State) (l : list ptr) (oom : bool) (xid : Z) :
  registry_ok s l →
  xid = Comp.overlay (comp s) ∨ xid = Comp.root (comp s) ∨ oom = true →
  add_win oom xid s = Some (None, s).
Proof.
  intros (Hl & _) H. unfold add_win.
  rewrite (find_win_linked s l) by done. simpl.
  destruct (lookup_xid (heap s) l xid); [done |].
  destruct H as [-> | [-> | ->]].
  - by rewrite Z.eqb_refl.
  - by rewrite Z.eqb_refl, orb_true_r.
  - by destruct (_ || _).
Qed.

Lemma add_win_new (s : State) (l : list ptr) (xid : Z) :
  registry_ok s l → xid ∉ xids_of (heap s) l →
  xid ≠ Comp.overlay (comp s) → xid ≠ Comp.root (comp s) →
  let w := fresh (dom (heap s)) in
  ∃ s' e, add_win false xid s = Some (Some w, s')
    ∧ registry_ok s' (l ++ [w])
    ∧ heap s' !! w = Some e
    ∧ Win.payload e = Win.set_xid xid Win.zero
    ∧ (∀ q, q ≠ w →
         field_at Win.payload (heap s') q = field_at Win.payload (heap s) q)
    ∧ Comp.set_win_head None (Comp.set_win_tail None (comp s'))
      = Comp.set_win_head None (Comp.set_win_tail None (comp s))
    ∧ calls s' = calls s.
Proof.
  intros Hok Hnin Ho Hr w. pose proof Hok as (Hl & Hdom & Hx).
  destruct (registry_fresh s l Hok) as [Hfree Hwl]. fold w in Hfree, Hwl.
  set (s0 := with_heap (<[w := Win.set_xid xid Win.zero]> (heap s)) s).
  assert (add_win false xid s
          = s' ← place_at_top w s0; Some (Some w, s')) as ->.
  { unfold add_win. rewrite (find_win_linked s l) by done. simpl.
    apply lookup_xid_None_xids in Hnin. rewrite Hnin.
    apply Z.eqb_neq in Ho, Hr. rewrite Ho, Hr. simpl. fold w. fold s0.
    unfold place_at_top. change (comp s0) with (comp s).
    destruct (store w (Win.set_prev (Comp.win_tail (comp s))) s0) as [s1|];
      [| done].
    simpl. destruct (store w (Win.set_next None) s1) as [s2|]; [| done].
    simpl. destruct (Comp.win_tail (comp s2)) as [t|]; [| done].
    by destruct (store t (Win.set_next (Some w)) s2). }
  assert (∀ {A} (f : Win.t → A) q, q ≠ w →
          field_at f (heap s0) q = field_at f (heap s) q) as Hf.
  { intros A f q Hq. unfold s0. simpl. rewrite field_at_insert.
    by rewrite decide_False. }
  assert (linked s0 l) as Hl0.
  { apply (linked_frame s); [done | | | done | done];
      intros q Hq; apply Hf; congruence. }
  assert (heap s0 !! w = Some (Win.set_xid xid Win.zero)) as Hw0.
  { unfold s0. simpl. apply lookup_insert_eq. }
  destruct (place_at_top_linked s0 l w Hl0 Hwl) as (s' & -> & Hl' & Hs');
    [by eexists |].
  simpl. destruct Hs' as (Hpay & Hcomp & Hcalls).
  pose proof (Hpay w) as Hpw. rewrite (field_at_Some _ _ _ _ Hw0) in Hpw.
  apply field_at_allocated in Hpw as (e & He & Epay).
  exists s', e. split_and!; try done.
  - split; [done |]. split.
    + intros p Hp. rewrite <- (field_at_is_Some Win.payload), Hpay in Hp.
      rewrite field_at_is_Some in Hp. apply elem_of_app.
      destruct (decide (p = w)) as [-> |]; [right; by left | left].
      apply Hdom. unfold s0 in Hp. simpl in Hp.
      by rewrite lookup_insert_ne in Hp.
    + rewrite xids_of_app, !xids_of_omap. cbn.
      rewrite (field_at_Some _ _ _ _ He), (payload_xid _ _ Epay). simpl.
      rewrite <- xids_of_omap, (xids_of_frame (heap s)).
      * apply NoDup_app. split_and!; [done | | apply NoDup_singleton].
        intros x Hin ->%list_elem_of_singleton.
        by apply lookup_xid_None_xids in Hin.
      * intros q Hq. unfold field_at in *.
        pose proof (Hpay q) as Hq'. rewrite (Hf _ Win.payload) in Hq'
          by congruence.
        unfold field_at in Hq'.
        destruct (heap s' !! q) as [e1|], (heap s !! q) as [e2|];
          simpl in *; try done.
        injection Hq' as Hq'. by rewrite Hq'.
  - intros q Hq. by rewrite Hpay, Hf.
Qed.

(** ** [remove_win] *)

Lemma field_at_delete {A} (f : Win.t → A) (h : gmap ptr Win.t) (p q : ptr) :
  field_at f (delete p h) q = if decide (q = p) then None else field_at f h q.
Proof.
  unfold field_at. case_decide as E.
  - subst q. by rewrite lookup_delete_eq.
  - by rewrite lookup_delete_ne.
Qed.

Lemma remove_win_ok (s : State) (a b : list ptr) (w : ptr) :
  registry_ok s (a ++ w :: b) →
  ∃ s', remove_win (Some w) s = Some s'
    ∧ registry_ok s' (a ++ b)
    ∧ heap s' !! w = None
    ∧ (∀ q, q ≠ w →
         field_at Win.payload (heap s') q = field_at Win.payload (heap s) q)
    ∧ Comp.set_win_head None (Comp.set_win_tail None (comp s'))
      = Comp.set_win_head None (Comp.set_win_tail None (comp s)).
Proof.
  intros Hok.
  assert (w ∈ a ++ w :: b) as Hin by (apply elem_of_app; right; by left).
  destruct (proj1 (registry_mem_allocated s _ w Hok) Hin) as [e He].
  destruct (at_entry_ok damage_destroy s _ w e Hok damage_destroy_keeps_links He)
    as (s1 & E1 & Hh1 & Hc1 & _ & Hok1).
  assert (heap s1 !! w = Some (damage_destroy e).1) as He1.
  { rewrite Hh1. apply lookup_insert_eq. }
  destruct (at_entry_ok unbind_window_pixmap s1 _ w _ Hok1
              unbind_keeps_links He1) as (s2 & E2 & Hh2 & Hc2 & _ & Hok2).
  destruct (unlink_linked s2 a b w (proj1 Hok2)) as (s3 & E3 & Hl3 & Hs3).
  assert (is_Some (heap s3 !! w)) as [e3 He3].
  { apply (same_but_links_allocated s2 s3); [done |].
    by apply (registry_mem_allocated s2 (a ++ w :: b)). }
  exists (free w s3). unfold remove_win, unbind_at.
  rewrite E1. simpl. rewrite E2. simpl. rewrite E3. simpl.
  unfold load. rewrite He3. simpl. split; [done |].
  pose proof (proj1 Hok2) as (_ & _ & Hnd).
  apply NoDup_remove_middle in Hnd as [_ Hw].
  assert (∀ {A} (f : Win.t → A) q, q ∈ a ++ b →
          field_at f (heap (free w s3)) q = field_at f (heap s3) q) as Hf.
  { intros A f q Hq. unfold free. simpl. rewrite field_at_delete.
    rewrite decide_False; [done | congruence]. }
  split_and!.
  - split; [| split].
    + apply (linked_frame s3); [done | | | done | done];
        intros q Hq; by apply Hf.
    + intros p Hp. unfold free in Hp. simpl in Hp.
      destruct (decide (p = w)) as [-> | Hne].
      { rewrite lookup_delete_eq in Hp. by destruct Hp. }
      rewrite lookup_delete_ne in Hp by done.
      apply (same_but_links_allocated s2 s3) in Hp; [| done].
      apply (registry_mem_allocated s2 _ p Hok2) in Hp.
      apply elem_of_app in Hp as [Hp | [-> | Hp]%elem_of_cons];
        [| done |]; apply elem_of_app; tauto.
    + rewrite (xids_of_frame (heap s2)).
      * by apply (registry_without s2 a b w).
      * intros q Hq. rewrite Hf by done. by apply same_but_links_xid.
  - unfold free. simpl. apply lookup_delete_eq.
  - intros q Hq. unfold free. simpl. rewrite field_at_delete.
    rewrite decide_False by done. destruct Hs3 as (-> & _).
    rewrite Hh2, field_at_insert, decide_False by done.
    by rewrite Hh1, field_at_insert, decide_False.
  - unfold free. simpl. destruct Hs3 as (_ & -> & _). by rewrite Hc2, Hc1.
Qed.

Lemma remove_win_total (s : State) (l : list ptr) (r : option ptr) :
  registry_ok s l → (∀ w, r = Some w → w ∈ l) →
  ∃ s' l', remove_win r s = Some s' ∧ registry_ok s' l'.
Proof.
  intros Hok Hr. destruct r as [w|]; [| by exists s, l].
  destruct (registry_split s l w Hok (Hr w eq_refl)) as (a & b & -> & _).
  destruct (remove_win_ok s a b w Hok) as (s' & E & Hok' & _).
  by exists s', (a ++ b).
Qed.

(** ** [handle_circulate] *)

Lemma store_id (g : Win.t → Win.t) (w : ptr) (s : State) (e : Win.t) :
  heap s !! w = Some e → g e = e → store w g s = Some s.
Proof.
  intros He Hg. rewrite (store_Some _ _ _ _ He), Hg, insert_id by done.
  by destruct s.
Qed.

Lemma set_next_id (e : Win.t) (v : option ptr) :
  Win.next e = v → Win.set_next v e = e.
Proof. intros <-. by destruct e. Qed.

Lemma set_prev_id (e : Win.t) (v : option ptr) :
  Win.prev e = v → Win.set_prev v e = e.
Proof. intros <-. by destruct e. Qed.

Lemma registry_redraw (s : State) (l : list ptr) (v : bool) :
  registry_ok s l → registry_ok (with_comp (Comp.set_needs_redraw v) s) l.
Proof. intros H. exact H. Qed.

Lemma circulate_ok (s : State) (a b : list ptr) (w : ptr) (window place : Z) :
  registry_ok s (a ++ w :: b) →
  field_at Win.xid (heap s) w = Some window →
  ∃ s', handle_circulate window place s = Some s'
    ∧ registry_ok s'
        (if place =? PlaceOnTop then a ++ b ++ [w] else w :: a ++ b)
    ∧ (∀ q, field_at Win.payload (heap s') q
            = field_at Win.payload (heap s) q).
Proof.
  intros Hok Hx. unfold handle_circulate.
  rewrite (find_win_linked s (a ++ w :: b)) by apply Hok. simpl.
  rewrite (lookup_xid_unique _ _ _ w); [| apply Hok | | done].
  2: { apply elem_of_app. right. by left. }
  destruct (detached s a b w Hok)
    as (s1 & s2 & s3 & E1 & E2 & E3 & Hl3 & Hs3 & Hw & Ha3 & Hn3 & Hp3).
  rewrite E1. simpl. rewrite E2. simpl. rewrite E3. simpl.
  destruct (place =? PlaceOnTop).
  - destruct (place_at_top_linked s3 (a ++ b) w Hl3 Hw Ha3)
      as (s' & E' & Hl' & Hs').
    unfold place_at_top in E'.
    destruct (store w (Win.set_prev (Comp.win_tail (comp s3))) s3)
      as [s4|] eqn:E4; [| done].
    simpl in E' |- *.
    assert (store w (Win.set_next None) s4 = Some s4) as E5.
    { destruct (store_prev_views w (Comp.win_tail (comp s3)) s3 Ha3)
        as (s4' & E4' & Hn4 & _).
      rewrite E4 in E4'. injection E4' as <-.
      specialize (Hn4 w). rewrite Hn3 in Hn4.
      apply field_at_allocated in Hn4 as (e4 & He4 & En4).
      apply (store_id _ _ _ e4); [done | by apply set_next_id]. }
    rewrite E5 in E'. simpl in E'.
    destruct (match Comp.win_tail (comp s4) with
              | Some t => store t (Win.set_next (Some w)) s4
              | None => Some (with_comp (Comp.set_win_head (Some w)) s4)
              end) as [s5|]; [| done].
    simpl in E' |- *. injection E' as <-.
    eexists. split; [done |].
    pose proof (same_but_links_trans _ _ _ Hs3 Hs') as Hlinks.
    split.
    + apply registry_redraw. rewrite app_assoc.
      eapply (registry_relinked s); [done | apply Hl' | | done].
      rewrite (Permutation_app_comm (a ++ b) [w]). simpl.
      apply Permutation_middle.
    + intros q. apply Hlinks.
  - destruct (place_at_bottom_linked s3 (a ++ b) w Hl3 Hw Ha3)
      as (s' & E' & Hl' & Hs').
    unfold place_at_bottom in E'.
    destruct (store w (Win.set_next (Comp.win_head (comp s3))) s3)
      as [s4|] eqn:E4; [| done].
    simpl in E' |- *.
    assert (store w (Win.set_prev None) s4 = Some s4) as E5.
    { destruct (store_next_views w (Comp.win_head (comp s3)) s3 Ha3)
        as (s4' & E4' & _ & Hp4 & _).
      rewrite E4 in E4'. injection E4' as <-.
      specialize (Hp4 w). rewrite Hp3 in Hp4.
      apply field_at_allocated in Hp4 as (e4 & He4 & Ep4).
      apply (store_id _ _ _ e4); [done | by apply set_prev_id]. }
    rewrite E5 in E'. simpl in E'.
    destruct (match Comp.win_head (comp s4) with
              | Some h => store h (Win.set_prev (Some w)) s4
              | None => Some (with_comp (Comp.set_win_tail (Some w)) s4)
              end) as [s5|]; [| done].
    simpl in E' |- *. injection E' as <-.
    eexists. split; [done |].
    pose proof (same_but_links_trans _ _ _ Hs3 Hs') as Hlinks.
    split.
    + apply registry_redraw.
      eapply (registry_relinked s); [done | apply Hl' | | done].
      apply Permutation_middle.
    + intros q. apply Hlinks.
Qed.

(** ** What the invariant gives *)

Lemma registry_order (s : State) (l : list ptr) :
  registry_ok s l →
  stacking_order s = Some l ∧ stacking_order_rev s = Some (reverse l).
Proof.
  intros ((Hf & Hb & Hnd) & _).
  pose proof (linked_length s l (conj Hf (conj Hb Hnd))) as Hlen.
  split; apply chain_from_seg; try done. by rewrite length_reverse.
Qed.

Lemma registry_no_dangling (s : State) (l : list ptr) :
  registry_ok s l → no_dangling (heap s).
Proof.
  intros Hok p e He.
  assert (p ∈ l) as Hp by (apply (registry_mem_allocated s l p Hok); eauto).
  destruct (registry_split s l p Hok Hp) as (a & b & -> & _).
  pose proof (proj1 Hok) as Hl.
  destruct (linked_node s a b p Hl) as (e' & He' & En & Ep).
  rewrite He in He'. injection He' as <-. split.
  - intros n Hn. rewrite En in Hn. apply head_Some in Hn as [b' ->].
    replace (a ++ p :: n :: b') with ((a ++ [p]) ++ n :: b') in Hl
      by by rewrite <- app_assoc.
    destruct (linked_node s _ _ n Hl) as (en & Hen & _ & Epn).
    exists en. by rewrite Epn, last_snoc.
  - intros q Hq. rewrite Ep in Hq. apply last_Some in Hq as [a' ->].
    rewrite <- app_assoc in Hl. simpl in Hl.
    destruct (linked_node s _ _ q Hl) as (eq & Heq & Enq & _).
    by exists eq.
Qed.

(** The checker is sound. *)
Lemma registry_okb_sound (s : State) (l : list ptr) :
  registry_okb s l = true → registry_ok s l.
Proof.
  unfold registry_okb. rewrite !andb_true_iff, !bool_decide_eq_true.
  intros ((((Hf & Hb) & Hnd) & Hdom) & Hx).
  split; [| split; [| done]].
  - split; [by eapply seg_chain_from | split; [by eapply seg_chain_from | done]].
  - intros p Hp. apply elem_of_dom in Hp. apply Hdom in Hp.
    by apply elem_of_list_to_set in Hp.
Qed.

(** ** Every registry operation keeps the invariant *)

Lemma add_win_total (s : State) (l : list ptr) (oom : bool) (xid : Z) :
  registry_ok s l →
  ∃ r s' l', add_win oom xid s = Some (r, s') ∧ registry_ok s' l'.
Proof.
  intros Hok.
  destruct (decide (xid ∈ xids_of (heap s) l)) as [Hin | Hnin].
  { exists None, s, l. split; [by eapply add_win_tracked | done]. }
  destruct (decide (xid = Comp.overlay (comp s))) as [Ho | Ho].
  { exists None, s, l. split; [eapply add_win_refused; eauto | done]. }
  destruct (decide (xid = Comp.root (comp s))) as [Hr | Hr].
  { exists None, s, l. split; [eapply add_win_refused; eauto | done]. }
  destruct oom.
  { exists None, s, l. split; [eapply add_win_refused; eauto | done]. }
  destruct (add_win_new s l xid Hok Hnin Ho Hr) as (s' & e & E & Hok' & _).
  by exists (Some (fresh (dom (heap s)))), s', (l ++ [fresh (dom (heap s))]).
Qed.

Lemma restack_total (s : State) (l : list ptr) (r : option ptr) (above : Z) :
  registry_ok s l → (∀ w, r = Some w → w ∈ l) →
  ∃ s' l', restack_win r above s = Some s' ∧ registry_ok s' l'
           ∧ same_but_links s s'.
Proof.
  intros Hok Hr. destruct r as [w|]; [| by exists s, l].
  destruct (registry_split s l w Hok (Hr w eq_refl)) as (a & b & -> & _).
  destruct (decide (above = 0)) as [H0 | H0].
  { destruct (restack_bottom_ok s a b w above Hok H0) as (s' & E & Hok' & Hs).
    by exists s', (w :: a ++ b). }
  destruct (lookup_xid (heap s) (a ++ b) above) as [below|] eqn:E.
  - apply lookup_xid_Some in E as [Hin Hx].
    apply list_elem_of_split in Hin as (c & d & Hsplit).
    destruct (restack_above_ok s a b c d w below above Hok H0 Hsplit Hx)
      as (s' & E & Hok' & Hs).
    by exists s', (c ++ below :: w :: d).
  - apply lookup_xid_None_xids in E.
    destruct (restack_top_ok s a b w above Hok H0 E) as (s' & E' & Hok' & Hs).
    by exists s', (a ++ b ++ [w]).
Qed.

Lemma find_win_ok (s : State) (l : list ptr) (x : Z) :
  registry_ok s l →
  ∃ r, find_win s x = Some r
       ∧ (∀ w, r = Some w → w ∈ l ∧ field_at Win.xid (heap s) w = Some x)
       ∧ (r = None → x ∉ xids_of (heap s) l).
Proof.
  intros Hok. exists (lookup_xid (heap s) l x).
  split; [apply find_win_linked, Hok |]. split.
  - intros w Hw. by apply lookup_xid_Some.
  - intros Hn. by apply (lookup_xid_None_xids (heap s) l x).
Qed.

Lemma circulate_total (s : State) (l : list ptr) (window place : Z) :
  registry_ok s l →
  ∃ s' l', handle_circulate window place s = Some s' ∧ registry_ok s' l'.
Proof.
  intros Hok. destruct (find_win_ok s l window Hok) as (r & E & Hr & _).
  destruct r as [w|].
  - destruct (Hr w eq_refl) as [Hin Hx].
    destruct (registry_split s l w Hok Hin) as (a & b & -> & _).
    destruct (circulate_ok s a b w window place Hok Hx) as (s' & E' & Hok' & _).
    eauto.
  - exists s, l. unfold handle_circulate. rewrite E. done.
Qed.

Lemma reg_step_ok (op : RegOp) (s : State) (l : list ptr) :
  registry_ok s l → ∃ s' l', reg_step op s = Some s' ∧ registry_ok s' l'.
Proof.
  intros Hok. destruct op as [oom xid | xid | xid above | xid place]; simpl.
  - destruct (add_win_total s l oom xid Hok) as (r & s' & l' & -> & Hok').
    by exists s', l'.
  - destruct (find_win_ok s l xid Hok) as (r & -> & Hr & _). simpl.
    apply (remove_win_total s l); [done |]. intros w Hw. by apply Hr.
  - destruct (find_win_ok s l xid Hok) as (r & -> & Hr & _). simpl.
    destruct (restack_total s l r above Hok) as (s' & l' & E & Hok' & _).
    { intros w Hw. by apply Hr. }
    by exists s', l'.
  - by apply (circulate_total s l).
Qed.

Lemma reg_run_ok (ops : list RegOp) (s : State) (l : list ptr) :
  registry_ok s l → ∃ s' l', reg_run ops s = Some s' ∧ registry_ok s' l'.
Proof.
  revert s l. induction ops as [| op ops IH]; intros s l Hok; simpl.
  - by exists s, l.
  - destruct (reg_step_ok op s l Hok) as (s1 & l1 & -> & Hok1). simpl.
    by apply (IH s1 l1).
Qed.





(** C10.  Inserting an identity that is not tracked (and is neither the
    overlay nor the root, with memory available) allocates an entry that
    is linked at the tail, above every window tracked so far; apart from
    its identity and its [prev] link the entry is all zero: unmapped,
    unbound, no damage handle, no pixmap or texture. *)
Theorem add_win_on_top (s : State) (l : list ptr) (xid : Z) :
  registry_ok s l → xid ∉ xids_of (heap s) l →
  xid ≠ Comp.overlay (comp s) → xid ≠ Comp.root (comp s) →
  ∃ w s', add_win false xid s = Some (Some w, s')
    ∧ registry_ok s' (l ++ [w])
    ∧ stacking_order s' = Some (l ++ [w])
    ∧ Comp.win_tail (comp s') = Some w
    ∧ heap s' !! w = Some (Win.set_prev (last l) (Win.set_xid xid Win.zero))
    ∧ field_at Win.mapped (heap s') w = Some false
    ∧ field_at Win.pixmap_valid (heap s') w = Some false
    ∧ field_at Win.damage (heap s') w = Some 0
    ∧ (∀ q, q ≠ w →
         field_at Win.payload (heap s') q = field_at Win.payload (heap s) q).
Proof.
  intros Hok Hnin Ho Hr.
  destruct (add_win_new s l xid Hok Hnin Ho Hr)
    as (s' & e & E & Hok' & He & Hpay & Hothers & _).
  exists (fresh (dom (heap s))), s'.
  set (w := fresh (dom (heap s))) in *.
  pose proof (proj1 Hok') as Hl'.
  destruct (linked_ends s' _ Hl') as [_ Et]. rewrite last_snoc in Et.
  destruct (linked_node s' l [] w Hl') as (e' & He' & En & Ep).
  rewrite He in He'. injection He' as <-.
  assert (e = Win.set_prev (last l) (Win.set_xid xid Win.zero)) as ->.
  { destruct e. unfold Win.payload in Hpay. simpl in *.
    injection Hpay as -> -> -> -> -> -> -> -> -> -> -> -> -> ->.
    by rewrite En, Ep. }
  split_and!; try done.
  - by apply registry_order.
  - by rewrite (field_at_Some _ _ _ _ He).
  - by rewrite (field_at_Some _ _ _ _ He).
  - by rewrite (field_at_Some _ _ _ _ He).
Qed.

Lemma add_win_on_top_witness :
  ∃ w s', add_win false 102 two_windows = Some (Some w, s')
    ∧ registry_ok s' ([1%positive; 2%positive] ++ [w])
    ∧ stacking_order s' = Some ([1%positive; 2%positive] ++ [w])
    ∧ Comp.win_tail (comp s') = Some w
    ∧ heap s' !! w
      = Some (Win.set_prev (last [1%positive; 2%positive])
                (Win.set_xid 102 Win.zero))
    ∧ field_at Win.mapped (heap s') w = Some false
    ∧ field_at Win.pixmap_valid (heap s') w = Some false
    ∧ field_at Win.damage (heap s') w = Some 0
    ∧ (∀ q, q ≠ w →
         field_at Win.payload (heap s') q
         = field_at Win.payload (heap two_windows) q).
Proof.
  apply (add_win_on_top two_windows [1%positive; 2%positive] 102).
  - apply registry_okb_sound. vm_compute. reflexivity.
  - vm_compute. intros H. inversion H as [| ? ? ? H1]; subst.
    inversion H1 as [| ? ? ? H2]; subst. inversion H2.
  - vm_compute. discriminate.
  - vm_compute. discriminate.
Defined.

(** ** Pass 1 of [render_frame] *)

Lemma composite_draws (rh : Z) (e : Win.t) :
  filter (λ c, is_draw c = true) (composite_window rh e).2
  = if drawable e then [draw_of rh e] else [].
Proof.
  unfold composite_window, drawable, draw_of.
  destruct (Win.mapped e), (Win.pixmap_valid e); simpl; try done.
  destruct (Z.leb_spec (Win.width e) 0) as [Hw | Hw]; simpl.
  { apply Z.ltb_ge in Hw. by rewrite Hw. }
  apply Z.ltb_lt in Hw. rewrite Hw.
  destruct (Z.leb_spec (Win.height e) 0) as [Hh | Hh]; simpl.
  { apply Z.ltb_ge in Hh. by rewrite Hh. }
  apply Z.ltb_lt in Hh. rewrite Hh.
  by destruct (Win.damaged e).
Qed.

Lemma entries_of_frame (h h' : gmap ptr Win.t) (l : list ptr) :
  (∀ q, q ∈ l → h' !! q = h !! q) → entries_of h' l = entries_of h l.
Proof.
  unfold entries_of. induction l as [| p l IH]; intros Hq; [done |]. cbn.
  rewrite Hq by by left.
  assert (omap (λ p, h' !! p) l = omap (λ p, h !! p) l) as E.
  { apply IH. intros q Hin. apply Hq. by right. }
  destruct (h !! p); [f_equal |]; exact E.
Qed.

(** The loop visits the list in order; each entry is replaced by what
    [composite_window] makes of it and its calls are logged. *)
Lemma composite_from_spec (l : list ptr) :
  ∀ (fuel : nat) (s : State) (cur : option ptr),
  seg Win.next (heap s) cur l None → NoDup l → (length l ≤ fuel)%nat →
  let rh := Comp.root_height (comp s) in
  ∃ s', composite_from fuel cur s = Some s'
    ∧ comp s' = comp s
    ∧ calls s'
      = calls s ++ concat ((λ e, (composite_window rh e).2)
                             <$> entries_of (heap s) l)
    ∧ (∀ q, heap s' !! q
            = if decide (q ∈ l)
              then (λ e, (composite_window rh e).1) <$> heap s !! q
              else heap s !! q).
Proof.
  induction l as [| p l IH]; intros fuel s cur Hseg Hnd Hlen rh.
  - simpl in Hseg. subst cur. exists s.
    assert (composite_from fuel None s = Some s) as E by by destruct fuel.
    split_and!; [done | done | cbn; by rewrite app_nil_r |].
    intros q. rewrite decide_False; [done | apply not_elem_of_nil].
  - simpl in Hseg. destruct Hseg as (-> & e & He & Hseg).
    apply NoDup_cons in Hnd as [Hp Hnd].
    destruct fuel as [| fuel]; [simpl in Hlen; lia |]. simpl.
    rewrite (at_entry_Some _ _ _ _ He). simpl.
    set (e1 := (composite_window (Comp.root_height (comp s)) e).1).
    set (s1 := mkState _ _ _).
    unfold load. replace (heap s1 !! p) with (Some e1)
      by (symmetry; apply lookup_insert_eq).
    simpl.
    assert (Win.next e1 = Win.next e) as ->
      by apply (composite_keeps_links (Comp.root_height (comp s)) e).
    assert (∀ q, q ∈ l → heap s1 !! q = heap s !! q) as Hsame.
    { intros q Hq. simpl. apply lookup_insert_ne. congruence. }
    destruct (IH fuel s1 (Win.next e)) as (s' & E & Hc & Hcalls & Hheap).
    { eapply seg_frame; [| done]. intros q Hq. unfold field_at.
      by rewrite Hsame. }
    { done. }
    { simpl in Hlen. lia. }
    exists s'. split; [done |]. split; [done |]. split.
    + rewrite Hcalls. simpl. rewrite (entries_of_frame (heap s)) by done.
      unfold entries_of. cbn. rewrite He. cbn.
      by rewrite <- app_assoc.
    + intros q. rewrite Hheap. simpl.
      destruct (decide (q = p)) as [-> | Hne].
      * rewrite decide_False by done. rewrite decide_True by by left.
        rewrite lookup_insert_eq, He. done.
      * rewrite lookup_insert_ne by done.
        repeat case_decide; try done.
        -- destruct H0. by right.
        -- apply elem_of_cons in H0 as [? | ?]; done.
Qed.

Lemma filter_concat_draws (rh : Z) (es : list Win.t) :
  filter (λ c, is_draw c = true)
    (concat ((λ e, (composite_window rh e).2) <$> es))
  = draw_of rh <$> filter (λ e, drawable e = true) es.
Proof.
  induction es as [| e es IH]; [done |].
  rewrite fmap_cons. cbn [concat].
  rewrite filter_app, composite_draws, IH.
  rewrite (filter_cons _ e). destruct (drawable e) eqn:E.
  - by rewrite decide_True.
  - by rewrite decide_False.
Qed.

Lemma render_pass1_ok (s : State) (l : list ptr) :
  registry_ok s l →
  ∃ s', render_pass1 s = Some s'
    ∧ registry_ok s' l
    ∧ comp s' = comp s
    ∧ calls s'
      = calls s ++ concat ((λ e, (composite_window (Comp.root_height (comp s)) e).2)
                             <$> entries_of (heap s) l)
    ∧ (∀ q, heap s' !! q
            = (λ e, (composite_window (Comp.root_height (comp s)) e).1)
              <$> heap s !! q).
Proof.
  intros Hok. pose proof Hok as ((Hf & Hb & Hnd) & Hdom & Hx).
  destruct (composite_from_spec l (size (heap s)) s _ Hf Hnd)
    as (s' & E & Hc & Hcalls & Hheap).
  { apply linked_length. apply Hok. }
  assert (∀ q, heap s' !! q
            = (λ e, (composite_window (Comp.root_height (comp s)) e).1)
              <$> heap s !! q) as Hheap'.
  { intros q. rewrite Hheap. case_decide as Hq; [done |].
    destruct (heap s !! q) eqn:Eq; [| done]. destruct Hq. apply Hdom. eauto. }
  exists s'. split_and!; try done.
  assert (∀ {A} (f : Win.t → A),
            (∀ e, f (composite_window (Comp.root_height (comp s)) e).1 = f e) →
            ∀ q, field_at f (heap s') q = field_at f (heap s) q) as Hfield.
  { intros A f Hfe q. unfold field_at. rewrite Hheap'.
    destruct (heap s !! q); simpl; [by rewrite Hfe | done]. }
  pose proof (composite_keeps_links (Comp.root_height (comp s))) as Hk.
  split; [| split].
  - apply (linked_frame s); [done | | | by rewrite Hc ..].
    + intros q _. apply Hfield. intros e. apply Hk.
    + intros q _. apply Hfield. intros e. apply Hk.
  - intros p Hp. apply Hdom. rewrite Hheap' in Hp.
    by apply fmap_is_Some in Hp.
  - rewrite (xids_of_frame (heap s)); [done |].
    intros q _. apply Hfield. intros e. apply Hk.
Qed.

(** ** The event handlers keep the registry well formed *)

Lemma find_win_tracked (s : State) (l : list ptr) (w : ptr) (e : Win.t) :
  registry_ok s l → heap s !! w = Some e →
  find_win s (Win.xid e) = Some (Some w).
Proof.
  intros Hok He. rewrite (find_win_linked s l) by apply Hok.
  f_equal. apply lookup_xid_unique; [apply Hok | | by apply field_at_Some].
  apply (registry_mem_allocated s l w Hok). eauto.
Qed.

(** [handle_unmap] on a tracked window: the entry becomes what
    [unmap_entry] makes of it, the order and all other entries stay. *)
Lemma handle_unmap_tracked (s : State) (l : list ptr) (w : ptr) (e : Win.t) :
  registry_ok s l → heap s !! w = Some e →
  ∃ s', handle_unmap (Win.xid e) s = Some s'
    ∧ registry_ok s' l
    ∧ heap s' = <[w := (unmap_entry e).1]> (heap s)
    ∧ calls s' = calls s ++ (unmap_entry e).2
    ∧ comp s' = Comp.set_needs_redraw true (comp s).
Proof.
  intros Hok He. unfold handle_unmap.
  rewrite (find_win_tracked s l w e Hok He). simpl.
  destruct (store_ok (Win.set_mapped false) s l w e Hok) as
    (s1 & -> & Hh1 & Hc1 & Hk1 & Hok1); [done | done |]. simpl.
  assert (heap s1 !! w = Some (Win.set_mapped false e)) as He1.
  { rewrite Hh1. apply lookup_insert_eq. }
  destruct (at_entry_ok unbind_window_pixmap s1 l w _ Hok1
              unbind_keeps_links He1) as (s2 & E2 & Hh2 & Hc2 & Hk2 & Hok2).
  unfold unbind_at. rewrite E2. simpl.
  assert (heap s2 !! w = Some (unbind_window_pixmap (Win.set_mapped false e)).1)
    as He2.
  { rewrite Hh2. apply lookup_insert_eq. }
  destruct (at_entry_ok damage_destroy s2 l w _ Hok2
              damage_destroy_keeps_links He2)
    as (s3 & -> & Hh3 & Hc3 & Hk3 & Hok3).
  simpl. eexists. split; [done |]. unfold with_comp. simpl.
  unfold unmap_entry.
  destruct (unbind_window_pixmap (Win.set_mapped false e)) as [e2 c2].
  simpl in *. destruct (damage_destroy e2) as [e3 c3]. simpl in *.
  split_and!.
  - by apply (registry_redraw s3 l true).
  - by rewrite Hh3, Hh2, Hh1, !insert_insert_eq.
  - by rewrite Hk3, Hk2, Hk1, app_assoc.
  - by rewrite Hc3, Hc2, Hc1.
Qed.

(** [handle_map] on a tracked window whose attributes can be read. *)
Lemma handle_map_tracked (s : State) (l : list ptr) (w : ptr) (e : Win.t)
    (srv : Server) (attr : XWindowAttributes) :
  registry_ok s l → heap s !! w = Some e → srv_attr srv = Some attr →
  ∃ s', handle_map srv (Win.xid e) s = Some s'
    ∧ registry_ok s' l
    ∧ heap s'
      = <[w := (map_entry (Comp.tfp (comp s)) srv attr e).1]> (heap s)
    ∧ calls s' = calls s ++ (map_entry (Comp.tfp (comp s)) srv attr e).2
    ∧ comp s' = Comp.set_needs_redraw true (comp s).
Proof.
  intros Hok He Ha. unfold handle_map.
  rewrite (find_win_tracked s l w e Hok He). simpl.
  unfold handle_map_entry. rewrite Ha.
  destruct (store_ok (map_fields attr) s l w e Hok) as
    (s1 & -> & Hh1 & Hc1 & Hk1 & Hok1); [done | done |]. simpl.
  assert (heap s1 !! w = Some (map_fields attr e)) as He1.
  { rewrite Hh1. apply lookup_insert_eq. }
  destruct (at_entry_ok (damage_create srv) s1 l w _ Hok1
              (damage_create_keeps_links srv) He1)
    as (s2 & -> & Hh2 & Hc2 & Hk2 & Hok2).
  simpl.
  assert (heap s2 !! w = Some (damage_create srv (map_fields attr e)).1)
    as He2.
  { rewrite Hh2. apply lookup_insert_eq. }
  destruct (at_entry_ok (bind_window_pixmap (Comp.tfp (comp s2)) (srv_bind srv))
              s2 l w _ Hok2 (bind_keeps_links _ _) He2)
    as (s3 & E3 & Hh3 & Hc3 & Hk3 & Hok3).
  unfold bind_at. rewrite E3. simpl.
  eexists. split; [done |]. unfold with_comp. simpl.
  unfold map_entry. rewrite Hc2, Hc1 in Hh3, Hk3.
  destruct (damage_create srv (map_fields attr e)) as [e2 c2].
  simpl in *. destruct (bind_window_pixmap (Comp.tfp (comp s)) (srv_bind srv) e2)
    as [e3 c3]. simpl in *.
  split_and!.
  - by apply (registry_redraw s3 l true).
  - by rewrite Hh3, Hh2, Hh1, !insert_insert_eq.
  - by rewrite Hk3, Hk2, Hk1, app_assoc.
  - by rewrite Hc3, Hc2, Hc1.
Qed.

Lemma handle_map_entry_ok (s : State) (l : list ptr) (w : ptr) (srv : Server) :
  registry_ok s l → w ∈ l →
  ∃ s' l', handle_map_entry srv w s = Some s' ∧ registry_ok s' l'.
Proof.
  intros Hok Hw. unfold handle_map_entry.
  destruct (srv_attr srv) as [attr|].
  2: { apply (remove_win_total s l); [done |]. by intros ? [= <-]. }
  destruct (proj1 (registry_mem_allocated s l w Hok) Hw) as [e He].
  destruct (store_ok (map_fields attr) s l w e Hok) as
    (s1 & -> & Hh1 & Hc1 & Hk1 & Hok1); [done | done |]. simpl.
  assert (heap s1 !! w = Some (map_fields attr e)) as He1.
  { rewrite Hh1. apply lookup_insert_eq. }
  destruct (at_entry_ok (damage_create srv) s1 l w _ Hok1
              (damage_create_keeps_links srv) He1)
    as (s2 & -> & Hh2 & Hc2 & Hk2 & Hok2).
  simpl.
  assert (heap s2 !! w = Some (damage_create srv (map_fields attr e)).1)
    as He2.
  { rewrite Hh2. apply lookup_insert_eq. }
  destruct (at_entry_ok (bind_window_pixmap (Comp.tfp (comp s2)) (srv_bind srv))
              s2 l w _ Hok2 (bind_keeps_links _ _) He2)
    as (s3 & E3 & Hh3 & Hc3 & Hk3 & Hok3).
  unfold bind_at. rewrite E3. simpl.
  eexists _, l. split; [done |]. by apply registry_redraw.
Qed.

Lemma handle_map_ok (s : State) (l : list ptr) (srv : Server) (window : Z) :
  registry_ok s l →
  ∃ s' l', handle_map srv window s = Some s' ∧ registry_ok s' l'.
Proof.
  intros Hok. unfold handle_map.
  destruct (find_win_ok s l window Hok) as (r & -> & Hr & Hn). simpl.
  destruct r as [w|]; simpl.
  { apply (handle_map_entry_ok s l); [done |]. by apply Hr. }
  destruct (add_win_total s l (srv_oom srv) window Hok)
    as (r & s1 & l1 & E & Hok1).
  rewrite E. simpl. destruct r as [w|]; [| by exists s1, l1].
  destruct (decide (window ∈ xids_of (heap s) l)) as [Hin | Hnin].
  { by rewrite (add_win_tracked s l _ _ Hok Hin) in E. }
  destruct (decide (window = Comp.overlay (comp s))) as [Ho | Ho].
  { rewrite (add_win_refused s l _ _ Hok) in E by eauto. done. }
  destruct (decide (window = Comp.root (comp s))) as [Hroot | Hroot].
  { rewrite (add_win_refused s l _ _ Hok) in E by eauto. done. }
  destruct (srv_oom srv).
  { rewrite (add_win_refused s l _ _ Hok) in E by eauto. done. }
  destruct (add_win_new s l window Hok Hnin Ho Hroot)
    as (s' & e & E' & Hok' & He & _).
  rewrite E' in E. injection E as <- <-.
  apply (handle_map_entry_ok s' (l ++ [fresh (dom (heap s))])); [done |].
  apply elem_of_app. right. by left.
Qed.

Lemma handle_unmap_ok (s : State) (l : list ptr) (window : Z) :
  registry_ok s l →
  ∃ s' l', handle_unmap window s = Some s' ∧ registry_ok s' l'.
Proof.
  intros Hok. destruct (find_win_ok s l window Hok) as (r & E & Hr & Hn).
  destruct r as [w|].
  - destruct (Hr w eq_refl) as [Hin Hx].
    apply field_at_allocated in Hx as (e & He & <-).
    destruct (handle_unmap_tracked s l w e Hok He) as (s' & E' & Hok' & _).
    by exists s', l.
  - exists s, l. unfold handle_unmap. by rewrite E.
Qed.

Lemma handle_destroy_ok (s : State) (l : list ptr) (window : Z) :
  registry_ok s l →
  ∃ s' l', handle_destroy window s = Some s' ∧ registry_ok s' l'.
Proof.
  intros Hok. unfold handle_destroy.
  destruct (find_win_ok s l window Hok) as (r & -> & Hr & Hn).
  cbn -[remove_win].
  destruct r as [w|]; [| by exists s, l].
  destruct (remove_win_total s l (Some w) Hok) as (s' & l' & -> & Hok').
  { intros ? [= <-]. by apply Hr. }
  simpl. eexists _, l'. split; [done |]. by apply registry_redraw.
Qed.

Lemma handle_configure_ok (s : State) (l : list ptr) (srv : Server)
    (ev : XConfigureEvent) :
  registry_ok s l →
  ∃ s' l', handle_configure srv ev s = Some s' ∧ registry_ok s' l'.
Proof.
  intros Hok. unfold handle_configure.
  destruct (cfg_window ev =? Comp.root (comp s)).
  { eexists _, l. split; [done |]. destruct (_ || _); exact Hok. }
  destruct (find_win_ok s l (cfg_window ev) Hok) as (r & -> & Hr & Hn).
  cbn -[restack_win load].
  destruct r as [w|]; [| by exists s, l].
  destruct (Hr w eq_refl) as [Hin Hx].
  apply field_at_allocated in Hx as (e & He & Hx).
  change (load w s) with (heap s !! w). rewrite He.
  cbn -[restack_win load].
  destruct (store_ok (configure_fields ev) s l w e Hok) as
    (s1 & -> & Hh1 & Hc1 & Hk1 & Hok1); [done | done |].
  cbn -[restack_win load].
  destruct (restack_total s1 l (Some w) (cfg_above ev) Hok1)
    as (s2 & l2 & -> & Hok2 & Hs2).
  { by intros ? [= <-]. }
  cbn -[load].
  assert (is_Some (heap s2 !! w)) as [e2 He2].
  { apply (same_but_links_allocated s1 s2); [done |].
    rewrite Hh1, lookup_insert_eq. eauto. }
  unfold load. rewrite He2. simpl.
  destruct (resized ev e && Win.mapped e2); simpl.
  - destruct (at_entry_ok (bind_window_pixmap (Comp.tfp (comp s2)) (srv_bind srv))
              s2 l2 w _ Hok2 (bind_keeps_links _ _) He2)
      as (s3 & E3 & Hh3 & Hc3 & Hk3 & Hok3).
    unfold bind_at. rewrite E3. simpl.
    eexists _, l2. split; [done |]. by apply registry_redraw.
  - eexists _, l2. split; [done |]. by apply registry_redraw.
Qed.

Lemma handle_reparent_ok (s : State) (l : list ptr) (srv : Server)
    (window parent : Z) :
  registry_ok s l →
  ∃ s' l', handle_reparent srv window parent s = Some s' ∧ registry_ok s' l'.
Proof.
  intros Hok. unfold handle_reparent.
  destruct (parent =? Comp.root (comp s)).
  - destruct (srv_reparent_attr srv) as [attr|]; [| by exists s, l].
    destruct (attr_map_state attr =? IsViewable); [| by exists s, l].
    by apply (handle_map_ok s l).
  - apply (handle_destroy_ok s l window Hok).
Qed.

Lemma handle_damage_ok (s : State) (l : list ptr) (drawable : Z) :
  registry_ok s l →
  ∃ s' l', handle_damage drawable s = Some s' ∧ registry_ok s' l'.
Proof.
  intros Hok. unfold handle_damage.
  destruct (find_win_ok s l drawable Hok) as (r & -> & Hr & Hn). simpl.
  destruct r as [w|]; [| by exists s, l].
  destruct (Hr w eq_refl) as [Hin Hx].
  apply field_at_allocated in Hx as (e & He & Hx).
  unfold load. rewrite He. simpl.
  destruct (negb (Win.damage e =? 0)); [| by exists s, l].
  destruct (store_ok (Win.set_damaged true) s l w e Hok) as
    (s1 & -> & Hh1 & Hc1 & Hk1 & Hok1); [done | done |]. simpl.
  eexists _, l. split; [done |]. exact Hok1.
Qed.

Lemma handle_event_ok (s : State) (l : list ptr) (srv : Server) (ev : XEvent) :
  registry_ok s l →
  ∃ s' l', handle_event srv ev s = Some s' ∧ registry_ok s' l'.
Proof.
  intros Hok. destruct ev; simpl.
  - by apply (handle_map_ok s l).
  - by apply (handle_unmap_ok s l).
  - by apply (handle_destroy_ok s l).
  - by apply (handle_configure_ok s l).
  - by apply (handle_reparent_ok s l).
  - by apply (circulate_total s l).
  - by apply (handle_damage_ok s l).
  - by exists s, l.
Qed.

Lemma handle_events_ok (evs : list (Server * XEvent)) (s : State)
    (l : list ptr) :
  registry_ok s l →
  ∃ s' l', handle_events evs s = Some s' ∧ registry_ok s' l'.
Proof.
  revert s l. induction evs as [| [srv ev] evs IH]; intros s l Hok; simpl.
  - by exists s, l.
  - destruct (handle_event_ok s l srv ev Hok) as (s1 & l1 & -> & Hok1).
    simpl. by apply (IH s1 l1).
Qed.

(** ** What [handle_configure] does to the entry it finds *)

Lemma bind_relink (t : TfpTable) (srv : BindReply) (e : Win.t)
    (n p : option ptr) :
  bind_window_pixmap t srv (Win.set_next n (Win.set_prev p e))
  = (Win.set_next n (Win.set_prev p (bind_window_pixmap t srv e).1),
     (bind_window_pixmap t srv e).2).
Proof.
  unfold bind_window_pixmap, unbind_window_pixmap. simpl.
  destruct (Win.pixmap_valid e); simpl;
    destruct (negb (Win.mapped e) || (Win.width e <=? 0) || (Win.height e <=? 0));
    simpl; try done;
    destruct (reply_attr srv) as [a|]; simpl; try done;
    destruct (negb (attr_map_state a =? IsViewable)); simpl; try done;
    destruct ((attr_depth a <=? 0) || (attr_depth a >=? MAX_DEPTH)
              || negb (tfp_available_at t (attr_depth a))); simpl; try done;
    destruct (reply_pixmap srv =? 0); simpl; try done;
    destruct (reply_glx_pixmap srv =? 0); simpl; done.
Qed.

Lemma relink_payload (e : Win.t) :
  e = Win.set_next (Win.next e) (Win.set_prev (Win.prev e) (Win.payload e)).
Proof. by destruct e. Qed.

(** [bind] does not look at the links. *)
Lemma bind_payload (t : TfpTable) (srv : BindReply) (e1 e2 : Win.t) :
  Win.payload e2 = Win.payload e1 →
  Win.payload (bind_window_pixmap t srv e2).1
  = Win.payload (bind_window_pixmap t srv e1).1
  ∧ (bind_window_pixmap t srv e2).2 = (bind_window_pixmap t srv e1).2.
Proof.
  intros Hp. rewrite (relink_payload e2), (relink_payload e1), Hp.
  rewrite !bind_relink. simpl. done.
Qed.

Lemma handle_configure_tracked (s : State) (l : list ptr) (w : ptr)
    (e : Win.t) (srv : Server) (ev : XConfigureEvent) :
  registry_ok s l → heap s !! w = Some e →
  cfg_window ev = Win.xid e → Win.xid e ≠ Comp.root (comp s) →
  let r := configure_entry (Comp.tfp (comp s)) ev (srv_bind srv) e in
  ∃ s' l', handle_configure srv ev s = Some s'
    ∧ registry_ok s' l'
    ∧ field_at Win.payload (heap s') w = Some (Win.payload r.1)
    ∧ (∀ q, q ≠ w →
         field_at Win.payload (heap s') q = field_at Win.payload (heap s) q)
    ∧ calls s' = calls s ++ r.2.
Proof.
  intros Hok He Hx Hroot r. unfold handle_configure. rewrite Hx.
  apply Z.eqb_neq in Hroot. rewrite Hroot.
  rewrite (find_win_tracked s l w e Hok He).
  cbn -[restack_win load].
  change (load w s) with (heap s !! w). rewrite He.
  cbn -[restack_win load].
  destruct (store_ok (configure_fields ev) s l w e Hok) as
    (s1 & -> & Hh1 & Hc1 & Hk1 & Hok1); [done | done |].
  cbn -[restack_win load].
  destruct (restack_total s1 l (Some w) (cfg_above ev) Hok1)
    as (s2 & l2 & -> & Hok2 & Hpay2 & Hcomp2 & Hk2).
  { intros ? [= <-]. apply (registry_mem_allocated s l w Hok). eauto. }
  cbn -[load].
  assert (field_at Win.payload (heap s2) w
          = Some (Win.payload (configure_fields ev e))) as Hw2.
  { by rewrite Hpay2, Hh1, field_at_insert, decide_True. }
  apply field_at_allocated in Hw2 as (e2 & He2 & Hp2).
  unfold load. rewrite He2. cbn -[load].
  assert (∀ q, q ≠ w →
          field_at Win.payload (heap s2) q = field_at Win.payload (heap s) q)
    as Hothers.
  { intros q Hq. by rewrite Hpay2, Hh1, field_at_insert, decide_False. }
  assert (Win.mapped e2 = Win.mapped (configure_fields ev e)) as ->
    by by apply (f_equal Win.mapped) in Hp2.
  assert (Comp.tfp (comp s2) = Comp.tfp (comp s)) as Ht.
  { apply (f_equal Comp.tfp) in Hcomp2. simpl in Hcomp2.
    by rewrite Hcomp2, Hc1. }
  unfold r, configure_entry.
  destruct (resized ev e && Win.mapped (configure_fields ev e)); simpl.
  - destruct (at_entry_ok (bind_window_pixmap (Comp.tfp (comp s2)) (srv_bind srv))
              s2 l2 w _ Hok2 (bind_keeps_links _ _) He2)
      as (s3 & E3 & Hh3 & Hc3 & Hk3 & Hok3).
    unfold bind_at. rewrite E3. simpl.
    destruct (bind_payload (Comp.tfp (comp s)) (srv_bind srv)
                (configure_fields ev e) e2 Hp2) as [Hbp Hbc].
    rewrite Ht in Hh3, Hk3.
    eexists _, l2. split; [done |]. unfold with_comp. simpl.
    split_and!.
    + by apply (registry_redraw s3 l2 true).
    + by rewrite Hh3, field_at_insert, decide_True, Hbp.
    + intros q Hq. rewrite Hh3, field_at_insert, decide_False by done.
      by apply Hothers.
    + by rewrite Hk3, Hk2, Hk1, Hbc.
  - eexists _, l2. split; [done |]. unfold with_comp. simpl.
    split_and!.
    + by apply (registry_redraw s2 l2 true).
    + by rewrite (field_at_Some _ _ _ _ He2), Hp2.
    + done.
    + by rewrite Hk2, Hk1, app_nil_r.
Qed.

(** C2.  From a well-formed registry, every sequence of insert, remove,
    restack and circulate operations runs to completion and ends in a
    well-formed registry: the [next] chain from the head spells one list
    [l'] without repetition, the [prev] chain from the tail spells its
    reverse, every allocated entry is on it, no two entries carry the same
    window identity, and every link points to an allocated entry that
    links back.  An insert of an identity that is already tracked returns
    [NULL] and leaves the state as it is.  The same holds for every
    sequence of notifications handled by [handle_event], whatever the
    server answers. *)
Theorem registry_invariant (ops : list RegOp) (s : State) (l : list ptr) :
  registry_ok s l →
  (∃ s' l', reg_run ops s = Some s'
      ∧ registry_ok s' l'
      ∧ stacking_order s' = Some l'
      ∧ stacking_order_rev s' = Some (reverse l')
      ∧ NoDup l' ∧ NoDup (xids_of (heap s') l')
      ∧ no_dangling (heap s'))
  ∧ (∀ oom xid, xid ∈ xids_of (heap s) l →
       add_win oom xid s = Some (None, s))
  ∧ (∀ evs, ∃ s' l', handle_events evs s = Some s'
       ∧ registry_ok s' l' ∧ stacking_order s' = Some l'
       ∧ no_dangling (heap s')).
Proof.
  intros Hok. split; [| split].
  - destruct (reg_run_ok ops s l Hok) as (s' & l' & E & Hok').
    exists s', l'. destruct (registry_order s' l' Hok') as [Ho Hr].
    split_and!; try done; try apply Hok'.
    by eapply registry_no_dangling.
  - intros oom xid Hin. by eapply add_win_tracked.
  - intros evs. destruct (handle_events_ok evs s l Hok) as (s' & l' & E & Hok').
    exists s', l'. split_and!; try done.
    + by apply registry_order.
    + by eapply registry_no_dangling.
Qed.

Lemma registry_invariant_witness :
  (∃ s' l',
      reg_run [Insert false 102; Restack 100 101; Remove 101; Insert false 100;
               Circulate 102 1; Restack 100 0] two_windows = Some s'
      ∧ registry_ok s' l'
      ∧ stacking_order s' = Some l'
      ∧ stacking_order_rev s' = Some (reverse l')
      ∧ NoDup l' ∧ NoDup (xids_of (heap s') l')
      ∧ no_dangling (heap s'))
  ∧ (∀ oom xid, xid ∈ xids_of (heap two_windows) [1%positive; 2%positive] →
       add_win oom xid two_windows = Some (None, two_windows))
  ∧ (∀ evs, ∃ s' l', handle_events evs two_windows = Some s'
       ∧ registry_ok s' l' ∧ stacking_order s' = Some l'
       ∧ no_dangling (heap s')).
Proof.
  apply (registry_invariant _ two_windows [1%positive; 2%positive]).
  apply registry_okb_sound. vm_compute. reflexivity.
Defined.


(** ** Pass 1 after unmapping and remapping a window *)

Lemma entries_of_app (h : gmap ptr Win.t) (l1 l2 : list ptr) :
  entries_of h (l1 ++ l2) = entries_of h l1 ++ entries_of h l2.
Proof. apply omap_app. Qed.

Lemma entries_of_insert (h : gmap ptr Win.t) (a b : list ptr) (w : ptr)
    (e : Win.t) :
  w ∉ a ++ b →
  entries_of (<[w := e]> h) (a ++ w :: b)
  = entries_of h a ++ e :: entries_of h b.
Proof.
  intros Hw. rewrite elem_of_app in Hw.
  rewrite entries_of_app. f_equal.
  - apply entries_of_frame. intros q Hq. apply lookup_insert_ne.
    intros ->. tauto.
  - unfold entries_of at 1. cbn. rewrite lookup_insert_eq. f_equal.
    apply (entries_of_frame h). intros q Hq. apply lookup_insert_ne.
    intros ->. tauto.
Qed.

Lemma draws_after_app (s s' : State) (c : list XCall) :
  calls s' = calls s ++ c →
  draws_after (length (calls s)) s' = filter (λ c, is_draw c = true) c.
Proof. intros E. unfold draws_after. by rewrite E, drop_app_length. Qed.

Lemma unmap_not_drawable (e : Win.t) : drawable (unmap_entry e).1 = false.
Proof.
  unfold unmap_entry.
  pose proof (unbind_fields (Win.set_mapped false e)) as (Hm & _).
  destruct (unbind_window_pixmap (Win.set_mapped false e)) as [e1 c1].
  simpl in Hm. unfold damage_destroy, drawable.
  destruct (negb (Win.damage e1 =? 0)); simpl; by rewrite Hm.
Qed.

Lemma map_drawable (t : TfpTable) (srv : Server) (attr : XWindowAttributes)
    (e : Win.t) :
  0 < attr_width attr → 0 < attr_height attr →
  reply_succeeds t (srv_bind srv) →
  drawable (map_entry t srv attr e).1 = true
  ∧ bound (map_entry t srv attr e).1.
Proof.
  intros Hw Hh Hs. unfold map_entry.
  destruct (damage_create srv (map_fields attr e)) as [e1 c1] eqn:E1.
  assert (Win.mapped e1 = true ∧ Win.width e1 = attr_width attr
          ∧ Win.height e1 = attr_height attr) as (Hm1 & Hw1 & Hh1).
  { unfold damage_create in E1. revert E1. split_ifs; by intros [= <- _]. }
  pose proof (bind_fields t (srv_bind srv) e1) as (Hm & Hwd & Hht & _).
  pose proof (proj2 (bind_bound_iff t (srv_bind srv) e1)) as Hb.
  destruct (bind_window_pixmap t (srv_bind srv) e1) as [e2 c2].
  simpl in *. assert (bound e2) as Hb2 by (apply Hb; split_and!; try done; lia).
  split; [| done]. unfold drawable. rewrite Hm, Hm1, Hb2, Hwd, Hht, Hw1, Hh1.
  apply Z.ltb_lt in Hw, Hh. by rewrite Hw, Hh.
Qed.

(** C5.  Pass 1 draws exactly the tracked entries that are mapped, bound
    and of positive size, one draw call each, in bottom-to-top stacking
    order.  Consequently, after [handle_unmap] of a tracked window [w] the
    frame consists of the drawable windows below [w] followed by those
    above it; and after a following [handle_map] that the server lets
    through, [w] is bound again and drawn between them, at its old place
    in the order. *)
Theorem pass1_draws_in_order (s : State) (a b : list ptr) (w : ptr)
    (e : Win.t) :
  registry_ok s (a ++ w :: b) → heap s !! w = Some e →
  let rh := Comp.root_height (comp s) in
  let below := filter (λ e, drawable e = true) (entries_of (heap s) a) in
  let above := filter (λ e, drawable e = true) (entries_of (heap s) b) in
  (∃ s', render_pass1 s = Some s'
     ∧ stacking_order s' = Some (a ++ w :: b)
     ∧ draws_after (length (calls s)) s'
       = draw_of rh
         <$> filter (λ e, drawable e = true)
               (entries_of (heap s) (a ++ w :: b)))
  ∧ (∃ s1 s1', handle_unmap (Win.xid e) s = Some s1
       ∧ stacking_order s1 = Some (a ++ w :: b)
       ∧ render_pass1 s1 = Some s1'
       ∧ draws_after (length (calls s1)) s1' = draw_of rh <$> (below ++ above)
       ∧ ∀ srv attr,
           srv_attr srv = Some attr →
           0 < attr_width attr → 0 < attr_height attr →
           reply_succeeds (Comp.tfp (comp s)) (srv_bind srv) →
           ∃ s2 s2' e2, handle_map srv (Win.xid e) s1 = Some s2
             ∧ stacking_order s2 = Some (a ++ w :: b)
             ∧ heap s2 !! w = Some e2 ∧ bound e2
             ∧ render_pass1 s2 = Some s2'
             ∧ draws_after (length (calls s2)) s2'
               = draw_of rh <$> (below ++ e2 :: above)).
Proof.
  intros Hok He rh below above.
  pose proof (proj1 Hok) as (_ & _ & Hnd).
  apply NoDup_remove_middle in Hnd as [_ Hw].
  split.
  - destruct (render_pass1_ok s _ Hok) as (s' & E & Hok' & Hc & Hcalls & _).
    exists s'. split; [done |]. split; [by apply registry_order |].
    rewrite (draws_after_app s s' _ Hcalls). apply filter_concat_draws.
  - destruct (handle_unmap_tracked s _ w e Hok He)
      as (s1 & E1 & Hok1 & Hh1 & Hk1 & Hc1).
    destruct (render_pass1_ok s1 _ Hok1) as (s1' & E1' & _ & _ & Hcalls1 & _).
    exists s1, s1'. split; [done |]. split; [by apply registry_order |].
    split; [done |]. split.
    + rewrite (draws_after_app s1 s1' _ Hcalls1), filter_concat_draws.
      rewrite Hc1. simpl. fold rh. f_equal.
      rewrite Hh1, entries_of_insert by done.
      rewrite filter_app, filter_cons, decide_False; [done |].
      by rewrite unmap_not_drawable.
    + intros srv attr Ha Hwd Hht Hs.
      assert (heap s1 !! w = Some (unmap_entry e).1) as He1.
      { rewrite Hh1. apply lookup_insert_eq. }
      assert (Win.xid (unmap_entry e).1 = Win.xid e) as Hx.
      { unfold unmap_entry.
        pose proof (unbind_fields (Win.set_mapped false e)) as (_ & _ & _ & Hx & _).
        destruct (unbind_window_pixmap (Win.set_mapped false e)) as [e1 c1].
        simpl in Hx. unfold damage_destroy. by split_ifs. }
      destruct (handle_map_tracked s1 _ w _ srv attr Hok1 He1 Ha)
        as (s2 & E2 & Hok2 & Hh2 & Hk2 & Hc2).
      rewrite Hx in E2.
      destruct (render_pass1_ok s2 _ Hok2) as (s2' & E2' & _ & _ & Hcalls2 & _).
      set (e2 := (map_entry (Comp.tfp (comp s1)) srv attr (unmap_entry e).1).1)
        in *.
      assert (Comp.tfp (comp s1) = Comp.tfp (comp s)) as Ht by by rewrite Hc1.
      destruct (map_drawable (Comp.tfp (comp s1)) srv attr (unmap_entry e).1)
        as [Hd Hb]; [done | done | by rewrite Ht |].
      fold e2 in Hd, Hb.
      exists s2, s2', e2. split; [done |]. split; [by apply registry_order |].
      split; [rewrite Hh2; apply lookup_insert_eq |]. split; [done |].
      split; [done |].
      rewrite (draws_after_app s2 s2' _ Hcalls2), filter_concat_draws.
      rewrite Hc2, Hc1. simpl. fold rh. f_equal.
      rewrite Hh2, Hh1, insert_insert_eq, entries_of_insert by done.
      rewrite filter_app, filter_cons, decide_True; done.
Qed.

Lemma pass1_draws_in_order_witness :
  let s := abc_state in
  let e := Win.mk 101 2101 3101 4101 1101 101 0 100 50 0 true false true true
             (Some 3%positive) (Some 1%positive) in
  let a := [1%positive] in
  let b := [3%positive] in
  let w := 2%positive in
  let rh := Comp.root_height (comp s) in
  let below := filter (λ e, drawable e = true) (entries_of (heap s) a) in
  let above := filter (λ e, drawable e = true) (entries_of (heap s) b) in
  (∃ s', render_pass1 s = Some s'
     ∧ stacking_order s' = Some (a ++ w :: b)
     ∧ draws_after (length (calls s)) s'
       = draw_of rh
         <$> filter (λ e, drawable e = true)
               (entries_of (heap s) (a ++ w :: b)))
  ∧ (∃ s1 s1', handle_unmap (Win.xid e) s = Some s1
       ∧ stacking_order s1 = Some (a ++ w :: b)
       ∧ render_pass1 s1 = Some s1'
       ∧ draws_after (length (calls s1)) s1' = draw_of rh <$> (below ++ above)
       ∧ ∀ srv attr,
           srv_attr srv = Some attr →
           0 < attr_width attr → 0 < attr_height attr →
           reply_succeeds (Comp.tfp (comp s)) (srv_bind srv) →
           ∃ s2 s2' e2, handle_map srv (Win.xid e) s1 = Some s2
             ∧ stacking_order s2 = Some (a ++ w :: b)
             ∧ heap s2 !! w = Some e2 ∧ bound e2
             ∧ render_pass1 s2 = Some s2'
             ∧ draws_after (length (calls s2)) s2'
               = draw_of rh <$> (below ++ e2 :: above)).
Proof.
  apply (pass1_draws_in_order abc_state [1%positive] [3%positive] 2%positive).
  - apply registry_okb_sound. vm_compute. reflexivity.
  - vm_compute. reflexivity.
Defined.

(** The scenario of the specification, evaluated: A, B, C are mapped in
    that order; with B unmapped the frame is A then C; once B is mapped
    again the frame is A, B, C. *)
Example abc_scenario :
  stacking_order abc_state = Some [1%positive; 2%positive; 3%positive]
  ∧ xids_of (heap abc_state) [1%positive; 2%positive; 3%positive]
    = [100; 101; 102]
  ∧ (s1 ← handle_unmap 101 abc_state;
     s1' ← render_pass1 s1;
     Some (draws_after (length (calls s1)) s1'))
    = Some [glDrawArrays 4100 100 550 100 50; glDrawArrays 4102 102 550 100 50]
  ∧ (s1 ← handle_unmap 101 abc_state;
     s2 ← handle_map (srv_win 101) 101 s1;
     s2' ← render_pass1 s2;
     Some (stacking_order s2', draws_after (length (calls s2)) s2'))
    = Some (Some [1%positive; 2%positive; 3%positive],
            [glDrawArrays 4100 100 550 100 50;
             glDrawArrays 4101 101 550 100 50;
             glDrawArrays 4102 102 550 100 50]).
Proof. split_and!; vm_compute; reflexivity. Qed.

(** ** Shader hot-reload *)

Section Reload.

Context (glGetUniformLocation : Z → string → Z).

Lemma param_set_relocated (prog : Z) (n : nat) (ps : list Param) (c : Comp.t) :
  Comp.param_count c = n →
  param_set (Comp.set_params (relocate_params glGetUniformLocation prog n ps) c)
  = (λ p, set_param_location (glGetUniformLocation prog (param_name p)) p)
    <$> take n ps.
Proof.
  intros Hn. unfold param_set, relocate_params. simpl. rewrite Hn.
  rewrite take_app, length_fmap, length_take.
  rewrite take_ge by (rewrite length_fmap, length_take; lia).
  destruct (decide (n ≤ length ps)%nat) as [Hle | Hgt].
  - replace (n - n `min` length ps)%nat with 0%nat by lia.
    by rewrite take_0, app_nil_r.
  - rewrite drop_ge by lia. by rewrite take_nil, app_nil_r.
Qed.

Lemma reload_failure (srv : ShaderReply) (s : State) :
  reload_succeeds srv = false →
  let s' := reload_postproc_shader glGetUniformLocation srv s in
  comp s' = comp s ∧ heap s' = heap s
  ∧ ∃ c, calls s' = calls s ++ c
       ∧ (c = [] ∨ c = [glDeleteShader (sh_shader srv)]
          ∨ c = [glDeleteProgram (sh_program srv);
                 glDeleteShader (sh_shader srv)]).
Proof.
  unfold reload_succeeds, reload_postproc_shader, compile_shader, link_program.
  intros Hf.
  destruct (sh_source srv) as [src|]; simpl in *.
  2: { split_and!; try done. exists []. split; [by rewrite app_nil_r | by left]. }
  destruct (sh_compile_ok srv); simpl in *.
  2: { split_and!; try done. eexists. split; [done | right; by left]. }
  destruct (sh_shader srv =? 0) eqn:E0; simpl in *.
  { split_and!; try done. exists []. split; [done | by left]. }
  destruct (sh_link_ok srv); simpl in *.
  - destruct (sh_program srv =? 0) eqn:E1; simpl in *; [| done].
    split_and!; try done. eexists.
    split; [by rewrite app_nil_r | right; by left].
  - split_and!; try done. eexists.
    split; [by rewrite app_nil_r | right; by right].
Qed.

Lemma reload_success (srv : ShaderReply) (s : State) :
  reload_succeeds srv = true →
  let s' := reload_postproc_shader glGetUniformLocation srv s in
  let new_prog := sh_program srv in
  calls s' = calls s ++ [glDeleteShader (sh_shader srv);
                         glDeleteProgram (Comp.postproc_prog (comp s))]
  ∧ heap s' = heap s
  ∧ comp s'
    = Comp.set_params
        (relocate_params glGetUniformLocation new_prog
           (Comp.param_count (comp s)) (Comp.params (comp s)))
        (Comp.set_uniforms
           (glGetUniformLocation new_prog "u_screen")
           (glGetUniformLocation new_prog "u_resolution")
           (glGetUniformLocation new_prog "u_time")
           (Comp.set_postproc_prog new_prog (comp s))).
Proof.
  unfold reload_succeeds, reload_postproc_shader, compile_shader, link_program.
  rewrite !andb_true_iff, !negb_true_iff. intros ((((Hsrc & ->) & E0) & ->) & E1).
  apply bool_decide_eq_true in Hsrc as [src ->]. simpl.
  rewrite E0, E1. simpl. split_and!; try done.
  by rewrite app_nil_r, <- app_assoc.
Qed.

End Reload.

(** C3.  A hot-reload that fails to load, compile or link leaves the
    compositor structure untouched (the active program, its three uniform
    locations and every parameter slot) and deletes at most the shader
    and program objects it has just created.  A hot-reload that succeeds
    deletes the old program, makes the new one active, and resolves
    [u_screen], [u_resolution], [u_time] and the location of every entry
    of the ParameterSet against the new program; names, values and the
    number of entries stay. *)
Theorem reload_keeps_or_replaces (glGetUniformLocation : Z → string → Z)
    (srv : ShaderReply) (s : State) :
  let s' := reload_postproc_shader glGetUniformLocation srv s in
  let old_prog := Comp.postproc_prog (comp s) in
  let new_prog := sh_program srv in
  (reload_succeeds srv = false →
     comp s' = comp s ∧ heap s' = heap s
     ∧ ∃ c, calls s' = calls s ++ c
          ∧ (∀ x, x ∈ c → x = glDeleteShader (sh_shader srv)
                          ∨ x = glDeleteProgram new_prog))
  ∧ (reload_succeeds srv = true →
     calls s' = calls s ++ [glDeleteShader (sh_shader srv);
                            glDeleteProgram old_prog]
     ∧ heap s' = heap s
     ∧ Comp.postproc_prog (comp s') = new_prog
     ∧ new_prog ≠ 0
     ∧ Comp.u_screen_tex (comp s') = glGetUniformLocation new_prog "u_screen"
     ∧ Comp.u_resolution (comp s')
       = glGetUniformLocation new_prog "u_resolution"
     ∧ Comp.u_time (comp s') = glGetUniformLocation new_prog "u_time"
     ∧ Comp.param_count (comp s') = Comp.param_count (comp s)
     ∧ param_set (comp s')
       = (λ p, set_param_location
                 (glGetUniformLocation new_prog (param_name p)) p)
         <$> param_set (comp s)
     ∧ Comp.win_head (comp s') = Comp.win_head (comp s)
     ∧ Comp.win_tail (comp s') = Comp.win_tail (comp s)).
Proof.
  simpl. split.
  - intros Hf.
    destruct (reload_failure glGetUniformLocation srv s Hf)
      as (Hc & Hh & c & Hcalls & Hcases).
    split_and!; try done. exists c. split; [done |].
    intros x Hx. destruct Hcases as [-> | [-> | ->]].
    + by apply elem_of_nil in Hx.
    + apply list_elem_of_singleton in Hx. by left.
    + apply elem_of_cons in Hx as [-> | Hx]; [by right |].
      apply list_elem_of_singleton in Hx. by left.
  - intros Hs.
    destruct (reload_success glGetUniformLocation srv s Hs)
      as (Hcalls & Hh & Hc).
    rewrite Hc. split_and!; try done.
    + unfold reload_succeeds in Hs. rewrite !andb_true_iff in Hs.
      destruct Hs as (_ & Hp). apply negb_true_iff, Z.eqb_neq in Hp. done.
    + by apply param_set_relocated.
Qed.

Lemma reload_keeps_or_replaces_witness :
  (let s' := reload_postproc_shader uniforms_sample reload_broken
               state_with_params in
   comp s' = comp state_with_params)
  ∧ (let s' := reload_postproc_shader uniforms_sample reload_good
                 state_with_params in
     calls s' = calls state_with_params ++ [glDeleteShader 11; glDeleteProgram 9]
     ∧ Comp.postproc_prog (comp s') = 12
     ∧ param_set (comp s')
       = (λ p, set_param_location (uniforms_sample 12 (param_name p)) p)
         <$> param_set (comp state_with_params)).
Proof.
  split.
  - apply (reload_keeps_or_replaces uniforms_sample reload_broken
             state_with_params). reflexivity.
  - destruct (reload_keeps_or_replaces uniforms_sample reload_good
                state_with_params) as [_ H].
    destruct (H eq_refl) as (H1 & _ & H3 & _ & _ & _ & _ & _ & H9 & _).
    exact (conj H1 (conj H3 H9)).
Defined.

(** ** The runtime parameter file *)

Lemma scan_word_length (n : nat) (l : list ascii) :
  (length (scan_word n l).1 ≤ n)%nat.
Proof.
  revert l. induction n as [| n IH]; intros l; simpl; [by destruct l |].
  destruct l as [| c l]; simpl; [lia |].
  destruct (isspace c); simpl; [lia |].
  specialize (IH l). destruct (scan_word n l) as [w rest]. simpl in *. lia.
Qed.

Lemma take_S_insert {A} (l : list A) (i : nat) (x : A) :
  (i < length l)%nat → take (S i) (<[i := x]> l) = take i l ++ [x].
Proof.
  intros Hi. rewrite (take_S_r _ _ x) by by apply list_lookup_insert_eq.
  by rewrite take_insert_ge.
Qed.

Section Params.

Context (strtof : list ascii → option Z).
Context (glGetUniformLocation : Z → string → Z).

(** A name the scanner accepts fits the 64-byte slot: [strncpy] copies
    all of it. *)
Lemma sscanf_name_fits (line name : list ascii) (value : Z) :
  sscanf_name_value strtof line = Some (name, value) →
  strncpy63 name = string_of_list_ascii name.
Proof.
  unfold sscanf_name_value, strncpy63.
  destruct (skip_space line) as [| c l]; [done |].
  pose proof (scan_word_length 63 (c :: l)) as Hlen.
  destruct (scan_word 63 (c :: l)) as [w rest]. simpl in Hlen.
  destruct (strtof (skip_space rest)); simpl; [| done].
  intros [= <- _]. by rewrite take_ge.
Qed.


Lemma read_param_lines_spec (lines : list (list ascii)) (c : Comp.t) :
  length (Comp.params c) = MAX_PARAMS →
  let c' := read_param_lines strtof glGetUniformLocation lines c in
  let new :=
    take (MAX_PARAMS - Comp.param_count c)
      (param_of_line glGetUniformLocation (Comp.postproc_prog c)
         <$> omap (sscanf_name_value strtof) lines) in
  length (Comp.params c') = MAX_PARAMS
  ∧ Comp.param_count c' = (Comp.param_count c + length new)%nat
  ∧ param_set c' = param_set c ++ new
  ∧ c' = Comp.set_params (Comp.params c')
           (Comp.set_param_count (Comp.param_count c') c).
Proof.
  revert c. induction lines as [| line lines IH]; intros c Hlen.
  { cbn [read_param_lines omap list_omap fmap list_fmap].
    rewrite take_nil, app_nil_r.
    split_and!; [done | simpl; lia | done | by destruct c]. }
  cbn [read_param_lines omap list_omap].
  destruct (Nat.ltb_spec (Comp.param_count c) MAX_PARAMS) as [Hlt | Hge].
  2: { replace (MAX_PARAMS - Comp.param_count c)%nat with 0%nat by lia.
       rewrite take_0, app_nil_r.
       split_and!; [done | simpl; lia | done | by destruct c]. }
  destruct (sscanf_name_value strtof line) as [[name value]|] eqn:Es.
  2: { by apply IH. }
  set (idx := Comp.param_count c) in *.
  set (entry := Build_Param _ _ _).
  set (c1 := Comp.set_params _ _).
  destruct (IH c1) as (Hl' & Hc' & Hs' & Heq).
  { unfold c1. simpl. by rewrite length_insert. }
  assert (entry = param_of_line glGetUniformLocation (Comp.postproc_prog c)
                    (name, value)) as Hentry.
  { unfold entry, param_of_line. simpl.
    by rewrite (sscanf_name_fits _ _ _ Es). }
  assert (Comp.postproc_prog c1 = Comp.postproc_prog c) as Hp by done.
  assert (Comp.param_count c1 = S idx) as Hc1 by done.
  assert (param_set c1 = param_set c ++ [entry]) as Hs1.
  { unfold param_set, c1. simpl. fold idx. apply take_S_insert.
    rewrite Hlen. done. }
  rewrite Hp, Hc1 in *.
  replace (MAX_PARAMS - idx)%nat with (S (MAX_PARAMS - S idx)) by lia.
  rewrite fmap_cons, <- Hentry. cbn [take].
  split_and!.
  - done.
  - rewrite Hc'. simpl. lia.
  - by rewrite Hs', Hs1, <- app_assoc.
  - rewrite Heq at 1. unfold c1. by destruct c.
Qed.

Lemma read_params_changed (f : ParamFile) (s : State) (t : Z)
    (content : string) :
  pf_stat f = Some t → t ≠ Comp.param_mtime (comp s) →
  pf_fopen f = Some content →
  length (Comp.params (comp s)) = MAX_PARAMS →
  let s' := read_params strtof glGetUniformLocation f s in
  let lines := take MAX_PARAMS (well_formed_lines strtof content) in
  param_set (comp s')
  = param_of_line glGetUniformLocation (Comp.postproc_prog (comp s)) <$> lines
  ∧ Comp.param_count (comp s') = length lines
  ∧ Comp.needs_redraw (comp s') = true
  ∧ Comp.param_mtime (comp s') = t
  ∧ Comp.postproc_prog (comp s') = Comp.postproc_prog (comp s)
  ∧ heap s' = heap s ∧ calls s' = calls s
  ∧ length (Comp.params (comp s')) = MAX_PARAMS.
Proof.
  intros Hst Hne Hfo Hlen. unfold read_params. rewrite Hst.
  apply Z.eqb_neq in Hne. rewrite Hne, Hfo. simpl.
  set (c0 := Comp.set_param_count 0 (Comp.set_param_mtime t (comp s))).
  destruct (read_param_lines_spec (fgets_lines content) c0)
    as (Hl' & Hc' & Hs' & Heq); [done |].
  change (MAX_PARAMS - Comp.param_count c0)%nat with MAX_PARAMS in Hc', Hs'.
  change (Comp.postproc_prog c0) with (Comp.postproc_prog (comp s)) in Hc', Hs'.
  change (omap (sscanf_name_value strtof) (fgets_lines content))
    with (well_formed_lines strtof content) in Hc', Hs'.
  change (param_set c0) with (@nil Param) in Hs'.
  change (Comp.param_count c0) with 0%nat in Hc'.
  rewrite <- fmap_take in Hc', Hs'. rewrite length_fmap in Hc'.
  split_and!; try done.
  all: rewrite Heq; done.
Qed.

End Params.



(** The example of the specification on the sample library and driver. *)
Example params_round_trip :
  let s1 := read_params strtof_sample uniforms_sample params_file_1 empty_state in
  let s2 := read_params strtof_sample uniforms_sample params_file_1 s1 in
  let s3 := read_params strtof_sample uniforms_sample params_file_2 s2 in
  param_set (comp s1)
  = [Build_Param "brightness" 0x3F000000 3; Build_Param "contrast" 0x3F99999A (-1)]
  ∧ s2 = s1
  ∧ param_set (comp s3) = [Build_Param "glitch" 0x411E6666 (-1)].
Proof. split_and!; vm_compute; reflexivity. Qed.




(** * Further properties of the code *)

(** ** What the primitives leave alone *)

Lemma store_effect (p : ptr) (g : Win.t → Win.t) (s s' : State) :
  store p g s = Some s' →
  ∃ e, heap s !! p = Some e ∧ heap s' = <[p := g e]> (heap s)
       ∧ comp s' = comp s ∧ calls s' = calls s.
Proof.
  unfold store. destruct (heap s !! p) as [e|] eqn:E; [| done].
  simpl. intros [= <-]. by exists e.
Qed.

Lemma at_entry_effect (f : Win.t → Win.t * list XCall) (p : ptr)
    (s s' : State) :
  at_entry f p s = Some s' →
  ∃ e, heap s !! p = Some e ∧ heap s' = <[p := (f e).1]> (heap s)
       ∧ comp s' = comp s ∧ calls s' = calls s ++ (f e).2.
Proof.
  unfold at_entry, load. destruct (heap s !! p) as [e|] eqn:E; [| done].
  intros H. rewrite <- E in H. change (heap s !! p) with (load p s) in H.
  unfold load in H. rewrite E in H. simpl in H.
  exists e. split; [done |].
  assert (at_entry f p s = Some s') as H'.
  { unfold at_entry, load. rewrite E. simpl. exact H. }
  rewrite (at_entry_Some f p s e E) in H'. by injection H' as <-.
Qed.

Lemma unlink_calls (w : ptr) (s s' : State) :
  unlink w s = Some s' → calls s' = calls s.
Proof.
  unfold unlink, load. intros H.
  destruct (heap s !! w) as [e|]; [| done]. simpl in H.
  destruct (Win.prev e) as [p|].
  - destruct (store p (Win.set_next (Win.next e)) s) as [s1|] eqn:E1; [| done].
    apply store_effect in E1 as (? & _ & _ & _ & Hc1). simpl in H.
    destruct (heap s1 !! w) as [e1|]; [| done]. simpl in H.
    destruct (Win.next e1) as [n|].
    + apply store_effect in H as (? & _ & _ & _ & Hc). congruence.
    + injection H as <-. done.
  - simpl in H. destruct (heap s !! w) as [e1|]; [| done]. simpl in H.
    destruct (Win.next e1) as [n|].
    + apply store_effect in H as (? & _ & _ & _ & Hc). by rewrite Hc.
    + injection H as <-. done.
Qed.

Lemma damage_destroy_unbind (e : Win.t) :
  (unbind_window_pixmap (damage_destroy e).1).2 = (unbind_window_pixmap e).2.
Proof.
  unfold damage_destroy, unbind_window_pixmap.
  destruct (negb (Win.damage e =? 0)); simpl; by destruct (Win.pixmap_valid e).
Qed.

(** The calls of [remove_win]: the damage handle and the binding of the
    entry are released. *)
Lemma remove_win_calls (w : ptr) (s s' : State) (e : Win.t) :
  heap s !! w = Some e → remove_win (Some w) s = Some s' →
  calls s' = calls s ++ (damage_destroy e).2 ++ (unbind_window_pixmap e).2.
Proof.
  intros He. unfold remove_win, unbind_at.
  rewrite (at_entry_Some _ _ _ _ He). simpl.
  rewrite (at_entry_Some unbind_window_pixmap w _ (damage_destroy e).1)
    by (simpl; apply lookup_insert_eq).
  simpl.
  match goal with |- context [unlink w ?s2] => set (s2' := s2) end.
  destruct (unlink w s2') as [s3|] eqn:E3; [| done]. simpl.
  destruct (load w s3); [| done]. simpl. intros [= <-]. simpl.
  rewrite (unlink_calls _ _ _ E3). unfold s2'. simpl.
  by rewrite damage_destroy_unbind, app_assoc.
Qed.

Lemma payload_field_xid (h h' : gmap ptr Win.t) (q : ptr) :
  field_at Win.payload h' q = field_at Win.payload h q →
  field_at Win.xid h' q = field_at Win.xid h q.
Proof.
  unfold field_at.
  destruct (h' !! q) as [e'|]; destruct (h !! q) as [e|]; simpl; try done.
  intros [= H]. by rewrite H.
Qed.

(** ** A well-formed registry is determined by its order and payloads *)

Lemma registry_determined (s s' : State) (l : list ptr) :
  registry_ok s l → registry_ok s' l →
  (∀ q, field_at Win.payload (heap s') q = field_at Win.payload (heap s) q) →
  Comp.set_win_head None (Comp.set_win_tail None (comp s'))
  = Comp.set_win_head None (Comp.set_win_tail None (comp s)) →
  calls s' = calls s →
  s' = s.
Proof.
  intros Hok Hok' Hpay Hc Hcalls.
  destruct (linked_ends _ _ (proj1 Hok)) as [Hh Ht].
  destruct (linked_ends _ _ (proj1 Hok')) as [Hh' Ht'].
  assert (heap s' = heap s) as Hheap.
  { apply map_eq. intros q. destruct (decide (q ∈ l)) as [Hin | Hnin].
    - apply list_elem_of_split in Hin as (a & b & ->).
      destruct (linked_node _ a b q (proj1 Hok)) as (e & He & En & Ep).
      destruct (linked_node _ a b q (proj1 Hok')) as (e' & He' & En' & Ep').
      rewrite He, He'. f_equal.
      specialize (Hpay q). unfold field_at in Hpay. rewrite He, He' in Hpay.
      apply (inj Some) in Hpay.
      rewrite (relink_payload e), (relink_payload e'). congruence.
    - destruct (heap s' !! q) as [e'|] eqn:E'.
      { destruct Hnin. apply (registry_mem_allocated s' l q Hok'). eauto. }
      destruct (heap s !! q) as [e|] eqn:E; [| done].
      destruct Hnin. apply (registry_mem_allocated s l q Hok). eauto. }
  assert (comp s' = comp s) as Hcomp.
  { rewrite <- Hh', <- Ht' in *. clear - Hc Hh Ht.
    destruct (comp s), (comp s').
    unfold Comp.set_win_head, Comp.set_win_tail in Hc. simpl in *.
    injection Hc as -> -> -> -> -> -> -> -> -> -> -> -> -> -> ->.
    by rewrite Hh, Ht. }
  clear - Hheap Hcomp Hcalls.
  destruct s as [c h cs], s' as [c' h' cs']. simpl in *. by subst.
Qed.

Lemma comp_relinked (c c' : Comp.t) :
  Comp.set_win_head None (Comp.set_win_tail None c')
  = Comp.set_win_head None (Comp.set_win_tail None c) →
  c' = Comp.set_win_head (Comp.win_head c')
         (Comp.set_win_tail (Comp.win_tail c') c).
Proof.
  destruct c, c'. unfold Comp.set_win_head, Comp.set_win_tail. simpl.
  by intros [= -> -> -> -> -> -> -> -> -> -> -> -> -> -> ->].
Qed.

(** ** Insert, then remove *)

Lemma add_remove_id (s : State) (l : list ptr) (xid : Z) :
  registry_ok s l → xid ∉ xids_of (heap s) l →
  xid ≠ Comp.overlay (comp s) → xid ≠ Comp.root (comp s) →
  ∃ w s1, add_win false xid s = Some (Some w, s1)
    ∧ registry_ok s1 (l ++ [w])
    ∧ heap s1 !! w = Some (Win.set_prev (last l) (Win.set_xid xid Win.zero))
    ∧ (∀ q, q ≠ w →
         field_at Win.payload (heap s1) q = field_at Win.payload (heap s) q)
    ∧ comp s1 = Comp.set_win_head (Comp.win_head (comp s1))
                  (Comp.set_win_tail (Comp.win_tail (comp s1)) (comp s))
    ∧ calls s1 = calls s
    ∧ remove_win (Some w) s1 = Some s.
Proof.
  intros Hok Hnin Ho Hr.
  destruct (add_win_new s l xid Hok Hnin Ho Hr)
    as (s1 & e & E & Hok1 & He & Hpay & Hothers & Hc1 & Hk1).
  set (w := fresh (dom (heap s))) in *.
  assert (e = Win.set_prev (last l) (Win.set_xid xid Win.zero)) as Ee.
  { destruct (linked_node s1 l [] w (proj1 Hok1)) as (e' & He' & En & Ep).
    rewrite He in He'. injection He' as <-.
    rewrite (relink_payload e), Hpay, En, Ep. done. }
  exists w, s1. split_and!; try done.
  { by rewrite <- Ee. }
  { by apply comp_relinked. }
  destruct (remove_win_ok s1 l [] w Hok1) as (s2 & E2 & Hok2 & Hw2 & Hpay2 & Hc2).
  rewrite E2. f_equal. rewrite app_nil_r in Hok2.
  apply (registry_determined s s2 l Hok Hok2).
  - intros q. destruct (decide (q = w)) as [-> | Hne].
    + pose proof (proj1 (registry_fresh s l Hok)) as Hfr.
      change (heap s !! w = None) in Hfr.
      unfold field_at. by rewrite Hw2, Hfr.
    + by rewrite Hpay2, Hothers.
  - by rewrite Hc2, Hc1.
  - rewrite (remove_win_calls w s1 s2 e He E2), Hk1.
    assert (damage_destroy e = (e, [])) as ->.
    { unfold damage_destroy.
      assert (Win.damage e = 0) as ->; [| done].
      by apply (f_equal Win.damage) in Hpay. }
    simpl. rewrite unbind_unbound; [by rewrite app_nil_r |].
    by apply (f_equal Win.pixmap_valid) in Hpay.
Qed.

(** X1.  Insert followed by remove is the identity: registering an
    identity that is not tracked (not the overlay, not the root, memory
    available) and removing the entry again gives back exactly the state
    before, with the same links, the same head and tail, and no call
    made. *)
Theorem add_then_remove_restores (s : State) (l : list ptr) (xid : Z) :
  registry_ok s l → xid ∉ xids_of (heap s) l →
  xid ≠ Comp.overlay (comp s) → xid ≠ Comp.root (comp s) →
  ∃ w s1, add_win false xid s = Some (Some w, s1)
    ∧ find_win s1 xid = Some (Some w)
    ∧ remove_win (Some w) s1 = Some s
    ∧ find_win s xid = Some None.
Proof.
  intros Hok Hnin Ho Hr.
  destruct (add_remove_id s l xid Hok Hnin Ho Hr)
    as (w & s1 & E & Hok1 & He & _ & _ & _ & Hrm).
  exists w, s1. split_and!; try done.
  - by apply (find_win_tracked s1 (l ++ [w]) w _ Hok1 He).
  - rewrite (find_win_linked s l) by apply Hok. f_equal.
    by apply lookup_xid_None_xids.
Qed.

Lemma add_then_remove_restores_witness :
  ∃ w s1, add_win false 102 two_windows = Some (Some w, s1)
    ∧ find_win s1 102 = Some (Some w)
    ∧ remove_win (Some w) s1 = Some two_windows
    ∧ find_win two_windows 102 = Some None.
Proof.
  apply (add_then_remove_restores two_windows [1%positive; 2%positive] 102).
  - apply registry_okb_sound. vm_compute. reflexivity.
  - vm_compute. intros H. inversion H as [| ? ? ? H1]; subst.
    inversion H1 as [| ? ? ? H2]; subst. inversion H2.
  - vm_compute. discriminate.
  - vm_compute. discriminate.
Defined.

(** ** [DestroyNotify] *)

(** X2.  A [DestroyNotify] for a tracked window takes its entry out of
    the stacking order and frees it: the order of the other windows and
    their contents are unchanged, the damage handle and the binding the
    window held are released, the identity is no longer found, and a
    redraw is requested. *)
Theorem destroy_removes_window (s : State) (a b : list ptr) (w : ptr)
    (e : Win.t) :
  registry_ok s (a ++ w :: b) → heap s !! w = Some e →
  ∃ s', handle_destroy (Win.xid e) s = Some s'
    ∧ registry_ok s' (a ++ b)
    ∧ stacking_order s' = Some (a ++ b)
    ∧ heap s' !! w = None
    ∧ find_win s' (Win.xid e) = Some None
    ∧ (∀ q, q ≠ w →
         field_at Win.payload (heap s') q = field_at Win.payload (heap s) q)
    ∧ calls s' = calls s ++ (damage_destroy e).2 ++ (unbind_window_pixmap e).2
    ∧ Comp.needs_redraw (comp s') = true.
Proof.
  intros Hok He. unfold handle_destroy.
  rewrite (find_win_tracked s _ w e Hok He). cbn -[remove_win].
  destruct (remove_win_ok s a b w Hok) as (s1 & E1 & Hok1 & Hw1 & Hpay1 & Hc1).
  rewrite E1. cbn -[remove_win]. eexists. split; [done |].
  assert (registry_ok (with_comp (Comp.set_needs_redraw true) s1) (a ++ b))
    as Hok' by by apply registry_redraw.
  split_and!; try done.
  - by apply registry_order.
  - rewrite (find_win_linked _ (a ++ b)) by apply Hok'. f_equal.
    apply lookup_xid_None_xids. simpl.
    rewrite (xids_of_frame (heap s)).
    + apply (registry_without s a b w Hok). by apply field_at_Some.
    + intros q Hq. apply payload_field_xid, Hpay1. intros ->.
      destruct Hok as ((_ & _ & Hnd) & _).
      by apply NoDup_remove_middle in Hnd as [_ Hnd].
  - simpl. by apply (remove_win_calls w s s1 e).
Qed.

Lemma destroy_removes_window_witness :
  ∃ s', handle_destroy 100 two_windows = Some s'
    ∧ registry_ok s' ([] ++ [2%positive])
    ∧ stacking_order s' = Some ([] ++ [2%positive])
    ∧ heap s' !! 1%positive = None
    ∧ find_win s' 100 = Some None
    ∧ (∀ q, q ≠ 1%positive →
         field_at Win.payload (heap s') q
         = field_at Win.payload (heap two_windows) q)
    ∧ calls s' = calls two_windows
                 ++ (damage_destroy
                       (Win.set_next (Some 2%positive)
                          (Win.set_xid 100 Win.zero))).2
                 ++ (unbind_window_pixmap
                       (Win.set_next (Some 2%positive)
                          (Win.set_xid 100 Win.zero))).2
    ∧ Comp.needs_redraw (comp s') = true.
Proof.
  apply (destroy_removes_window two_windows [] [2%positive] 1%positive
           (Win.set_next (Some 2%positive) (Win.set_xid 100 Win.zero))).
  - apply registry_okb_sound. vm_compute. reflexivity.
  - vm_compute. reflexivity.
Defined.

(** ** Notifications about windows that are not tracked *)

(** X3.  A notification that names a window without an entry changes
    nothing: unmap, destroy, circulate and damage notifications, a
    reparent away from the root, and a configure notification of a window
    other than the root all return the state as it was, with no call and
    no redraw request. *)
Theorem untracked_window_ignored (s : State) (l : list ptr) (srv : Server)
    (window : Z) :
  registry_ok s l → window ∉ xids_of (heap s) l →
  handle_event srv (UnmapNotify window) s = Some s
  ∧ handle_event srv (DestroyNotify window) s = Some s
  ∧ (∀ place, handle_event srv (CirculateNotify window place) s = Some s)
  ∧ handle_event srv (DamageNotify window) s = Some s
  ∧ (∀ parent, parent ≠ Comp.root (comp s) →
       handle_event srv (ReparentNotify window parent) s = Some s)
  ∧ (∀ ev, cfg_window ev = window → window ≠ Comp.root (comp s) →
       handle_event srv (ConfigureNotify ev) s = Some s).
Proof.
  intros Hok Hnin.
  assert (find_win s window = Some None) as Hf.
  { rewrite (find_win_linked s l) by apply Hok. f_equal.
    by apply lookup_xid_None_xids. }
  split_and!.
  - simpl. unfold handle_unmap. by rewrite Hf.
  - simpl. unfold handle_destroy. by rewrite Hf.
  - intros place. simpl. unfold handle_circulate. by rewrite Hf.
  - simpl. unfold handle_damage. by rewrite Hf.
  - intros parent Hp. simpl. unfold handle_reparent.
    apply Z.eqb_neq in Hp. by rewrite Hp, Hf.
  - intros ev <- Hr. simpl. unfold handle_configure.
    apply Z.eqb_neq in Hr. by rewrite Hr, Hf.
Qed.

Lemma untracked_window_ignored_witness :
  handle_event srv_ok (UnmapNotify 555) two_windows = Some two_windows
  ∧ handle_event srv_ok (DestroyNotify 555) two_windows = Some two_windows
  ∧ (∀ place,
       handle_event srv_ok (CirculateNotify 555 place) two_windows
       = Some two_windows)
  ∧ handle_event srv_ok (DamageNotify 555) two_windows = Some two_windows
  ∧ (∀ parent, parent ≠ Comp.root (comp two_windows) →
       handle_event srv_ok (ReparentNotify 555 parent) two_windows
       = Some two_windows)
  ∧ (∀ ev, cfg_window ev = 555 → 555 ≠ Comp.root (comp two_windows) →
       handle_event srv_ok (ConfigureNotify ev) two_windows
       = Some two_windows).
Proof.
  apply (untracked_window_ignored two_windows [1%positive; 2%positive]
           srv_ok 555).
  - apply registry_okb_sound. vm_compute. reflexivity.
  - vm_compute. intros H. inversion H as [| ? ? ? H1]; subst.
    inversion H1 as [| ? ? ? H2]; subst. inversion H2.
Defined.

(** ** [MapNotify] for a window that has no entry yet *)

Lemma find_win_untracked (s : State) (l : list ptr) (x : Z) :
  registry_ok s l → x ∉ xids_of (heap s) l → find_win s x = Some None.
Proof.
  intros Hok Hnin. rewrite (find_win_linked s l) by apply Hok. f_equal.
  by apply lookup_xid_None_xids.
Qed.

Lemma bind_geometry (t : TfpTable) (srv : BindReply) (w : Win.t) :
  let w' := (bind_window_pixmap t srv w).1 in
  Win.x w' = Win.x w ∧ Win.y w' = Win.y w
  ∧ Win.border_width w' = Win.border_width w
  ∧ Win.override_redirect w' = Win.override_redirect w.
Proof.
  unfold bind_window_pixmap, unbind_window_pixmap.
  destruct (Win.pixmap_valid w); simpl; destruct (reply_attr srv);
    split_ifs; done.
Qed.

(** What [map_entry] sets, whatever becomes of the binding. *)
Lemma map_entry_fields (t : TfpTable) (srv : Server)
    (attr : XWindowAttributes) (e : Win.t) :
  let e' := (map_entry t srv attr e).1 in
  Win.xid e' = Win.xid e ∧ Win.mapped e' = true
  ∧ Win.x e' = attr_x attr ∧ Win.y e' = attr_y attr
  ∧ Win.width e' = attr_width attr ∧ Win.height e' = attr_height attr
  ∧ Win.border_width e' = attr_border_width attr
  ∧ Win.override_redirect e' = attr_override_redirect attr.
Proof.
  unfold map_entry.
  destruct (damage_create srv (map_fields attr e)) as [w1 c1] eqn:E1.
  assert (Win.xid w1 = Win.xid e ∧ Win.mapped w1 = true
          ∧ Win.x w1 = attr_x attr ∧ Win.y w1 = attr_y attr
          ∧ Win.width w1 = attr_width attr ∧ Win.height w1 = attr_height attr
          ∧ Win.border_width w1 = attr_border_width attr
          ∧ Win.override_redirect w1 = attr_override_redirect attr) as H1.
  { unfold damage_create, map_fields in E1. revert E1.
    split_ifs; intros [= <- _]; done. }
  destruct H1 as (<- & <- & <- & <- & <- & <- & <- & <-).
  pose proof (bind_fields t (srv_bind srv) w1) as (Hm & Hw & Hh & Hx & _).
  pose proof (bind_geometry t (srv_bind srv) w1) as (Gx & Gy & Gb & Go).
  destruct (bind_window_pixmap t (srv_bind srv) w1) as [w2 c2].
  simpl in *. by rewrite Hm, Hw, Hh, Hx, Gx, Gy, Gb, Go.
Qed.

Lemma handle_map_new (s : State) (l : list ptr) (srv : Server)
    (attr : XWindowAttributes) (window : Z) :
  registry_ok s l → window ∉ xids_of (heap s) l →
  window ≠ Comp.overlay (comp s) → window ≠ Comp.root (comp s) →
  srv_oom srv = false → srv_attr srv = Some attr →
  let e0 := Win.set_prev (last l) (Win.set_xid window Win.zero) in
  let r := map_entry (Comp.tfp (comp s)) srv attr e0 in
  ∃ w s', handle_map srv window s = Some s'
    ∧ registry_ok s' (l ++ [w])
    ∧ heap s !! w = None
    ∧ heap s' !! w = Some r.1
    ∧ (∀ q, q ≠ w →
         field_at Win.payload (heap s') q = field_at Win.payload (heap s) q)
    ∧ calls s' = calls s ++ r.2
    ∧ Comp.needs_redraw (comp s') = true.
Proof.
  intros Hok Hnin Ho Hr Hoom Hattr e0 r.
  destruct (add_remove_id s l window Hok Hnin Ho Hr)
    as (w & s1 & E & Hok1 & He & Hothers & Hc1 & Hk1 & Hrm).
  assert (find_win s1 window = Some (Some w)) as Hf1
    by apply (find_win_tracked s1 (l ++ [w]) w _ Hok1 He).
  destruct (handle_map_tracked s1 (l ++ [w]) w e0 srv attr Hok1 He Hattr)
    as (s' & E' & Hok' & Hh' & Hk' & Hc').
  exists w, s'. split_and!.
  - unfold handle_map. rewrite (find_win_untracked s l window Hok Hnin).
    cbn -[add_win handle_map_entry]. rewrite Hoom, E.
    cbn -[handle_map_entry].
    unfold handle_map in E'. change (Win.xid e0) with window in E'.
    rewrite Hf1 in E'. exact E'.
  - done.
  - destruct (heap s !! w) as [e|] eqn:Ew; [| done].
    assert (w ∈ l) as Hin by (apply (registry_mem_allocated s l w Hok); eauto).
    destruct Hok1 as ((_ & _ & Hnd) & _).
    apply NoDup_app in Hnd as (_ & Hnd & _). destruct (Hnd w Hin). by left.
  - rewrite Hh', lookup_insert_eq. unfold r. by rewrite Hc1.
  - intros q Hq. by rewrite Hh', field_at_insert, decide_False, Hothers.
  - rewrite Hk', Hk1. unfold r. by rewrite Hc1.
  - by rewrite Hc'.
Qed.

(** X4.  A [MapNotify] for a viewable window that has no entry yet
    (neither overlay nor root, memory available, attributes readable)
    creates one on top of the stacking order: the window is then found
    under its identity, marked mapped, carries the geometry and the
    override-redirect flag of the attribute reply, and a redraw is
    requested; the entries of all other windows keep their contents. *)
Theorem map_tracks_new_window (s : State) (l : list ptr) (srv : Server)
    (attr : XWindowAttributes) (window : Z) :
  registry_ok s l → window ∉ xids_of (heap s) l →
  window ≠ Comp.overlay (comp s) → window ≠ Comp.root (comp s) →
  srv_oom srv = false → srv_attr srv = Some attr →
  ∃ w s' e, handle_map srv window s = Some s'
    ∧ registry_ok s' (l ++ [w])
    ∧ stacking_order s' = Some (l ++ [w])
    ∧ find_win s' window = Some (Some w)
    ∧ heap s' !! w = Some e
    ∧ Win.xid e = window ∧ Win.mapped e = true
    ∧ Win.x e = attr_x attr ∧ Win.y e = attr_y attr
    ∧ Win.width e = attr_width attr ∧ Win.height e = attr_height attr
    ∧ Win.border_width e = attr_border_width attr
    ∧ Win.override_redirect e = attr_override_redirect attr
    ∧ (∀ q, q ≠ w →
         field_at Win.payload (heap s') q = field_at Win.payload (heap s) q)
    ∧ Comp.needs_redraw (comp s') = true.
Proof.
  intros Hok Hnin Ho Hr Hoom Hattr.
  destruct (handle_map_new s l srv attr window Hok Hnin Ho Hr Hoom Hattr)
    as (w & s' & E & Hok' & _ & He & Hothers & _ & Hred).
  destruct (map_entry_fields (Comp.tfp (comp s)) srv attr
              (Win.set_prev (last l) (Win.set_xid window Win.zero)))
    as (Hx & Hm & H1 & H2 & H3 & H4 & H5 & H6).
  simpl in Hx.
  exists w, s',
    (map_entry (Comp.tfp (comp s)) srv attr
       (Win.set_prev (last l) (Win.set_xid window Win.zero))).1.
  split_and!; try done.
  - by apply registry_order.
  - rewrite <- Hx. by apply (find_win_tracked s' (l ++ [w]) w _ Hok' He).
Qed.

Lemma map_tracks_new_window_witness :
  ∃ w s' e, handle_map srv_ok 102 two_windows = Some s'
    ∧ registry_ok s' ([1%positive; 2%positive] ++ [w])
    ∧ stacking_order s' = Some ([1%positive; 2%positive] ++ [w])
    ∧ find_win s' 102 = Some (Some w)
    ∧ heap s' !! w = Some e
    ∧ Win.xid e = 102 ∧ Win.mapped e = true
    ∧ Win.x e = attr_x sample_attr ∧ Win.y e = attr_y sample_attr
    ∧ Win.width e = attr_width sample_attr
    ∧ Win.height e = attr_height sample_attr
    ∧ Win.border_width e = attr_border_width sample_attr
    ∧ Win.override_redirect e = attr_override_redirect sample_attr
    ∧ (∀ q, q ≠ w →
         field_at Win.payload (heap s') q
         = field_at Win.payload (heap two_windows) q)
    ∧ Comp.needs_redraw (comp s') = true.
Proof.
  apply (map_tracks_new_window two_windows [1%positive; 2%positive] srv_ok
           sample_attr 102).
  - apply registry_okb_sound. vm_compute. reflexivity.
  - vm_compute. intros H. inversion H as [| ? ? ? H1]; subst.
    inversion H1 as [| ? ? ? H2]; subst. inversion H2.
  - vm_compute. discriminate.
  - vm_compute. discriminate.
  - reflexivity.
  - reflexivity.
Defined.

(** X5.  A [MapNotify] that cannot be followed up leaves no trace or
    removes the window.  If the window has no entry and its attributes
    cannot be read, the entry created for it is removed at once and the
    state is exactly what it was; the same holds when no entry can be
    created (overlay, root, or no memory).  If the window has an entry and
    its attributes cannot be read, the entry is removed, its damage handle
    and binding are released, and the redraw flag is not touched. *)
Theorem map_of_vanished_window (s : State) (l : list ptr) (srv : Server)
    (window : Z) :
  registry_ok s l →
  (window ∉ xids_of (heap s) l → srv_attr srv = None →
     handle_map srv window s = Some s)
  ∧ (window ∉ xids_of (heap s) l →
     window = Comp.overlay (comp s) ∨ window = Comp.root (comp s)
     ∨ srv_oom srv = true →
     handle_map srv window s = Some s)
  ∧ (∀ a b w e, l = a ++ w :: b → heap s !! w = Some e →
       Win.xid e = window → srv_attr srv = None →
       ∃ s', handle_map srv window s = Some s'
         ∧ registry_ok s' (a ++ b)
         ∧ heap s' !! w = None
         ∧ calls s' = calls s ++ (damage_destroy e).2
                      ++ (unbind_window_pixmap e).2
         ∧ Comp.needs_redraw (comp s') = Comp.needs_redraw (comp s)).
Proof.
  intros Hok. split_and!.
  - intros Hnin Hattr. unfold handle_map.
    rewrite (find_win_untracked s l window Hok Hnin).
    cbn -[add_win handle_map_entry].
    destruct (decide (window = Comp.overlay (comp s)
                      ∨ window = Comp.root (comp s)
                      ∨ srv_oom srv = true)) as [Href | Hfree].
    + by rewrite (add_win_refused s l (srv_oom srv) window Hok Href).
    + assert (srv_oom srv = false) as Hoom
        by (destruct (srv_oom srv); [destruct Hfree |]; tauto).
      destruct (add_remove_id s l window Hok Hnin)
        as (w & s1 & E & _ & _ & _ & _ & _ & Hrm); [tauto | tauto |].
      rewrite Hoom, E. cbn -[remove_win]. unfold handle_map_entry.
      by rewrite Hattr.
  - intros Hnin Href. unfold handle_map.
    rewrite (find_win_untracked s l window Hok Hnin).
    cbn -[add_win handle_map_entry].
    by rewrite (add_win_refused s l (srv_oom srv) window Hok Href).
  - intros a b w e -> He <- Hattr. unfold handle_map.
    rewrite (find_win_tracked s _ w e Hok He).
    cbn -[remove_win]. unfold handle_map_entry. rewrite Hattr.
    destruct (remove_win_ok s a b w Hok) as (s' & E & Hok' & Hw & _ & Hc).
    exists s'. split_and!; try done.
    + by apply (remove_win_calls w s s' e).
    + apply (f_equal Comp.needs_redraw) in Hc. exact Hc.
Qed.

Lemma map_of_vanished_window_witness :
  let srv := {| srv_oom := false; srv_attr := None;
                srv_reparent_attr := None; srv_damage := 55;
                srv_xerror := 0; srv_bind := bind_ok |} in
  (102 ∉ xids_of (heap two_windows) [1%positive; 2%positive] →
     srv_attr srv = None →
     handle_map srv 102 two_windows = Some two_windows)
  ∧ (102 ∉ xids_of (heap two_windows) [1%positive; 2%positive] →
     102 = Comp.overlay (comp two_windows)
     ∨ 102 = Comp.root (comp two_windows) ∨ srv_oom srv = true →
     handle_map srv 102 two_windows = Some two_windows)
  ∧ (∀ a b w e, [1%positive; 2%positive] = a ++ w :: b →
       heap two_windows !! w = Some e →
       Win.xid e = 102 → srv_attr srv = None →
       ∃ s', handle_map srv 102 two_windows = Some s'
         ∧ registry_ok s' (a ++ b)
         ∧ heap s' !! w = None
         ∧ calls s' = calls two_windows ++ (damage_destroy e).2
                      ++ (unbind_window_pixmap e).2
         ∧ Comp.needs_redraw (comp s')
           = Comp.needs_redraw (comp two_windows)).
Proof.
  apply (map_of_vanished_window two_windows [1%positive; 2%positive]).
  apply registry_okb_sound. vm_compute. reflexivity.
Defined.

(** ** Restacking twice *)

Lemma same_but_links_determined (s s' : State) (l : list ptr) :
  registry_ok s l → registry_ok s' l → same_but_links s s' → s' = s.
Proof.
  intros Hok Hok' (Hp & Hc & Hk). by apply (registry_determined s s' l).
Qed.

Lemma restack_win_idem (s : State) (a b : list ptr) (w : ptr) (above : Z) :
  registry_ok s (a ++ w :: b) →
  ∃ s1, restack_win (Some w) above s = Some s1
    ∧ restack_win (Some w) above s1 = Some s1.
Proof.
  intros Hok. destruct (decide (above = 0)) as [H0 | H0].
  - destruct (restack_bottom_ok s a b w above Hok H0) as (s1 & E1 & Hok1 & _).
    exists s1. split; [done |].
    destruct (restack_bottom_ok s1 [] (a ++ b) w above Hok1 H0)
      as (s2 & E2 & Hok2 & Hs2).
    rewrite E2. f_equal.
    by apply (same_but_links_determined s1 s2 (w :: a ++ b)).
  - destruct (decide (above ∈ xids_of (heap s) (a ++ b))) as [Hin | Hnin].
    + apply elem_of_xids_of in Hin as (below & Hin & Hx).
      apply list_elem_of_split in Hin as (c & d & Hsplit).
      destruct (restack_above_ok s a b c d w below above Hok H0 Hsplit Hx)
        as (s1 & E1 & Hok1 & Hs1).
      exists s1. split; [done |].
      assert (registry_ok s1 ((c ++ [below]) ++ w :: d)) as Hok1'
        by by rewrite <- app_assoc.
      destruct (restack_above_ok s1 (c ++ [below]) d c d w below above
                  Hok1' H0) as (s2 & E2 & Hok2 & Hs2).
      { by rewrite <- app_assoc. }
      { by rewrite (same_but_links_xid s s1). }
      rewrite E2. f_equal.
      by apply (same_but_links_determined s1 s2 (c ++ below :: w :: d)).
    + destruct (restack_top_ok s a b w above Hok H0 Hnin)
        as (s1 & E1 & Hok1 & Hs1).
      exists s1. split; [done |].
      assert (registry_ok s1 ((a ++ b) ++ w :: [])) as Hok1'
        by by rewrite <- app_assoc.
      destruct (restack_top_ok s1 (a ++ b) [] w above Hok1' H0)
        as (s2 & E2 & Hok2 & Hs2).
      { rewrite app_nil_r. rewrite (xids_of_frame (heap s)); [done |].
        intros q _. by apply same_but_links_xid. }
      rewrite E2. f_equal.
      apply (same_but_links_determined s1 s2 (a ++ b ++ [w])); try done.
      simpl in Hok2. by rewrite <- app_assoc in Hok2.
Qed.

(** X6.  [restack_win] is idempotent: restacking a tracked window a second
    time with the same sibling argument returns exactly the state the
    first restack produced. *)
Theorem restack_idempotent (s : State) (l : list ptr) (w : ptr) (above : Z) :
  registry_ok s l → w ∈ l →
  ∃ s1, restack_win (Some w) above s = Some s1
    ∧ restack_win (Some w) above s1 = Some s1.
Proof.
  intros Hok Hin.
  destruct (registry_split s l w Hok Hin) as (a & b & -> & _).
  by apply (restack_win_idem s a b w above).
Qed.

Lemma restack_idempotent_witness :
  ∃ s1, restack_win (Some 1%positive) 101 two_windows = Some s1
    ∧ restack_win (Some 1%positive) 101 s1 = Some s1.
Proof.
  apply (restack_idempotent two_windows [1%positive; 2%positive]).
  - apply registry_okb_sound. vm_compute. reflexivity.
  - apply elem_of_cons. by left.
Defined.

(** ** [ConfigureNotify] without a new size *)

(** X7.  A [ConfigureNotify] that does not change the size of a tracked
    window (a move or a restack), or that concerns an unmapped window,
    never touches the binding: no call is made to the server or the
    driver, the entry gets the new geometry and keeps every other field,
    and all other entries keep their contents. *)
Theorem configure_without_resize (s : State) (l : list ptr) (w : ptr)
    (e : Win.t) (srv : Server) (ev : XConfigureEvent) :
  registry_ok s l → heap s !! w = Some e →
  cfg_window ev = Win.xid e → Win.xid e ≠ Comp.root (comp s) →
  (cfg_width ev = Win.width e ∧ cfg_height ev = Win.height e)
  ∨ Win.mapped e = false →
  ∃ s' l', handle_configure srv ev s = Some s'
    ∧ registry_ok s' l'
    ∧ calls s' = calls s
    ∧ field_at Win.payload (heap s') w
      = Some (Win.payload (configure_fields ev e))
    ∧ field_at Win.pixmap_valid (heap s') w = Some (Win.pixmap_valid e)
    ∧ field_at Win.pixmap (heap s') w = Some (Win.pixmap e)
    ∧ field_at Win.glx_pixmap (heap s') w = Some (Win.glx_pixmap e)
    ∧ field_at Win.texture (heap s') w = Some (Win.texture e)
    ∧ (∀ q, q ≠ w →
         field_at Win.payload (heap s') q = field_at Win.payload (heap s) q).
Proof.
  intros Hok He Hx Hroot Hcase.
  destruct (handle_configure_tracked s l w e srv ev Hok He Hx Hroot)
    as (s' & l' & E & Hok' & Hw & Hothers & Hk).
  assert (configure_entry (Comp.tfp (comp s)) ev (srv_bind srv) e
          = (configure_fields ev e, [])) as Hr.
  { unfold configure_entry, resized.
    destruct Hcase as [[-> ->] | Hm].
    - by rewrite !Z.eqb_refl.
    - unfold configure_fields. simpl. rewrite Hm. by rewrite andb_false_r. }
  rewrite Hr in Hw, Hk. simpl in Hw, Hk. rewrite app_nil_r in Hk.
  exists s', l'. split_and!; try done.
  all: apply field_at_allocated in Hw as (e' & He' & Hp);
    rewrite (field_at_Some _ _ _ _ He'); f_equal.
  - by apply (f_equal Win.pixmap_valid) in Hp.
  - by apply (f_equal Win.pixmap) in Hp.
  - by apply (f_equal Win.glx_pixmap) in Hp.
  - by apply (f_equal Win.texture) in Hp.
Qed.

Lemma configure_without_resize_witness :
  let e := Win.set_next (Some 2%positive) (Win.set_xid 100 Win.zero) in
  let ev := {| cfg_window := 100; cfg_x := 5; cfg_y := 6; cfg_width := 0;
               cfg_height := 0; cfg_border_width := 1; cfg_above := 101 |} in
  ∃ s' l', handle_configure srv_ok ev two_windows = Some s'
    ∧ registry_ok s' l'
    ∧ calls s' = calls two_windows
    ∧ field_at Win.payload (heap s') 1%positive
      = Some (Win.payload (configure_fields ev e))
    ∧ field_at Win.pixmap_valid (heap s') 1%positive
      = Some (Win.pixmap_valid e)
    ∧ field_at Win.pixmap (heap s') 1%positive = Some (Win.pixmap e)
    ∧ field_at Win.glx_pixmap (heap s') 1%positive = Some (Win.glx_pixmap e)
    ∧ field_at Win.texture (heap s') 1%positive = Some (Win.texture e)
    ∧ (∀ q, q ≠ 1%positive →
         field_at Win.payload (heap s') q
         = field_at Win.payload (heap two_windows) q).
Proof.
  apply (configure_without_resize two_windows [1%positive; 2%positive]
           1%positive).
  - apply registry_okb_sound. vm_compute. reflexivity.
  - vm_compute. reflexivity.
  - reflexivity.
  - vm_compute. discriminate.
  - left. split; reflexivity.
Defined.

(** ** A bind goes through or leaves nothing behind *)

Lemma released_set_pixmap (w : Win.t) :
  released w → Win.set_pixmap 0 w = w.
Proof. intros (_ & Hp & _). destruct w. simpl in *. by subst. Qed.

Lemma released_glx_undone (w : Win.t) (pm : Z) :
  released w →
  Win.set_pixmap 0 (Win.set_glx_pixmap 0 (Win.set_pixmap pm w)) = w.
Proof. intros (_ & Hp & Hg & _). destruct w. simpl in *. by subst. Qed.

Lemma bind_released_cases (t : TfpTable) (srv : BindReply) (w : Win.t) :
  released w →
  let r := bind_window_pixmap t srv w in
  (∃ a, reply_attr srv = Some a
     ∧ r.1 = Win.set_damaged true
               (Win.set_pixmap_valid true
                  (Win.set_texture (reply_texture srv)
                     (Win.set_glx_pixmap (reply_glx_pixmap srv)
                        (Win.set_pixmap (reply_pixmap srv) w))))
     ∧ r.2 = bind_calls t srv w (attr_depth a))
  ∨ (r.1 = w
     ∧ (r.2 = [] ∨ r.2 = [XCompositeNameWindowPixmap (Win.xid w)]
        ∨ ∃ a, reply_attr srv = Some a
             ∧ reply_pixmap srv ≠ 0 ∧ reply_glx_pixmap srv = 0
             ∧ r.2 = [XCompositeNameWindowPixmap (Win.xid w);
                      glXCreatePixmap (reply_pixmap srv)
                        (tfp_format_at t (attr_depth a));
                      XFreePixmap (reply_pixmap srv)])).
Proof.
  intros Hrel r. unfold r. clear r. pose proof Hrel as (Hv & Hp & Hg & Ht).
  unfold bind_window_pixmap. rewrite Hv.
  destruct (negb (Win.mapped w) || (Win.width w <=? 0) || (Win.height w <=? 0));
    [right; split; [done | by left] |].
  destruct (reply_attr srv) as [a|]; [| right; split; [done | by left]].
  destruct (negb (attr_map_state a =? IsViewable));
    [right; split; [done | by left] |].
  destruct ((attr_depth a <=? 0) || (attr_depth a >=? MAX_DEPTH)
            || negb (tfp_available_at t (attr_depth a)));
    [right; split; [done | by left] |].
  cbn [Win.pixmap Win.set_pixmap Win.glx_pixmap Win.set_glx_pixmap].
  destruct (reply_pixmap srv =? 0) eqn:Epm.
  { right. apply Z.eqb_eq in Epm. rewrite Epm. cbn [fst snd].
    split; [exact (released_set_pixmap w Hrel) | right; by left]. }
  destruct (reply_glx_pixmap srv =? 0) eqn:Eglx.
  { right. apply Z.eqb_eq in Eglx. apply Z.eqb_neq in Epm. rewrite Eglx.
    cbn [fst snd].
    split; [exact (released_glx_undone w (reply_pixmap srv) Hrel) |].
    right. right. by exists a. }
  left. exists a. done.
Qed.

(** X8.  A bind on a window that holds no binding either goes through or
    leaves the entry exactly as it was.  When it goes through the calls
    are, in order: name the pixmap, create the GLX pixmap with the format
    of the window depth, generate the texture, bind the image.  When it
    fails the calls made are none, or the naming alone (it returned no
    pixmap), or naming, GLX pixmap creation and the release of the pixmap
    just named (the GLX pixmap could not be created): nothing stays
    allocated. *)
Theorem bind_all_or_nothing (t : TfpTable) (srv : BindReply) (w : Win.t) :
  released w →
  let r := bind_window_pixmap t srv w in
  (bound r.1 ∧ Win.pixmap r.1 = reply_pixmap srv
   ∧ Win.glx_pixmap r.1 = reply_glx_pixmap srv
   ∧ Win.texture r.1 = reply_texture srv ∧ Win.damaged r.1 = true
   ∧ ∃ a, reply_attr srv = Some a ∧ r.2 = bind_calls t srv w (attr_depth a))
  ∨ (r.1 = w ∧ released r.1
     ∧ (r.2 = [] ∨ r.2 = [XCompositeNameWindowPixmap (Win.xid w)]
        ∨ ∃ a, reply_attr srv = Some a
             ∧ r.2 = [XCompositeNameWindowPixmap (Win.xid w);
                      glXCreatePixmap (reply_pixmap srv)
                        (tfp_format_at t (attr_depth a));
                      XFreePixmap (reply_pixmap srv)])).
Proof.
  intros Hrel r.
  destruct (bind_released_cases t srv w Hrel) as [(a & Ha & E1 & E2) | (E1 & E2)];
    fold r in E1, E2.
  - left. rewrite E1. split_and!; try done. by exists a.
  - right. rewrite E1. split_and!; try done.
    destruct E2 as [E2 | [E2 | (a & Ha & _ & _ & E2)]]; [by left | right; by left |].
    right. right. by exists a.
Qed.

Lemma bind_all_or_nothing_witness :
  let w := Win.set_mapped true
             (Win.set_geometry 0 0 100 50 0 (Win.set_xid 100 Win.zero)) in
  let srv := {| reply_attr := Some sample_attr; reply_pixmap := 71;
                reply_glx_pixmap := 0; reply_texture := 73 |} in
  let r := bind_window_pixmap sample_tfp srv w in
  (bound r.1 ∧ Win.pixmap r.1 = reply_pixmap srv
   ∧ Win.glx_pixmap r.1 = reply_glx_pixmap srv
   ∧ Win.texture r.1 = reply_texture srv ∧ Win.damaged r.1 = true
   ∧ ∃ a, reply_attr srv = Some a
        ∧ r.2 = bind_calls sample_tfp srv w (attr_depth a))
  ∨ (r.1 = w ∧ released r.1
     ∧ (r.2 = [] ∨ r.2 = [XCompositeNameWindowPixmap (Win.xid w)]
        ∨ ∃ a, reply_attr srv = Some a
             ∧ r.2 = [XCompositeNameWindowPixmap (Win.xid w);
                      glXCreatePixmap (reply_pixmap srv)
                        (tfp_format_at sample_tfp (attr_depth a));
                      XFreePixmap (reply_pixmap srv)])).
Proof.
  apply (bind_all_or_nothing sample_tfp
           {| reply_attr := Some sample_attr; reply_pixmap := 71;
              reply_glx_pixmap := 0; reply_texture := 73 |}
           (Win.set_mapped true
              (Win.set_geometry 0 0 100 50 0 (Win.set_xid 100 Win.zero)))).
  by vm_compute.
Defined.

(** X9.  Bind, then unbind: on a window that holds no binding, an unbind
    right after a bind that went through destroys what the bind created
    (release the image, delete the texture, destroy the GLX pixmap, free
    the pixmap) and gives back the entry as it was before the bind, except
    that it stays marked damaged; generated and deleted textures cancel
    out. *)
Theorem bind_then_unbind (t : TfpTable) (srv : BindReply) (w : Win.t) :
  released w → bound (bind_window_pixmap t srv w).1 →
  unbind_window_pixmap (bind_window_pixmap t srv w).1
  = (Win.set_damaged true w, unbind_calls srv)
  ∧ textures_alive ((bind_window_pixmap t srv w).2 ++ unbind_calls srv) = 0.
Proof.
  intros Hrel Hb.
  destruct (bind_released_cases t srv w Hrel) as [(a & Ha & E1 & E2) | (E1 & _)].
  - rewrite E1, E2. split; [| done].
    destruct Hrel as (Hv & Hp & Hg & Ht). destruct w. simpl in *. by subst.
  - rewrite E1 in Hb. destruct Hrel as (Hv & _). unfold bound in Hb. congruence.
Qed.

Lemma bind_then_unbind_witness :
  let w := Win.set_mapped true
             (Win.set_geometry 0 0 100 50 0 (Win.set_xid 100 Win.zero)) in
  unbind_window_pixmap (bind_window_pixmap sample_tfp bind_ok w).1
  = (Win.set_damaged true w, unbind_calls bind_ok)
  ∧ textures_alive ((bind_window_pixmap sample_tfp bind_ok w).2
                    ++ unbind_calls bind_ok) = 0.
Proof.
  apply (bind_then_unbind sample_tfp bind_ok
           (Win.set_mapped true
              (Win.set_geometry 0 0 100 50 0 (Win.set_xid 100 Win.zero)))).
  - by vm_compute.
  - by vm_compute.
Defined.

(** ** Rendering twice, and rendering after damage *)

Lemma drawable_conditions (e : Win.t) :
  drawable e
  = negb (negb (Win.mapped e) || negb (Win.pixmap_valid e))
    && negb ((Win.width e <=? 0) || (Win.height e <=? 0)).
Proof.
  unfold drawable. rewrite !Z.ltb_antisym.
  by destruct (Win.mapped e), (Win.pixmap_valid e), (Win.width e <=? 0),
    (Win.height e <=? 0).
Qed.

(** What pass 1 does to one entry. *)
Lemma composite_window_spec (rh : Z) (e : Win.t) :
  composite_window rh e
  = if drawable e
    then (Win.set_damaged false e,
          (if Win.damaged e
           then [glXReleaseTexImageEXT (Win.glx_pixmap e);
                 glXBindTexImageEXT (Win.glx_pixmap e)]
           else []) ++ [draw_of rh e])
    else (e, []).
Proof.
  rewrite drawable_conditions. unfold composite_window, draw_of.
  destruct (negb (Win.mapped e) || negb (Win.pixmap_valid e)); simpl;
    [done |].
  destruct ((Win.width e <=? 0) || (Win.height e <=? 0)); simpl; [done |].
  destruct (Win.damaged e) eqn:Ed; simpl; [done |].
  f_equal. destruct e. simpl in *. by subst.
Qed.

Lemma composite_window_again (rh : Z) (e : Win.t) :
  composite_window rh (composite_window rh e).1
  = ((composite_window rh e).1, if drawable e then [draw_of rh e] else []).
Proof.
  rewrite (composite_window_spec rh e).
  destruct (drawable e) eqn:Ed; simpl.
  - rewrite composite_window_spec.
    assert (drawable (Win.set_damaged false e) = true) as -> by done.
    simpl. done.
  - rewrite composite_window_spec. by rewrite Ed.
Qed.

Lemma entries_of_fmap (f : Win.t → Win.t) (h h' : gmap ptr Win.t)
    (l : list ptr) :
  (∀ q, h' !! q = f <$> h !! q) →
  entries_of h' l = f <$> entries_of h l.
Proof.
  intros Hh. unfold entries_of. induction l as [| p l IH]; [done |].
  cbn [omap list_omap]. rewrite Hh.
  destruct (h !! p) as [e|]; simpl; by rewrite IH.
Qed.

Lemma second_pass_draws (rh : Z) (es : list Win.t) :
  concat ((λ e, (composite_window rh e).2)
            <$> ((λ e, (composite_window rh e).1) <$> es))
  = draw_of rh <$> filter (λ e, drawable e = true) es.
Proof.
  induction es as [| e es IH]; [done |].
  rewrite !fmap_cons. cbn [concat]. rewrite IH, composite_window_again.
  cbn [snd]. rewrite filter_cons.
  case_decide as Ed.
  - by rewrite Ed.
  - apply not_true_is_false in Ed. by rewrite Ed.
Qed.

(** X10.  Pass 1 of [render_frame] settles: it clears the damaged mark of
    every window it draws and changes nothing else, so a second pass
    right after it leaves every entry as it is and makes draw calls only
    (one per drawable window, bottom to top): no texture is released or
    bound again until new damage arrives. *)
Theorem render_pass1_settles (s : State) (l : list ptr) :
  registry_ok s l →
  ∃ s1 s2, render_pass1 s = Some s1
    ∧ render_pass1 s1 = Some s2
    ∧ registry_ok s1 l
    ∧ comp s1 = comp s
    ∧ (∀ q e, heap s !! q = Some e →
         heap s1 !! q
         = Some (if drawable e then Win.set_damaged false e else e))
    ∧ heap s2 = heap s1 ∧ comp s2 = comp s1
    ∧ calls s2
      = calls s1
        ++ (draw_of (Comp.root_height (comp s))
              <$> filter (λ e, drawable e = true) (entries_of (heap s) l)).
Proof.
  intros Hok.
  destruct (render_pass1_ok s l Hok) as (s1 & E1 & Hok1 & Hc1 & Hk1 & Hh1).
  destruct (render_pass1_ok s1 l Hok1) as (s2 & E2 & Hok2 & Hc2 & Hk2 & Hh2).
  exists s1, s2. split_and!; try done.
  - intros q e He. rewrite Hh1, He. simpl. f_equal.
    rewrite composite_window_spec. by destruct (drawable e).
  - apply map_eq. intros q. rewrite Hh2, Hh1, Hc1.
    destruct (heap s !! q) as [e|]; [| done]. simpl.
    by rewrite composite_window_again.
  - rewrite Hk2, Hc1. f_equal.
    rewrite (entries_of_fmap
               (λ e, (composite_window (Comp.root_height (comp s)) e).1)
               (heap s) (heap s1) l Hh1).
    apply second_pass_draws.
Qed.

Lemma render_pass1_settles_witness :
  ∃ s1 s2, render_pass1 abc_state = Some s1
    ∧ render_pass1 s1 = Some s2
    ∧ registry_ok s1 [1%positive; 2%positive; 3%positive]
    ∧ comp s1 = comp abc_state
    ∧ (∀ q e, heap abc_state !! q = Some e →
         heap s1 !! q
         = Some (if drawable e then Win.set_damaged false e else e))
    ∧ heap s2 = heap s1 ∧ comp s2 = comp s1
    ∧ calls s2
      = calls s1
        ++ (draw_of (Comp.root_height (comp abc_state))
              <$> filter (λ e, drawable e = true)
                    (entries_of (heap abc_state)
                       [1%positive; 2%positive; 3%positive])).
Proof.
  apply (render_pass1_settles abc_state [1%positive; 2%positive; 3%positive]).
  apply registry_okb_sound. vm_compute. reflexivity.
Defined.

(** ** Damage notifications *)

Lemma handle_damage_tracked (s : State) (l : list ptr) (w : ptr) (e : Win.t) :
  registry_ok s l → heap s !! w = Some e →
  handle_damage (Win.xid e) s
  = Some (if negb (Win.damage e =? 0)
          then mkState (Comp.set_needs_redraw true (comp s))
                 (<[w := Win.set_damaged true e]> (heap s))
                 (calls s ++ [XDamageSubtract (Win.damage e)])
          else s).
Proof.
  intros Hok He. unfold handle_damage.
  rewrite (find_win_tracked s l w e Hok He). simpl.
  unfold load. rewrite He. simpl.
  destruct (negb (Win.damage e =? 0)); [| done].
  by rewrite (store_Some _ _ _ _ He).
Qed.

(** X11.  A damage notification for a tracked window that has a damage
    handle marks the window damaged, subtracts the damage and requests a
    redraw; the stacking order is unchanged.  If the window is drawable,
    the next pass 1 releases and re-binds its texture image right before
    drawing it, at its place in the stacking order, and clears the mark.
    A notification for a window without a damage handle is ignored. *)
Theorem damage_relatches_texture (s : State) (a b : list ptr) (w : ptr)
    (e : Win.t) (srv : Server) :
  registry_ok s (a ++ w :: b) → heap s !! w = Some e →
  let rh := Comp.root_height (comp s) in
  let pass (es : list Win.t) :=
    concat ((λ e, (composite_window rh e).2) <$> es) in
  (Win.damage e = 0 →
     handle_event srv (DamageNotify (Win.xid e)) s = Some s)
  ∧ (Win.damage e ≠ 0 →
     ∃ s1 s2, handle_event srv (DamageNotify (Win.xid e)) s = Some s1
       ∧ registry_ok s1 (a ++ w :: b)
       ∧ heap s1 = <[w := Win.set_damaged true e]> (heap s)
       ∧ calls s1 = calls s ++ [XDamageSubtract (Win.damage e)]
       ∧ Comp.needs_redraw (comp s1) = true
       ∧ render_pass1 s1 = Some s2
       ∧ (drawable e = true →
          heap s2 !! w = Some (Win.set_damaged false e)
          ∧ calls s2
            = calls s1 ++ pass (entries_of (heap s) a)
              ++ [glXReleaseTexImageEXT (Win.glx_pixmap e);
                  glXBindTexImageEXT (Win.glx_pixmap e);
                  draw_of rh e]
              ++ pass (entries_of (heap s) b))).
Proof.
  intros Hok He rh pass. simpl.
  rewrite (handle_damage_tracked s _ w e Hok He). split.
  - intros ->. done.
  - intros Hd. apply Z.eqb_neq in Hd. rewrite Hd. simpl.
    set (s1 := mkState _ _ _).
    assert (registry_ok s1 (a ++ w :: b)) as Hok1.
    { apply (registry_update s s1 _ w e (Win.set_damaged true e) Hok He);
        done. }
    destruct (render_pass1_ok s1 _ Hok1) as (s2 & E2 & Hok2 & Hc2 & Hk2 & Hh2).
    exists s1, s2. split_and!; try done.
    intros Hdr. split.
    + rewrite Hh2. simpl. rewrite lookup_insert_eq. simpl. f_equal.
      rewrite composite_window_spec.
      assert (drawable (Win.set_damaged true e) = true) as -> by done.
      by destruct e.
    + rewrite Hk2. f_equal. simpl.
      destruct Hok as ((_ & _ & Hnd) & _).
      apply NoDup_remove_middle in Hnd as [_ Hw].
      rewrite (entries_of_insert (heap s) a b w _ Hw).
      rewrite fmap_app, fmap_cons, concat_app. cbn [concat].
      fold rh. f_equal.
      rewrite composite_window_spec.
      assert (drawable (Win.set_damaged true e) = true) as -> by done.
      cbn [snd]. simpl. done.
Qed.

Lemma damage_relatches_texture_witness :
  let s := abc_state in
  let e := Win.mk 101 2101 3101 4101 1101 101 0 100 50 0 true false true true
             (Some 3%positive) (Some 1%positive) in
  let a := [1%positive] in
  let b := [3%positive] in
  let w := 2%positive in
  let rh := Comp.root_height (comp s) in
  let pass (es : list Win.t) :=
    concat ((λ e, (composite_window rh e).2) <$> es) in
  (Win.damage e = 0 →
     handle_event srv_ok (DamageNotify (Win.xid e)) s = Some s)
  ∧ (Win.damage e ≠ 0 →
     ∃ s1 s2, handle_event srv_ok (DamageNotify (Win.xid e)) s = Some s1
       ∧ registry_ok s1 (a ++ w :: b)
       ∧ heap s1 = <[w := Win.set_damaged true e]> (heap s)
       ∧ calls s1 = calls s ++ [XDamageSubtract (Win.damage e)]
       ∧ Comp.needs_redraw (comp s1) = true
       ∧ render_pass1 s1 = Some s2
       ∧ (drawable e = true →
          heap s2 !! w = Some (Win.set_damaged false e)
          ∧ calls s2
            = calls s1 ++ pass (entries_of (heap s) a)
              ++ [glXReleaseTexImageEXT (Win.glx_pixmap e);
                  glXBindTexImageEXT (Win.glx_pixmap e);
                  draw_of rh e]
              ++ pass (entries_of (heap s) b))).
Proof.
  apply (damage_relatches_texture abc_state [1%positive] [3%positive]
           2%positive).
  - apply registry_okb_sound. vm_compute. reflexivity.
  - vm_compute. reflexivity.
Defined.

(** ** The parameter file, read twice *)

Lemma read_param_lines_mtime (strtof : list ascii → option Z)
    (glGetUniformLocation : Z → string → Z) (lines : list (list ascii))
    (c : Comp.t) :
  Comp.param_mtime (read_param_lines strtof glGetUniformLocation lines c)
  = Comp.param_mtime c.
Proof.
  revert c. induction lines as [| line lines IH]; intros c; [done |].
  cbn [read_param_lines].
  destruct (Comp.param_count c <? MAX_PARAMS)%nat; [| done].
  destruct (sscanf_name_value strtof line) as [[name value] |];
    by rewrite IH.
Qed.

(** X12.  [read_params] is idempotent: polling the same file twice in a
    row gives what polling it once gives.  In particular a changed file
    that cannot be opened only has its modification time recorded (the
    ParameterSet, the redraw flag and the call log are untouched), and it
    is not tried again as long as its modification time stays the same. *)
Theorem read_params_idempotent (strtof : list ascii → option Z)
    (glGetUniformLocation : Z → string → Z) (f : ParamFile) (s : State) :
  read_params strtof glGetUniformLocation f
    (read_params strtof glGetUniformLocation f s)
  = read_params strtof glGetUniformLocation f s
  ∧ (∀ t, pf_stat f = Some t → t ≠ Comp.param_mtime (comp s) →
       pf_fopen f = None →
       read_params strtof glGetUniformLocation f s
       = with_comp (Comp.set_param_mtime t) s
       ∧ ∀ f', pf_stat f' = Some t →
           read_params strtof glGetUniformLocation f'
             (read_params strtof glGetUniformLocation f s)
           = read_params strtof glGetUniformLocation f s).
Proof.
  assert (∀ f' t, pf_stat f = Some t → pf_stat f' = Some t →
          read_params strtof glGetUniformLocation f'
            (read_params strtof glGetUniformLocation f s)
          = read_params strtof glGetUniformLocation f s) as Hsame.
  { intros f' t Ht Ht'. unfold read_params at 1. rewrite Ht'.
    assert (Comp.param_mtime
              (comp (read_params strtof glGetUniformLocation f s)) = t)
      as ->; [| by rewrite Z.eqb_refl].
    unfold read_params. rewrite Ht.
    destruct (t =? Comp.param_mtime (comp s)) eqn:Et.
    - by apply Z.eqb_eq in Et.
    - destruct (pf_fopen f); [| done]. simpl.
      by rewrite read_param_lines_mtime. }
  split.
  - destruct (pf_stat f) as [t|] eqn:Ht; [by apply (Hsame f t) |].
    unfold read_params. by rewrite Ht.
  - intros t Ht Hne Hopen. split.
    + unfold read_params. rewrite Ht, Hopen.
      apply Z.eqb_neq in Hne. by rewrite Hne.
    + intros f' Ht'. by apply (Hsame f' t).
Qed.

(** ** The parameter array stays within its bounds *)

Lemma length_string_of_list (l : list ascii) :
  String.length (string_of_list_ascii l) = length l.
Proof. induction l as [| c l IH]; [done |]. simpl. by rewrite IH. Qed.

Lemma sscanf_name_short (strtof : list ascii → option Z)
    (line name : list ascii) (value : Z) :
  sscanf_name_value strtof line = Some (name, value) →
  (length name ≤ 63)%nat.
Proof.
  unfold sscanf_name_value.
  destruct (skip_space line) as [| c l]; [done |].
  pose proof (scan_word_length 63 (c :: l)) as Hlen.
  destruct (scan_word 63 (c :: l)) as [w rest].
  destruct (strtof (skip_space rest)); [| done].
  simpl. by intros [= <- _].
Qed.

Lemma read_params_keeps_bounds (strtof : list ascii → option Z)
    (glGetUniformLocation : Z → string → Z) (f : ParamFile) (s : State) :
  params_ok (comp s) →
  params_ok (comp (read_params strtof glGetUniformLocation f s)).
Proof.
  intros (Hlen & Hcnt & Hnames).
  destruct (pf_stat f) as [t|] eqn:Ht;
    [| unfold read_params; by rewrite Ht].
  destruct (decide (t = Comp.param_mtime (comp s))) as [-> | Hne].
  { unfold read_params. by rewrite Ht, Z.eqb_refl. }
  destruct (pf_fopen f) as [content|] eqn:Hopen.
  - destruct (read_params_changed strtof glGetUniformLocation f s t content
                Ht Hne Hopen Hlen) as (Hset & Hc & _ & _ & _ & _ & _ & Hl).
    split_and!; [done | |].
    + rewrite Hc, length_take. lia.
    + rewrite Hset. apply Forall_fmap, Forall_forall.
      intros [name value] Hin. simpl. rewrite length_string_of_list.
      apply elem_of_take in Hin as (i & Hin & _).
      apply list_elem_of_lookup_2 in Hin.
      apply list_elem_of_omap in Hin as (line & _ & Hline).
      by apply (sscanf_name_short strtof line name value).
  - unfold read_params. rewrite Ht, Hopen.
    apply Z.eqb_neq in Hne. by rewrite Hne.
Qed.

Lemma reload_keeps_bounds (glGetUniformLocation : Z → string → Z)
    (srv : ShaderReply) (s : State) :
  params_ok (comp s) →
  params_ok (comp (reload_postproc_shader glGetUniformLocation srv s)).
Proof.
  intros (Hlen & Hcnt & Hnames).
  destruct (reload_succeeds srv) eqn:Hs.
  - destruct (reload_success glGetUniformLocation srv s Hs) as (_ & _ & ->).
    split_and!.
    + simpl. unfold relocate_params.
      rewrite length_app, length_fmap, <- length_app, take_drop. done.
    + done.
    + rewrite (param_set_relocated glGetUniformLocation _
                 (Comp.param_count (comp s))) by done.
      apply Forall_fmap. by apply (Forall_impl _ _ _ Hnames).
  - by destruct (reload_failure glGetUniformLocation srv s Hs) as (-> & _).
Qed.

(** X13.  The parameter array is never used outside its bounds.  If the
    array has its 16 slots, at most 16 of them are in use and every name
    in use has at most 63 characters, then the same holds after
    [read_params], whatever the file contains (more than 16 lines, names
    longer than 63 characters), and after [reload_postproc_shader]. *)
Theorem params_stay_in_bounds (strtof : list ascii → option Z)
    (glGetUniformLocation : Z → string → Z) (s : State) :
  params_ok (comp s) →
  (∀ f, params_ok (comp (read_params strtof glGetUniformLocation f s)))
  ∧ (∀ srv,
       params_ok (comp (reload_postproc_shader glGetUniformLocation srv s))).
Proof.
  intros Hok. split.
  - intros f. by apply read_params_keeps_bounds.
  - intros srv. by apply reload_keeps_bounds.
Qed.

Lemma params_stay_in_bounds_witness :
  (∀ f, params_ok (comp (read_params strtof_sample uniforms_sample f
                           state_with_params)))
  ∧ (∀ srv,
       params_ok (comp (reload_postproc_shader uniforms_sample srv
                          state_with_params))).
Proof.
  apply (params_stay_in_bounds strtof_sample uniforms_sample
           state_with_params).
  split_and!.
  - reflexivity.
  - vm_compute. lia.
  - vm_compute. repeat constructor.
Defined.

(** ** What [apply_params] sends *)

Lemma apply_params_param_set (c : Comp.t) :
  apply_params c = omap uniform_of (param_set c).
Proof. done. Qed.

Lemma omap_fmap {A B C} (f : A → B) (g : B → option C) (l : list A) :
  omap g (f <$> l) = omap (λ x, g (f x)) l.
Proof.
  induction l as [| x l IH]; [done |]. rewrite fmap_cons.
  cbn [omap list_omap]. by rewrite IH.
Qed.



(** X15.  After a hot-reload that succeeds, [apply_params] sends the same
    values as before to the locations the new program gives to the
    parameter names, and skips the names the new program does not have;
    after a reload that fails it sends exactly what it sent before. *)
Theorem apply_params_after_reload (glGetUniformLocation : Z → string → Z)
    (srv : ShaderReply) (s : State) :
  let s' := reload_postproc_shader glGetUniformLocation srv s in
  (reload_succeeds srv = true →
     apply_params (comp s')
     = omap (λ p, let loc := glGetUniformLocation (sh_program srv)
                               (param_name p) in
                  if 0 <=? loc then Some (loc, param_value p) else None)
            (param_set (comp s)))
  ∧ (reload_succeeds srv = false →
     apply_params (comp s') = apply_params (comp s)).
Proof.
  intros s'. split; intros Hs.
  - destruct (reload_success glGetUniformLocation srv s Hs) as (_ & _ & Hc).
    fold s' in Hc. rewrite apply_params_param_set, Hc.
    rewrite (param_set_relocated glGetUniformLocation _
               (Comp.param_count (comp s))) by done.
    by rewrite omap_fmap.
  - destruct (reload_failure glGetUniformLocation srv s Hs) as (Hc & _).
    fold s' in Hc. by rewrite Hc.
Qed.

(** ** Counting bound windows and live textures *)

Lemma bound_windows_fresh (h : gmap ptr Win.t) (p : ptr) (e : Win.t) :
  h !! p = None →
  bound_windows (<[p := e]> h)
  = bound_windows h + Z.b2z (Win.pixmap_valid e).
Proof.
  intros Hp. unfold bound_windows. destruct (Win.pixmap_valid e) eqn:Ev.
  - rewrite map_filter_insert_True by done.
    rewrite map_size_insert_None; [simpl; lia |].
    apply map_lookup_filter_None. by left.
  - rewrite map_filter_insert_not'; [simpl; lia | simpl; congruence |].
    intros y Hy. congruence.
Qed.

Lemma bound_windows_delete (h : gmap ptr Win.t) (p : ptr) (e : Win.t) :
  h !! p = Some e →
  bound_windows h
  = bound_windows (delete p h) + Z.b2z (Win.pixmap_valid e).
Proof.
  intros Hp. rewrite <- (insert_delete_id h p e) at 1 by done.
  apply bound_windows_fresh, lookup_delete_eq.
Qed.

Lemma bound_windows_insert (h : gmap ptr Win.t) (p : ptr) (e e' : Win.t) :
  h !! p = Some e →
  bound_windows (<[p := e']> h)
  = bound_windows h + Z.b2z (Win.pixmap_valid e') - Z.b2z (Win.pixmap_valid e).
Proof.
  intros Hp. rewrite <- insert_delete_eq.
  rewrite bound_windows_fresh by apply lookup_delete_eq.
  rewrite (bound_windows_delete h p e) by done. lia.
Qed.

Lemma textures_alive_app (a b : list XCall) :
  textures_alive (a ++ b) = textures_alive a + textures_alive b.
Proof.
  unfold textures_alive. induction a as [| c a IH]; [done |].
  simpl. rewrite IH. lia.
Qed.

(** ** The entry operations of the code have the expected shape *)

Lemma unbind_entry_fn : entry_fn unbind_window_pixmap.
Proof.
  intros e. unfold unbind_window_pixmap.
  by destruct (Win.pixmap_valid e) eqn:Ev; simpl; rewrite ?Ev.
Qed.

Lemma bind_entry_fn (t : TfpTable) (srv : BindReply) :
  entry_fn (bind_window_pixmap t srv).
Proof.
  intros e. unfold bind_window_pixmap, unbind_window_pixmap.
  destruct (Win.pixmap_valid e) eqn:Ev; simpl; rewrite ?Ev;
    destruct (reply_attr srv); split_ifs; rewrite ?Ev; done.
Qed.

Lemma damage_destroy_entry_fn : entry_fn damage_destroy.
Proof.
  intros e. unfold damage_destroy. split_ifs; simpl; split; try done; lia.
Qed.

Lemma damage_create_entry_fn (srv : Server) : entry_fn (damage_create srv).
Proof.
  intros e. unfold damage_create. split_ifs; simpl; split; try done; lia.
Qed.

Lemma damage_create_init_entry_fn (srv : Server) :
  entry_fn (damage_create_init srv).
Proof.
  intros e. unfold damage_create_init.
  split_ifs; simpl; split; try done; lia.
Qed.

Lemma composite_entry_fn (rh : Z) : entry_fn (composite_window rh).
Proof.
  intros e. unfold composite_window.
  split_ifs; simpl; split; try done; lia.
Qed.

(** ** Invariants that every primitive keeps are kept by the program *)

Section Preserved.

Variable I : State → Prop.

Hypothesis I_store : ∀ p g s s',
  field_fn g → store p g s = Some s' → I s → I s'.
Hypothesis I_entry : ∀ f p s s',
  entry_fn f → at_entry f p s = Some s' → I s → I s'.
Hypothesis I_comp : ∀ g s, comp_fn g → I s → I (with_comp g s).
Hypothesis I_emit : ∀ c s, textures_alive c = 0 → I s → I (emit c s).
Hypothesis I_free : ∀ p s e,
  heap s !! p = Some e → Win.pixmap_valid e = false → I s → I (free p s).
Hypothesis I_alloc : ∀ w xid s,
  heap s !! w = None →
  xid ≠ Comp.root (comp s) → xid ≠ Comp.overlay (comp s) →
  I s → I (with_heap (<[w := Win.set_xid xid Win.zero]> (heap s)) s).

Ltac by_store E := eapply I_store; [| exact E |]; [done |].

(** The recurring "link the neighbour, or move the end of the list". *)
Lemma link_I (v : option ptr) (g : Win.t → Win.t) (c : Comp.t → Comp.t)
    (s s' : State) :
  field_fn g → comp_fn c →
  match v with
  | Some t => store t g s
  | None => Some (with_comp c s)
  end = Some s' →
  I s → I s'.
Proof.
  intros Hg Hc H HI. destruct v as [t|].
  - by apply (I_store t g s s').
  - injection H as <-. by apply I_comp.
Qed.

Lemma unlink_I (w : ptr) (s s' : State) : unlink w s = Some s' → I s → I s'.
Proof.
  unfold unlink. intros H HI.
  apply bind_Some in H as (e & _ & H).
  apply bind_Some in H as (s1 & E1 & H).
  apply bind_Some in H as (e1 & _ & H).
  apply (link_I _ _ _ s1 s') in H; try done.
  by apply (link_I _ _ _ s s1) in E1.
Qed.

Lemma unlink_valid (w : ptr) (s s' : State) (q : ptr) :
  unlink w s = Some s' →
  field_at Win.pixmap_valid (heap s') q = field_at Win.pixmap_valid (heap s) q.
Proof.
  assert (∀ (v : option ptr) (g : Win.t → Win.t) (c : Comp.t → Comp.t)
            (s s' : State),
            match v with
            | Some t => store t g s
            | None => Some (with_comp c s)
            end = Some s' →
            field_fn g →
            field_at Win.pixmap_valid (heap s') q
            = field_at Win.pixmap_valid (heap s) q) as Hlink.
  { intros v g c s0 s0' H Hg. destruct v as [t|].
    - apply store_effect in H as (e & He & -> & _).
      rewrite field_at_insert. case_decide; [subst q | done].
      rewrite (field_at_Some _ _ _ _ He). f_equal. apply Hg.
    - by injection H as <-. }
  unfold unlink. intros H.
  apply bind_Some in H as (e & _ & H).
  apply bind_Some in H as (s1 & E1 & H).
  apply bind_Some in H as (e1 & _ & H).
  rewrite (Hlink _ _ _ s1 s' H) by done.
  by rewrite (Hlink _ _ _ s s1 E1) by done.
Qed.

Lemma remove_win_I (r : option ptr) (s s' : State) :
  remove_win r s = Some s' → I s → I s'.
Proof.
  destruct r as [w|]; [| by intros [= <-]].
  unfold remove_win, unbind_at. intros H HI.
  apply bind_Some in H as (s1 & E1 & H).
  apply bind_Some in H as (s2 & E2 & H).
  apply bind_Some in H as (s3 & E3 & H).
  apply bind_Some in H as (e3 & E4 & H). injection H as <-.
  apply (I_free w s3 e3); [done | |].
  - pose proof (unlink_valid w s2 s3 w E3) as Hv.
    apply at_entry_effect in E2 as (e1 & He1 & Hh2 & _).
    rewrite Hh2, field_at_insert, decide_True in Hv by done.
    unfold load in E4. rewrite (field_at_Some _ _ _ _ E4) in Hv.
    injection Hv as ->. apply unbind_released.
  - apply (unlink_I w s2 s3 E3).
    apply (I_entry _ w s1 s2 unbind_entry_fn E2).
    by apply (I_entry _ w s s1 damage_destroy_entry_fn E1).
Qed.

Lemma place_at_top_tail_I (w : ptr) (s0 s' : State) :
  (s ← match Comp.win_tail (comp s0) with
       | Some t => store t (Win.set_next (Some w)) s0
       | None => Some (with_comp (Comp.set_win_head (Some w)) s0)
       end;
   Some (with_comp (Comp.set_win_tail (Some w)) s)) = Some s' →
  I s0 → I s'.
Proof.
  intros H HI. apply bind_Some in H as (s1 & E1 & H). injection H as <-.
  apply I_comp; [done |]. by apply (link_I _ _ _ s0 s1) in E1.
Qed.

Lemma place_at_bottom_head_I (w : ptr) (s0 s' : State) :
  (s ← match Comp.win_head (comp s0) with
       | Some h => store h (Win.set_prev (Some w)) s0
       | None => Some (with_comp (Comp.set_win_tail (Some w)) s0)
       end;
   Some (with_comp (Comp.set_win_head (Some w)) s)) = Some s' →
  I s0 → I s'.
Proof.
  intros H HI. apply bind_Some in H as (s1 & E1 & H). injection H as <-.
  apply I_comp; [done |]. by apply (link_I _ _ _ s0 s1) in E1.
Qed.

Lemma add_win_I (oom : bool) (xid : Z) (s s' : State) (r : option ptr) :
  add_win oom xid s = Some (r, s') → I s → I s'.
Proof.
  unfold add_win. intros H HI.
  apply bind_Some in H as (found & Ef & H).
  destruct found as [?|]; [by injection H as <- <- |].
  destruct ((xid =? Comp.overlay (comp s)) || (xid =? Comp.root (comp s)))
    eqn:Ex; [by injection H as <- <- |].
  apply orb_false_iff in Ex as [Eo Er].
  apply Z.eqb_neq in Eo, Er.
  unfold calloc in H. destruct oom; [by injection H as <- <- |].
  set (w := fresh (dom (heap s))) in *.
  assert (heap s !! w = None) as Hw.
  { apply not_elem_of_dom. apply is_fresh. }
  apply bind_Some in H as (s1 & E1 & H).
  apply bind_Some in H as (s2 & E2 & H).
  apply bind_Some in H as (s3 & E3 & H). injection H as <- <-.
  apply I_comp; [done |].
  apply (link_I _ _ _ s2 s3) in E3; try done.
  by_store E2.
  by_store E1.
  by apply I_alloc.
Qed.

Lemma place_at_top_I (w : ptr) (s s' : State) :
  place_at_top w s = Some s' → I s → I s'.
Proof.
  unfold place_at_top. intros H HI.
  apply bind_Some in H as (s1 & E1 & H).
  apply bind_Some in H as (s2 & E2 & H).
  apply (place_at_top_tail_I w s2 s' H).
  by_store E2.
  by by_store E1.
Qed.

Lemma place_at_bottom_I (w : ptr) (s s' : State) :
  place_at_bottom w s = Some s' → I s → I s'.
Proof.
  unfold place_at_bottom. intros H HI.
  apply bind_Some in H as (s1 & E1 & H).
  apply bind_Some in H as (s2 & E2 & H).
  apply (place_at_bottom_head_I w s2 s' H).
  by_store E2.
  by by_store E1.
Qed.

Lemma place_above_I (w below : ptr) (s s' : State) :
  place_above w below s = Some s' → I s → I s'.
Proof.
  unfold place_above. intros H HI.
  apply bind_Some in H as (s1 & E1 & H).
  apply bind_Some in H as (b & _ & H).
  apply bind_Some in H as (s2 & E2 & H).
  apply bind_Some in H as (b' & _ & H).
  apply bind_Some in H as (s3 & E3 & H).
  by_store H.
  apply (link_I _ _ _ s2 s3) in E3; try done.
  by_store E2.
  by by_store E1.
Qed.

Lemma restack_win_I (r : option ptr) (above : Z) (s s' : State) :
  restack_win r above s = Some s' → I s → I s'.
Proof.
  destruct r as [w|]; [| by intros [= <-]].
  unfold restack_win. intros H HI.
  apply bind_Some in H as (s1 & E1 & H).
  apply bind_Some in H as (s2 & E2 & H).
  apply bind_Some in H as (s3 & E3 & H).
  assert (I s3) as HI3.
  { by_store E3.
    by_store E2.
    by apply (unlink_I w s s1). }
  destruct ((above =? XNone) || (above =? 0)).
  - by apply (place_at_bottom_I w s3 s').
  - apply bind_Some in H as (below & _ & H). destruct below as [below|].
    + by apply (place_above_I w below s3 s').
    + by apply (place_at_top_I w s3 s').
Qed.

Lemma handle_map_entry_I (srv : Server) (w : ptr) (s s' : State) :
  handle_map_entry srv w s = Some s' → I s → I s'.
Proof.
  unfold handle_map_entry, bind_at. intros H HI.
  destruct (srv_attr srv) as [attr|].
  - apply bind_Some in H as (s1 & E1 & H).
    apply bind_Some in H as (s2 & E2 & H).
    apply bind_Some in H as (s3 & E3 & H). injection H as <-.
    apply I_comp; [done |].
    apply (I_entry _ _ _ _ (bind_entry_fn _ _) E3).
    apply (I_entry _ _ _ _ (damage_create_entry_fn _) E2).
    by by_store E1.
  - by apply (remove_win_I (Some w) s s').
Qed.

Lemma handle_map_I (srv : Server) (window : Z) (s s' : State) :
  handle_map srv window s = Some s' → I s → I s'.
Proof.
  unfold handle_map. intros H HI.
  apply bind_Some in H as (found & _ & H).
  apply bind_Some in H as ([w s1] & E1 & H).
  assert (I s1) as HI1.
  { destruct found; [by injection E1 as <- <- |].
    by apply (add_win_I _ _ _ _ _ E1). }
  destruct w as [w|]; [| by injection H as <-].
  by apply (handle_map_entry_I srv w s1 s').
Qed.

Lemma handle_unmap_I (window : Z) (s s' : State) :
  handle_unmap window s = Some s' → I s → I s'.
Proof.
  unfold handle_unmap, unbind_at. intros H HI.
  apply bind_Some in H as (found & _ & H).
  destruct found as [w|]; [| by injection H as <-].
  apply bind_Some in H as (s1 & E1 & H).
  apply bind_Some in H as (s2 & E2 & H).
  apply bind_Some in H as (s3 & E3 & H). injection H as <-.
  apply I_comp; [done |].
  apply (I_entry _ _ _ _ damage_destroy_entry_fn E3).
  apply (I_entry _ _ _ _ unbind_entry_fn E2).
  by by_store E1.
Qed.

Lemma handle_destroy_I (window : Z) (s s' : State) :
  handle_destroy window s = Some s' → I s → I s'.
Proof.
  unfold handle_destroy. intros H HI.
  apply bind_Some in H as (found & _ & H).
  destruct found as [w|]; [| by injection H as <-].
  apply bind_Some in H as (s1 & E1 & H). injection H as <-.
  apply I_comp; [done |]. by apply (remove_win_I (Some w) s s1).
Qed.

Lemma handle_configure_I (srv : Server) (ev : XConfigureEvent)
    (s s' : State) :
  handle_configure srv ev s = Some s' → I s → I s'.
Proof.
  unfold handle_configure, bind_at. intros H HI.
  destruct (cfg_window ev =? Comp.root (comp s)).
  - injection H as <-. apply I_comp; [done |].
    destruct (negb (cfg_width ev =? Comp.root_width (comp s))
              || negb (cfg_height ev =? Comp.root_height (comp s)));
      [| done].
    apply I_emit; [done |]. by apply I_comp.
  - apply bind_Some in H as (found & _ & H).
    destruct found as [w|]; [| by injection H as <-].
    apply bind_Some in H as (e & _ & H).
    apply bind_Some in H as (s1 & E1 & H).
    apply bind_Some in H as (s2 & E2 & H).
    apply bind_Some in H as (e2 & _ & H).
    apply bind_Some in H as (s3 & E3 & H). injection H as <-.
    apply I_comp; [done |].
    assert (I s2) as HI2.
    { apply (restack_win_I _ _ _ _ E2). by by_store E1. }
    destruct (resized ev e && Win.mapped e2); [| by injection E3 as <-].
    by apply (I_entry _ _ _ _ (bind_entry_fn _ _) E3).
Qed.

Lemma handle_reparent_I (srv : Server) (window parent : Z) (s s' : State) :
  handle_reparent srv window parent s = Some s' → I s → I s'.
Proof.
  unfold handle_reparent. intros H HI.
  destruct (parent =? Comp.root (comp s)).
  - destruct (srv_reparent_attr srv) as [attr|]; [| by injection H as <-].
    destruct (attr_map_state attr =? IsViewable); [| by injection H as <-].
    by apply (handle_map_I srv window s s').
  - by apply (handle_destroy_I window s s').
Qed.

Lemma handle_circulate_I (window place : Z) (s s' : State) :
  handle_circulate window place s = Some s' → I s → I s'.
Proof.
  unfold handle_circulate. intros H HI.
  apply bind_Some in H as (found & _ & H).
  destruct found as [w|]; [| by injection H as <-].
  apply bind_Some in H as (s1 & E1 & H).
  apply bind_Some in H as (s2 & E2 & H).
  apply bind_Some in H as (s3 & E3 & H).
  apply bind_Some in H as (s4 & E4 & H). injection H as <-.
  apply I_comp; [done |].
  assert (I s3) as HI3.
  { by_store E3. by_store E2. by apply (unlink_I w s s1). }
  destruct (place =? PlaceOnTop).
  - apply bind_Some in E4 as (s5 & E5 & E4).
    apply (place_at_top_tail_I w s5 s4 E4). by by_store E5.
  - apply bind_Some in E4 as (s5 & E5 & E4).
    apply (place_at_bottom_head_I w s5 s4 E4). by by_store E5.
Qed.

Lemma handle_damage_I (drawable : Z) (s s' : State) :
  handle_damage drawable s = Some s' → I s → I s'.
Proof.
  unfold handle_damage. intros H HI.
  apply bind_Some in H as (found & _ & H).
  destruct found as [w|]; [| by injection H as <-].
  apply bind_Some in H as (e & _ & H).
  destruct (negb (Win.damage e =? 0)); [| by injection H as <-].
  apply bind_Some in H as (s1 & E1 & H). injection H as <-.
  apply I_comp; [done |]. apply I_emit; [done |]. by by_store E1.
Qed.

Lemma handle_event_I (srv : Server) (ev : XEvent) (s s' : State) :
  handle_event srv ev s = Some s' → I s → I s'.
Proof.
  destruct ev; simpl.
  - apply handle_map_I.
  - apply handle_unmap_I.
  - apply handle_destroy_I.
  - apply handle_configure_I.
  - apply handle_reparent_I.
  - apply handle_circulate_I.
  - apply handle_damage_I.
  - by intros [= <-].
Qed.

Lemma handle_events_I (evs : list (Server * XEvent)) (s s' : State) :
  handle_events evs s = Some s' → I s → I s'.
Proof.
  revert s. induction evs as [| [srv ev] evs IH]; intros s; simpl.
  - by intros [= <-].
  - intros H HI. apply bind_Some in H as (s1 & E1 & H).
    apply (IH s1 H). by apply (handle_event_I srv ev s s1).
Qed.

Lemma composite_from_I (fuel : nat) (w : option ptr) (s s' : State) :
  composite_from fuel w s = Some s' → I s → I s'.
Proof.
  revert w s. induction fuel as [| fuel IH]; intros w s; simpl.
  - destruct w; [done | by intros [= <-]].
  - destruct w as [p|]; [| by intros [= <-]].
    intros H HI. apply bind_Some in H as (s1 & E1 & H).
    apply bind_Some in H as (e & _ & H).
    apply (IH _ s1 H).
    by apply (I_entry _ _ _ _ (composite_entry_fn _) E1).
Qed.

Lemma render_frame_I (s s' : State) : render_frame s = Some s' → I s → I s'.
Proof.
  unfold render_frame, render_pass1. intros H HI.
  apply bind_Some in H as (s1 & E1 & H). injection H as <-.
  apply I_emit; [done |]. by apply (composite_from_I _ _ s s1 E1).
Qed.

Lemma init_child_I (child : Z) (srv : Server) (s s' : State) :
  init_child child srv s = Some s' → I s → I s'.
Proof.
  unfold init_child, bind_at. intros H HI.
  destruct (srv_attr srv) as [attr|]; [| by injection H as <-].
  destruct (negb (attr_map_state attr =? IsViewable));
    [by injection H as <- |].
  destruct (child =? Comp.overlay (comp s)); [by injection H as <- |].
  apply bind_Some in H as ([w s1] & E1 & H).
  apply (add_win_I _ _ _ _ _ E1) in HI.
  destruct w as [w|]; [| by injection H as <-].
  apply bind_Some in H as (s2 & E2 & H).
  apply bind_Some in H as (s3 & E3 & H).
  apply (I_entry _ _ _ _ (bind_entry_fn _ _) H).
  apply (I_entry _ _ _ _ (damage_create_init_entry_fn _) E3).
  by by_store E2.
Qed.

Lemma init_children_I (children : list (Z * Server)) (s s' : State) :
  init_children children s = Some s' → I s → I s'.
Proof.
  revert s. induction children as [| [child srv] children IH]; intros s; simpl.
  - by intros [= <-].
  - intros H HI. apply bind_Some in H as (s1 & E1 & H).
    apply (IH s1 H). by apply (init_child_I child srv s s1).
Qed.

Lemma init_windows_I (tree : option (list (Z * Server))) (s s' : State) :
  init_windows tree s = Some s' → I s → I s'.
Proof.
  unfold init_windows. intros H HI.
  apply bind_Some in H as (s1 & E1 & H). injection H as <-.
  apply I_comp; [done |]. destruct tree as [children|].
  - by apply (init_children_I children s s1).
  - by injection E1 as <-.
Qed.

Lemma cleanup_from_I (fuel : nat) (w : option ptr) (s s' : State) :
  cleanup_from fuel w s = Some s' → I s → I s'.
Proof.
  revert w s. induction fuel as [| fuel IH]; intros w s; simpl.
  - destruct w; [done | by intros [= <-]].
  - destruct w as [p|]; [| by intros [= <-]].
    unfold unbind_at. intros H HI.
    apply bind_Some in H as (e & _ & H).
    apply bind_Some in H as (s1 & E1 & H).
    apply bind_Some in H as (e1 & E2 & H).
    apply (IH _ _ H). apply (I_free p s1 e1 E2).
    + apply at_entry_effect in E1 as (e0 & _ & Hh & _).
      unfold load in E2. rewrite Hh, lookup_insert_eq in E2.
      injection E2 as <-. apply unbind_released.
    + apply (I_entry _ _ _ _ unbind_entry_fn E1).
      destruct (negb (Win.damage e =? 0)); [| done]. by apply I_emit.
Qed.

Lemma cleanup_windows_I (s s' : State) :
  cleanup_windows s = Some s' → I s → I s'.
Proof.
  unfold cleanup_windows. intros H HI.
  apply bind_Some in H as (s1 & E1 & H). injection H as <-.
  apply I_comp; [done |]. apply I_comp; [done |].
  by apply (cleanup_from_I _ _ s s1 E1).
Qed.

Lemma reload_I (glGetUniformLocation : Z → string → Z) (srv : ShaderReply)
    (s : State) :
  I s → I (reload_postproc_shader glGetUniformLocation srv s).
Proof.
  intros HI. unfold reload_postproc_shader, compile_shader, link_program.
  destruct (sh_source srv); [| done].
  destruct (negb (sh_compile_ok srv)); simpl.
  { by apply I_emit. }
  destruct (sh_shader srv =? 0); [by apply I_emit |].
  destruct (negb (sh_link_ok srv)); simpl.
  { apply I_emit; [done |]. by apply I_emit. }
  destruct (sh_program srv =? 0).
  { apply I_emit; [done |]. by apply I_emit. }
  repeat (apply I_comp; [done |]).
  repeat (apply I_emit; [done |]). done.
Qed.

Lemma read_param_lines_shape (strtof : list ascii → option Z)
    (glGetUniformLocation : Z → string → Z) (lines : list (list ascii))
    (c : Comp.t) :
  ∃ ps n, read_param_lines strtof glGetUniformLocation lines c
          = Comp.set_params ps (Comp.set_param_count n c).
Proof.
  revert c. induction lines as [| line lines IH]; intros c.
  - exists (Comp.params c), (Comp.param_count c). by destruct c.
  - cbn [read_param_lines].
    destruct (Comp.param_count c <? MAX_PARAMS)%nat.
    + destruct (sscanf_name_value strtof line) as [[name value] |].
      * destruct (IH (Comp.set_params
                        (<[Comp.param_count c :=
                             {| param_name := strncpy63 name;
                                param_value := value;
                                param_location :=
                                  glGetUniformLocation
                                    (Comp.postproc_prog
                                       (Comp.set_param_count
                                          (S (Comp.param_count c)) c))
                                    (string_of_list_ascii name) |}]>
                           (Comp.params
                              (Comp.set_param_count
                                 (S (Comp.param_count c)) c)))
                        (Comp.set_param_count (S (Comp.param_count c)) c)))
          as (ps & n & ->).
        by exists ps, n.
      * apply IH.
    + exists (Comp.params c), (Comp.param_count c). by destruct c.
Qed.

Lemma read_params_I (strtof : list ascii → option Z)
    (glGetUniformLocation : Z → string → Z) (f : ParamFile) (s : State) :
  I s → I (read_params strtof glGetUniformLocation f s).
Proof.
  intros HI. unfold read_params.
  destruct (pf_stat f) as [t|]; [| done].
  destruct (t =? Comp.param_mtime (comp s)); [done |].
  destruct (pf_fopen f) as [content|]; [| by apply I_comp].
  apply I_comp; [done |]. apply I_comp.
  - intros c.
    by destruct (read_param_lines_shape strtof glGetUniformLocation
                   (fgets_lines content) c) as (ps & n & ->).
  - apply I_comp; [done |]. by apply I_comp.
Qed.

Lemma main_iteration_I (strtof : list ascii → option Z)
    (glGetUniformLocation : Z → string → Z) (t : Tick) (m m' : Loop) :
  main_iteration strtof glGetUniformLocation t m = Some m' →
  I (loop_state m) → I (loop_state m').
Proof.
  unfold main_iteration. intros H HI.
  apply bind_Some in H as (s1 & E1 & H).
  apply (handle_events_I _ _ _ E1) in HI.
  set (s2 := match tick_reload t with Some _ => _ | None => s1 end) in H.
  assert (I s2) as HI2.
  { unfold s2. destruct (tick_reload t); [| done].
    apply I_comp; [done |]. by apply reload_I. }
  clearbody s2.
  destruct (param_check_ctr m + 1 >=? 30).
  - set (s3 := read_params _ _ _ s2) in H.
    assert (I s3) as HI3 by by apply read_params_I.
    clearbody s3.
    apply bind_Some in H as ([s4 n] & E4 & H). injection H as <-. simpl.
    destruct (Comp.needs_redraw (comp s3));
      [| injection E4 as <- _; by apply I_comp].
    apply bind_Some in E4 as (s5 & E5 & E4). injection E4 as <- _.
    apply (I_comp (λ c, Comp.set_needs_redraw true
                          (Comp.set_needs_redraw false c)) s5); [done |].
    by apply (render_frame_I s3 s5).
  - apply bind_Some in H as ([s4 n] & E4 & H). injection H as <-. simpl.
    destruct (Comp.needs_redraw (comp s2));
      [| injection E4 as <- _; by apply I_comp].
    apply bind_Some in E4 as (s5 & E5 & E4). injection E4 as <- _.
    apply (I_comp (λ c, Comp.set_needs_redraw true
                          (Comp.set_needs_redraw false c)) s5); [done |].
    by apply (render_frame_I s2 s5).
Qed.

Lemma main_loop_I (strtof : list ascii → option Z)
    (glGetUniformLocation : Z → string → Z) (ticks : list Tick)
    (m m' : Loop) :
  main_loop strtof glGetUniformLocation ticks m = Some m' →
  I (loop_state m) → I (loop_state m').
Proof.
  revert m. induction ticks as [| t ticks IH]; intros m; simpl.
  - by intros [= <-].
  - intros H HI. apply bind_Some in H as (m1 & E1 & H).
    apply (IH m1 H).
    by apply (main_iteration_I strtof glGetUniformLocation t m m1).
Qed.

End Preserved.

(** ** Three invariants of the whole run *)

Lemma no_self_store (p : ptr) (g : Win.t → Win.t) (s s' : State) :
  field_fn g → store p g s = Some s' → no_self s → no_self s'.
Proof.
  intros Hg H HI. apply store_effect in H as (e & He & Hh & Hc & _).
  intros q e' Hq. rewrite Hc. rewrite Hh in Hq.
  destruct (decide (q = p)) as [-> | Hne].
  - rewrite lookup_insert_eq in Hq. injection Hq as <-.
    rewrite (proj1 (Hg e)). by apply (HI p e).
  - rewrite lookup_insert_ne in Hq by done. by apply (HI q e').
Qed.

Lemma no_self_entry (f : Win.t → Win.t * list XCall) (p : ptr)
    (s s' : State) :
  entry_fn f → at_entry f p s = Some s' → no_self s → no_self s'.
Proof.
  intros Hf H HI. apply at_entry_effect in H as (e & He & Hh & Hc & _).
  intros q e' Hq. rewrite Hc. rewrite Hh in Hq.
  destruct (decide (q = p)) as [-> | Hne].
  - rewrite lookup_insert_eq in Hq. injection Hq as <-.
    rewrite (proj1 (Hf e)). by apply (HI p e).
  - rewrite lookup_insert_ne in Hq by done. by apply (HI q e').
Qed.

Lemma no_self_comp (g : Comp.t → Comp.t) (s : State) :
  comp_fn g → no_self s → no_self (with_comp g s).
Proof.
  intros Hg HI q e Hq. simpl in *. destruct (Hg (comp s)) as (-> & -> & _).
  by apply (HI q e).
Qed.

Lemma no_self_emit (c : list XCall) (s : State) :
  textures_alive c = 0 → no_self s → no_self (emit c s).
Proof. intros _ HI q e Hq. by apply (HI q e). Qed.

Lemma no_self_free (p : ptr) (s : State) (e : Win.t) :
  heap s !! p = Some e → Win.pixmap_valid e = false →
  no_self s → no_self (free p s).
Proof.
  intros _ _ HI q e' Hq. simpl in *.
  apply lookup_delete_Some in Hq as [_ Hq]. by apply (HI q e').
Qed.

Lemma no_self_alloc (w : ptr) (xid : Z) (s : State) :
  heap s !! w = None →
  xid ≠ Comp.root (comp s) → xid ≠ Comp.overlay (comp s) →
  no_self s →
  no_self (with_heap (<[w := Win.set_xid xid Win.zero]> (heap s)) s).
Proof.
  intros _ Hr Ho HI q e Hq. simpl in *.
  destruct (decide (q = w)) as [-> | Hne].
  - rewrite lookup_insert_eq in Hq. by injection Hq as <-.
  - rewrite lookup_insert_ne in Hq by done. by apply (HI q e).
Qed.

Ltac inv_no_self :=
  first [exact no_self_store | exact no_self_entry | exact no_self_comp
        | exact no_self_emit | exact no_self_free | exact no_self_alloc].

Lemma tex_balance_store (k : Z) (p : ptr) (g : Win.t → Win.t) (s s' : State) :
  field_fn g → store p g s = Some s' → tex_balance k s → tex_balance k s'.
Proof.
  intros Hg H HI. apply store_effect in H as (e & He & Hh & _ & Hk).
  unfold tex_balance in *.
  rewrite Hk, Hh, (bound_windows_insert _ _ e) by done.
  rewrite (proj2 (Hg e)). lia.
Qed.

Lemma tex_balance_entry (k : Z) (f : Win.t → Win.t * list XCall) (p : ptr)
    (s s' : State) :
  entry_fn f → at_entry f p s = Some s' → tex_balance k s → tex_balance k s'.
Proof.
  intros Hf H HI. apply at_entry_effect in H as (e & He & Hh & _ & Hk).
  unfold tex_balance in *.
  rewrite Hk, Hh, (bound_windows_insert _ _ e), textures_alive_app by done.
  rewrite (proj2 (Hf e)). lia.
Qed.

Lemma tex_balance_comp (k : Z) (g : Comp.t → Comp.t) (s : State) :
  comp_fn g → tex_balance k s → tex_balance k (with_comp g s).
Proof. done. Qed.

Lemma tex_balance_emit (k : Z) (c : list XCall) (s : State) :
  textures_alive c = 0 → tex_balance k s → tex_balance k (emit c s).
Proof.
  intros Hc HI. unfold tex_balance in *. simpl.
  rewrite textures_alive_app. lia.
Qed.

Lemma tex_balance_free (k : Z) (p : ptr) (s : State) (e : Win.t) :
  heap s !! p = Some e → Win.pixmap_valid e = false →
  tex_balance k s → tex_balance k (free p s).
Proof.
  intros He Hv HI. unfold tex_balance in *. simpl.
  rewrite (bound_windows_delete _ _ e He), Hv in HI. simpl in HI. lia.
Qed.

Lemma tex_balance_alloc (k : Z) (w : ptr) (xid : Z) (s : State) :
  heap s !! w = None →
  xid ≠ Comp.root (comp s) → xid ≠ Comp.overlay (comp s) →
  tex_balance k s →
  tex_balance k (with_heap (<[w := Win.set_xid xid Win.zero]> (heap s)) s).
Proof.
  intros Hw _ _ HI. unfold tex_balance in *. simpl.
  rewrite bound_windows_fresh by done. simpl. lia.
Qed.

Ltac inv_tex_balance :=
  first [exact (tex_balance_store _) | exact (tex_balance_entry _)
        | exact (tex_balance_comp _) | exact (tex_balance_emit _)
        | exact (tex_balance_free _) | exact (tex_balance_alloc _)].

Lemma redraw_store (p : ptr) (g : Win.t → Win.t) (s s' : State) :
  field_fn g → store p g s = Some s' → redraw_pending s → redraw_pending s'.
Proof.
  intros _ H HI. apply store_effect in H as (e & _ & _ & Hc & _).
  unfold redraw_pending. by rewrite Hc.
Qed.

Lemma redraw_entry (f : Win.t → Win.t * list XCall) (p : ptr)
    (s s' : State) :
  entry_fn f → at_entry f p s = Some s' →
  redraw_pending s → redraw_pending s'.
Proof.
  intros _ H HI. apply at_entry_effect in H as (e & _ & _ & Hc & _).
  unfold redraw_pending. by rewrite Hc.
Qed.

Lemma redraw_comp (g : Comp.t → Comp.t) (s : State) :
  comp_fn g → redraw_pending s → redraw_pending (with_comp g s).
Proof. intros Hg HI. by apply (Hg (comp s)). Qed.

Lemma redraw_emit (c : list XCall) (s : State) :
  textures_alive c = 0 → redraw_pending s → redraw_pending (emit c s).
Proof. done. Qed.

Lemma redraw_free (p : ptr) (s : State) (e : Win.t) :
  heap s !! p = Some e → Win.pixmap_valid e = false →
  redraw_pending s → redraw_pending (free p s).
Proof. done. Qed.

Lemma redraw_alloc (w : ptr) (xid : Z) (s : State) :
  heap s !! w = None →
  xid ≠ Comp.root (comp s) → xid ≠ Comp.overlay (comp s) →
  redraw_pending s →
  redraw_pending (with_heap (<[w := Win.set_xid xid Win.zero]> (heap s)) s).
Proof. done. Qed.

Ltac inv_redraw :=
  first [exact redraw_store | exact redraw_entry | exact redraw_comp
        | exact redraw_emit | exact redraw_free | exact redraw_alloc].

(** ** The main loop always returns *)

Lemma registry_ok_frame (s s' : State) (l : list ptr) :
  heap s' = heap s →
  Comp.win_head (comp s') = Comp.win_head (comp s) →
  Comp.win_tail (comp s') = Comp.win_tail (comp s) →
  registry_ok s l → registry_ok s' l.
Proof.
  intros Hh Hhd Htl Hok. unfold registry_ok, linked in *.
  by rewrite Hh, Hhd, Htl.
Qed.

Lemma reload_registry (glGetUniformLocation : Z → string → Z)
    (srv : ShaderReply) (s : State) (l : list ptr) :
  registry_ok s l →
  registry_ok (reload_postproc_shader glGetUniformLocation srv s) l.
Proof.
  intros Hok. destruct (reload_succeeds srv) eqn:Hs.
  - destruct (reload_success glGetUniformLocation srv s Hs) as (_ & Hh & Hc).
    apply (registry_ok_frame s); [done | | | done]; by rewrite Hc.
  - destruct (reload_failure glGetUniformLocation srv s Hs) as (Hc & Hh & _).
    apply (registry_ok_frame s); [done | | | done]; by rewrite Hc.
Qed.

Lemma read_params_registry (strtof : list ascii → option Z)
    (glGetUniformLocation : Z → string → Z) (f : ParamFile) (s : State)
    (l : list ptr) :
  registry_ok s l →
  registry_ok (read_params strtof glGetUniformLocation f s) l.
Proof.
  intros Hok. unfold read_params.
  destruct (pf_stat f) as [t|]; [| done].
  destruct (t =? Comp.param_mtime (comp s)); [done |].
  destruct (pf_fopen f) as [content|]; [| done].
  apply (registry_ok_frame s); [done | | | done]; simpl;
    by destruct (read_param_lines_shape strtof glGetUniformLocation
                   (fgets_lines content)
                   (Comp.set_param_count 0
                      (Comp.set_param_mtime t (comp s)))) as (ps & n & ->).
Qed.

Lemma render_frame_ok (s : State) (l : list ptr) :
  registry_ok s l →
  ∃ s', render_frame s = Some s' ∧ registry_ok s' l ∧ comp s' = comp s.
Proof.
  intros Hok.
  destruct (render_pass1_ok s l Hok) as (s1 & E1 & Hok1 & Hc1 & _).
  unfold render_frame. rewrite E1. simpl. eexists. split; [done |].
  split; [| done]. by apply (registry_ok_frame s1).
Qed.

Lemma main_iteration_ok (strtof : list ascii → option Z)
    (glGetUniformLocation : Z → string → Z) (t : Tick) (m : Loop)
    (l : list ptr) :
  registry_ok (loop_state m) l →
  ∃ m' l', main_iteration strtof glGetUniformLocation t m = Some m'
    ∧ registry_ok (loop_state m') l'
    ∧ redraw_pending (loop_state m')
    ∧ param_check_ctr m'
      = (if param_check_ctr m + 1 >=? 30 then 0 else param_check_ctr m + 1)
    ∧ (redraw_pending (loop_state m) → frames m' = S (frames m)).
Proof.
  intros Hok. unfold main_iteration.
  destruct (handle_events_ok (tick_events t) _ l Hok) as (s1 & l1 & E1 & Hok1).
  rewrite E1. cbn [mbind option_bind].
  assert (redraw_pending (loop_state m) → redraw_pending s1) as Hr1.
  { apply (handle_events_I redraw_pending) with (evs := tick_events t);
      try inv_redraw. done. }
  set (s2 := match tick_reload t with Some _ => _ | None => s1 end).
  assert (registry_ok s2 l1
          ∧ (redraw_pending (loop_state m) → redraw_pending s2))
    as (Hok2 & Hr2).
  { unfold s2. destruct (tick_reload t) as [srv|]; [| done]. split.
    - apply (registry_redraw _ l1 true). by apply reload_registry.
    - done. }
  clearbody s2.
  set (r := if param_check_ctr m + 1 >=? 30 then _ else _).
  assert (∃ s3, r = ((if param_check_ctr m + 1 >=? 30 then 0
                      else param_check_ctr m + 1), s3)
                ∧ registry_ok s3 l1
                ∧ (redraw_pending (loop_state m) → redraw_pending s3))
    as (s3 & -> & Hok3 & Hr3).
  { unfold r. destruct (param_check_ctr m + 1 >=? 30).
    - eexists. split; [done |]. split; [by apply read_params_registry |].
      intros Hr. apply (read_params_I redraw_pending); try inv_redraw.
      by apply Hr2.
    - by exists s2. }
  destruct (render_frame_ok s3 l1 Hok3) as (s4 & E4 & Hok4 & Hc4).
  destruct (Comp.needs_redraw (comp s3)) eqn:Hn.
  - rewrite E4. cbn [mbind option_bind]. eexists _, l1. split; [done |].
    simpl. split_and!; done.
  - cbn [mbind option_bind]. eexists _, l1. split; [done |].
    simpl. split_and!; try done.
    intros Hr. apply Hr3 in Hr. unfold redraw_pending in Hr. congruence.
Qed.

Lemma main_loop_ok (strtof : list ascii → option Z)
    (glGetUniformLocation : Z → string → Z) (ticks : list Tick) (m : Loop)
    (l : list ptr) :
  registry_ok (loop_state m) l →
  ∃ m' l', main_loop strtof glGetUniformLocation ticks m = Some m'
    ∧ registry_ok (loop_state m') l'
    ∧ (redraw_pending (loop_state m) →
       redraw_pending (loop_state m')
       ∧ frames m' = (frames m + length ticks)%nat)
    ∧ (0 ≤ param_check_ctr m < 30 →
       param_check_ctr m'
       = (param_check_ctr m + Z.of_nat (length ticks)) mod 30).
Proof.
  revert m l. induction ticks as [| t ticks IH]; intros m l Hok.
  - exists m, l. cbn [main_loop length].
    split; [done |]. split; [done |]. split.
    + intros Hr. split; [done | lia].
    + intros Hc. rewrite Z.add_0_r, Z.mod_small; lia.
  - destruct (main_iteration_ok strtof glGetUniformLocation t m l Hok)
      as (m1 & l1 & E1 & Hok1 & Hr1 & Hc1 & Hf1).
    destruct (IH m1 l1 Hok1) as (m' & l' & E' & Hok' & Hr' & Hc').
    exists m', l'. cbn [main_loop]. rewrite E1. cbn [mbind option_bind].
    split; [done |]. split; [done |]. split.
    + intros Hr. destruct (Hr' Hr1) as (Hr2 & Hf2). split; [done |].
      rewrite Hf2, (Hf1 Hr). simpl. lia.
    + intros Hc.
      assert (0 ≤ param_check_ctr m1 < 30
              ∧ param_check_ctr m1 = (param_check_ctr m + 1) mod 30)
        as (Hc1' & Hc1'').
      { rewrite Hc1. destruct (Z.geb_spec (param_check_ctr m + 1) 30).
        - assert (param_check_ctr m + 1 = 30) as -> by lia. done.
        - rewrite Z.mod_small by lia. lia. }
      rewrite (Hc' Hc1'), Hc1''. cbn [length].
      rewrite Nat2Z.inj_succ, Zplus_mod_idemp_l. f_equal. lia.
Qed.

(** ** Shutdown *)

Lemma cleanup_from_spec (l : list ptr) :
  ∀ (fuel : nat) (s : State) (cur : option ptr),
  seg Win.next (heap s) cur l None → NoDup l → (length l ≤ fuel)%nat →
  ∃ s', cleanup_from fuel cur s = Some s'
    ∧ comp s' = comp s
    ∧ calls s'
      = calls s ++ concat ((λ e, (damage_destroy e).2
                                 ++ (unbind_window_pixmap e).2)
                             <$> entries_of (heap s) l)
    ∧ (∀ q, heap s' !! q = if decide (q ∈ l) then None else heap s !! q).
Proof.
  induction l as [| p l IH]; intros fuel s cur Hseg Hnd Hlen.
  - simpl in Hseg. subst cur. exists s.
    assert (cleanup_from fuel None s = Some s) as E by by destruct fuel.
    split_and!; [done | done | cbn; by rewrite app_nil_r |].
    intros q. rewrite decide_False; [done | apply not_elem_of_nil].
  - simpl in Hseg. destruct Hseg as (-> & e & He & Hseg).
    apply NoDup_cons in Hnd as [Hp Hnd].
    destruct fuel as [| fuel]; [simpl in Hlen; lia |].
    cbn [cleanup_from]. change (load p s) with (heap s !! p). rewrite He.
    cbn [mbind option_bind].
    set (s0 := if negb (Win.damage e =? 0)
               then emit [XDamageDestroy (Win.damage e)] s else s).
    assert (heap s0 = heap s ∧ comp s0 = comp s
            ∧ calls s0 = calls s ++ (damage_destroy e).2)
      as (Hh0 & Hc0 & Hk0).
    { unfold s0, damage_destroy.
      destruct (negb (Win.damage e =? 0)); simpl; rewrite ?app_nil_r; done. }
    clearbody s0.
    unfold unbind_at. rewrite (at_entry_Some _ _ s0 e) by by rewrite Hh0.
    cbn [mbind option_bind].
    set (s1 := mkState _ _ _).
    assert (load p s1 = Some (unbind_window_pixmap e).1) as ->
      by (unfold load, s1; simpl; apply lookup_insert_eq).
    cbn [mbind option_bind].
    set (s2 := free p s1).
    assert (∀ q, q ≠ p → heap s2 !! q = heap s !! q) as Hsame.
    { intros q Hq. unfold s2, s1. simpl.
      by rewrite lookup_delete_ne, lookup_insert_ne, Hh0. }
    destruct (IH fuel s2 (Win.next e)) as (s' & E & Hc & Hcalls & Hheap).
    { eapply seg_frame; [| done]. intros q Hq. unfold field_at.
      rewrite Hsame; [done |]. congruence. }
    { done. }
    { simpl in Hlen. lia. }
    exists s'. split; [done |]. split; [by rewrite Hc |]. split.
    + rewrite Hcalls. rewrite (entries_of_frame (heap s)).
      2: { intros q Hq. apply Hsame. congruence. }
      unfold entries_of at 2. cbn [omap list_omap]. rewrite He.
      rewrite fmap_cons. cbn [concat]. unfold s2, s1. simpl.
      rewrite Hk0, <- !app_assoc. done.
    + intros q. rewrite Hheap.
      destruct (decide (q = p)) as [-> | Hne].
      * rewrite decide_False by done. rewrite decide_True by by left.
        unfold s2, s1. simpl. apply lookup_delete_eq.
      * rewrite Hsame by done.
        repeat case_decide; try done.
        -- destruct H0. by right.
        -- apply elem_of_cons in H0 as [? | ?]; done.
Qed.

Lemma cleanup_windows_ok (s : State) (l : list ptr) :
  registry_ok s l →
  ∃ s', cleanup_windows s = Some s'
    ∧ heap s' = ∅
    ∧ comp s' = Comp.set_win_head None (Comp.set_win_tail None (comp s))
    ∧ calls s'
      = calls s ++ concat ((λ e, (damage_destroy e).2
                                 ++ (unbind_window_pixmap e).2)
                             <$> entries_of (heap s) l)
    ∧ registry_ok s' [].
Proof.
  intros Hok. pose proof Hok as ((Hf & Hb & Hnd) & Hdom & Hx).
  destruct (cleanup_from_spec l (size (heap s)) s _ Hf Hnd)
    as (s1 & E & Hc & Hcalls & Hheap).
  { apply linked_length. apply Hok. }
  assert (heap s1 = ∅) as Hempty.
  { apply map_eq. intros q. rewrite Hheap, lookup_empty.
    case_decide as Hq; [done |].
    destruct (heap s !! q) as [e|] eqn:Eq; [| done].
    destruct Hq. apply Hdom. eauto. }
  unfold cleanup_windows. rewrite E. cbn [mbind option_bind].
  eexists. split; [done |]. simpl. split_and!; try done.
  - by rewrite Hc.
  - split_and!.
    + split_and!; [done | done | constructor].
    + simpl. rewrite Hempty. intros p [e Hp]. by rewrite lookup_empty in Hp.
    + constructor.
Qed.

(** X16.  Shutdown releases every window.  On a well-formed registry the
    window loop of [cleanup_compositor] returns with no entry left
    allocated and an empty list; going bottom to top it destroys the
    damage handle of every window that has one and releases the binding
    of every window that holds one (release the image, delete the texture,
    destroy the GLX pixmap, free the pixmap), and makes no other call. *)
Theorem cleanup_frees_every_window (s : State) (l : list ptr) :
  registry_ok s l →
  ∃ s', cleanup_windows s = Some s'
    ∧ heap s' = ∅
    ∧ Comp.win_head (comp s') = None ∧ Comp.win_tail (comp s') = None
    ∧ stacking_order s' = Some []
    ∧ calls s'
      = calls s ++ concat ((λ e, (damage_destroy e).2
                                 ++ (unbind_window_pixmap e).2)
                             <$> entries_of (heap s) l).
Proof.
  intros Hok.
  destruct (cleanup_windows_ok s l Hok) as (s' & E & Hh & Hc & Hk & Hok').
  exists s'. split_and!; try done.
  - by rewrite Hc.
  - by rewrite Hc.
  - by apply registry_order.
Qed.

Lemma cleanup_frees_every_window_witness :
  ∃ s', cleanup_windows abc_state = Some s'
    ∧ heap s' = ∅
    ∧ Comp.win_head (comp s') = None ∧ Comp.win_tail (comp s') = None
    ∧ stacking_order s' = Some []
    ∧ calls s'
      = calls abc_state
        ++ concat ((λ e, (damage_destroy e).2 ++ (unbind_window_pixmap e).2)
                     <$> entries_of (heap abc_state)
                           [1%positive; 2%positive; 3%positive]).
Proof.
  apply (cleanup_frees_every_window abc_state
           [1%positive; 2%positive; 3%positive]).
  apply registry_okb_sound. vm_compute. reflexivity.
Defined.

(** ** The whole run *)

Lemma no_self_untracked (s : State) (l : list ptr) :
  registry_ok s l → no_self s →
  find_win s (Comp.root (comp s)) = Some None
  ∧ find_win s (Comp.overlay (comp s)) = Some None.
Proof.
  intros Hok HI.
  split; apply (find_win_untracked s l _ Hok); intros Hin;
    apply elem_of_xids_of in Hin as (p & _ & Hp);
    apply field_at_allocated in Hp as (e & He & Hx);
    destruct (HI p e He); congruence.
Qed.

(** X17.  The compositor never tracks its own overlay or the root.  From
    a state in which neither has an entry, any number of main-loop
    iterations (any events, server answers, reloads and parameter files)
    returns and leaves neither with an entry: looking either up finds
    nothing. *)
Theorem root_and_overlay_never_tracked (strtof : list ascii → option Z)
    (glGetUniformLocation : Z → string → Z) (ticks : list Tick) (m : Loop)
    (l : list ptr) :
  registry_ok (loop_state m) l → no_self (loop_state m) →
  ∃ m', main_loop strtof glGetUniformLocation ticks m = Some m'
    ∧ no_self (loop_state m')
    ∧ find_win (loop_state m') (Comp.root (comp (loop_state m')))
      = Some None
    ∧ find_win (loop_state m') (Comp.overlay (comp (loop_state m')))
      = Some None.
Proof.
  intros Hok HI.
  destruct (main_loop_ok strtof glGetUniformLocation ticks m l Hok)
    as (m' & l' & E & Hok' & _).
  assert (no_self (loop_state m')) as HI'.
  { revert E HI. apply (main_loop_I no_self); inv_no_self. }
  exists m'. split; [done |]. split; [done |].
  by apply (no_self_untracked _ l').
Qed.

Lemma root_and_overlay_never_tracked_witness :
  ∃ m', main_loop strtof_sample uniforms_sample sample_ticks sample_loop
        = Some m'
    ∧ no_self (loop_state m')
    ∧ find_win (loop_state m') (Comp.root (comp (loop_state m')))
      = Some None
    ∧ find_win (loop_state m') (Comp.overlay (comp (loop_state m')))
      = Some None.
Proof.
  apply (root_and_overlay_never_tracked strtof_sample uniforms_sample
           sample_ticks sample_loop [1%positive; 2%positive]).
  - apply registry_okb_sound. vm_compute. reflexivity.
  - intros p e. vm_compute.
    destruct p as [[| |] | [| |] |]; intros [= <-]; split; discriminate.
Defined.

(** X18.  Window textures never leak.  Throughout the run the number of
    textures generated minus the number deleted stays equal to the number
    of windows that hold a binding (up to the difference [k] at the
    start), over any number of main-loop iterations; after the window
    loop of shutdown no entry is left and the difference is back to [k]:
    every texture generated for a window has been deleted. *)
Theorem window_textures_balanced (strtof : list ascii → option Z)
    (glGetUniformLocation : Z → string → Z) (ticks : list Tick) (m : Loop)
    (l : list ptr) (k : Z) :
  registry_ok (loop_state m) l → tex_balance k (loop_state m) →
  ∃ m' s', main_loop strtof glGetUniformLocation ticks m = Some m'
    ∧ textures_alive (calls (loop_state m'))
      = k + bound_windows (heap (loop_state m'))
    ∧ cleanup_windows (loop_state m') = Some s'
    ∧ heap s' = ∅
    ∧ textures_alive (calls s') = k.
Proof.
  intros Hok HI.
  destruct (main_loop_ok strtof glGetUniformLocation ticks m l Hok)
    as (m' & l' & E & Hok' & _).
  assert (tex_balance k (loop_state m')) as HI'.
  { revert E HI. apply (main_loop_I (tex_balance k)); inv_tex_balance. }
  destruct (cleanup_windows_ok _ l' Hok') as (s' & E' & Hh & _).
  assert (tex_balance k s') as HI''.
  { revert E' HI'. apply (cleanup_windows_I (tex_balance k));
      inv_tex_balance. }
  exists m', s'. split_and!; try done.
  unfold tex_balance in HI''. rewrite Hh in HI''. rewrite HI''.
  unfold bound_windows. rewrite map_filter_empty, map_size_empty. simpl. lia.
Qed.

Lemma window_textures_balanced_witness :
  ∃ m' s', main_loop strtof_sample uniforms_sample sample_ticks sample_loop
           = Some m'
    ∧ textures_alive (calls (loop_state m'))
      = 0 + bound_windows (heap (loop_state m'))
    ∧ cleanup_windows (loop_state m') = Some s'
    ∧ heap s' = ∅
    ∧ textures_alive (calls s') = 0.
Proof.
  apply (window_textures_balanced strtof_sample uniforms_sample
           sample_ticks sample_loop [1%positive; 2%positive] 0).
  - apply registry_okb_sound. vm_compute. reflexivity.
  - vm_compute. reflexivity.
Defined.

(** X19.  Every iteration of the main loop renders.  The loop ends each
    iteration by requesting a redraw, and no handler withdraws a request;
    so from a state with a redraw pending (as start-up leaves it), [n]
    iterations present exactly [n] frames, whatever events arrive, and a
    redraw is pending again afterwards.  The poll counter of the
    parameter file cycles through 0..29. *)
Theorem main_loop_renders_every_iteration (strtof : list ascii → option Z)
    (glGetUniformLocation : Z → string → Z) (ticks : list Tick) (m : Loop)
    (l : list ptr) :
  registry_ok (loop_state m) l → redraw_pending (loop_state m) →
  0 ≤ param_check_ctr m < 30 →
  ∃ m' l', main_loop strtof glGetUniformLocation ticks m = Some m'
    ∧ registry_ok (loop_state m') l'
    ∧ frames m' = (frames m + length ticks)%nat
    ∧ redraw_pending (loop_state m')
    ∧ param_check_ctr m'
      = (param_check_ctr m + Z.of_nat (length ticks)) mod 30.
Proof.
  intros Hok Hr Hc.
  destruct (main_loop_ok strtof glGetUniformLocation ticks m l Hok)
    as (m' & l' & E & Hok' & Hr' & Hc').
  destruct (Hr' Hr) as (Hr'' & Hf).
  exists m', l'. split_and!; try done. by apply Hc'.
Qed.

Lemma main_loop_renders_every_iteration_witness :
  ∃ m' l', main_loop strtof_sample uniforms_sample sample_ticks sample_loop
           = Some m'
    ∧ registry_ok (loop_state m') l'
    ∧ frames m' = (frames sample_loop + length sample_ticks)%nat
    ∧ redraw_pending (loop_state m')
    ∧ param_check_ctr m'
      = (param_check_ctr sample_loop + Z.of_nat (length sample_ticks))
        mod 30.
Proof.
  apply (main_loop_renders_every_iteration strtof_sample uniforms_sample
           sample_ticks sample_loop [1%positive; 2%positive]).
  - apply registry_okb_sound. vm_compute. reflexivity.
  - reflexivity.
  - simpl. lia.
Defined.

(** ** Start-up: the windows found by [XQueryTree] *)

Lemma damage_create_init_keeps_links (srv : Server) :
  keeps_links (damage_create_init srv).
Proof. intros e. unfold damage_create_init. by split_ifs. Qed.

Lemma init_accepts_comp (c c' : Comp.t) (child : Z * Server) :
  Comp.root c' = Comp.root c → Comp.overlay c' = Comp.overlay c →
  init_accepts c' child = init_accepts c child.
Proof. unfold init_accepts. by intros -> ->. Qed.

(** A child that is skipped leaves the state as it is. *)
Lemma init_child_skip (s : State) (l : list ptr) (child : Z) (srv : Server) :
  registry_ok s l → init_accepts (comp s) (child, srv) = false →
  init_child child srv s = Some s.
Proof.
  unfold init_accepts, init_child. simpl. intros Hok H.
  destruct (srv_attr srv) as [attr|]; [| done].
  destruct (attr_map_state attr =? IsViewable); simpl in *; [| done].
  destruct (child =? Comp.overlay (comp s)) eqn:Eo; simpl in *; [done |].
  rewrite (add_win_refused s l (srv_oom srv) child Hok); [done |].
  destruct (child =? Comp.root (comp s)) eqn:Er; simpl in *.
  - right. left. by apply Z.eqb_eq.
  - right. right. by apply negb_false_iff.
Qed.

(** A child that is taken gets an entry on top of the list. *)
Lemma init_child_new (s : State) (l : list ptr) (child : Z) (srv : Server) :
  registry_ok s l → child ∉ xids_of (heap s) l →
  init_accepts (comp s) (child, srv) = true →
  ∃ w s', init_child child srv s = Some s'
    ∧ registry_ok s' (l ++ [w])
    ∧ (w ∉ l)
    ∧ (∃ e, heap s' !! w = Some e ∧ Win.xid e = child ∧ Win.mapped e = true)
    ∧ (∀ q, q ≠ w →
         field_at Win.payload (heap s') q = field_at Win.payload (heap s) q)
    ∧ Comp.root (comp s') = Comp.root (comp s)
    ∧ Comp.overlay (comp s') = Comp.overlay (comp s).
Proof.
  intros Hok Hnin Hacc. unfold init_accepts in Hacc. simpl in Hacc.
  destruct (srv_attr srv) as [attr|] eqn:Ea; [| done].
  apply andb_prop in Hacc as [Hacc Hoom].
  apply andb_prop in Hacc as [Hacc Hr].
  apply andb_prop in Hacc as [Hv Ho].
  apply negb_true_iff in Hoom, Hr, Ho.
  pose proof Ho as Ho'. pose proof Hr as Hr'.
  apply Z.eqb_neq in Ho', Hr'.
  destruct (add_remove_id s l child Hok Hnin Ho' Hr')
    as (w & s1 & E & Hok1 & He & Hothers & Hc1 & Hk1 & _).
  set (e0 := Win.set_prev (last l) (Win.set_xid child Win.zero)) in *.
  destruct (store_ok (map_fields attr) s1 (l ++ [w]) w e0 Hok1) as
    (s2 & E2 & Hh2 & Hc2 & Hk2 & Hok2); [done | done |].
  assert (heap s2 !! w = Some (map_fields attr e0)) as He2
    by (rewrite Hh2; apply lookup_insert_eq).
  destruct (at_entry_ok (damage_create_init srv) s2 (l ++ [w]) w _ Hok2
              (damage_create_init_keeps_links srv) He2)
    as (s3 & E3 & Hh3 & Hc3 & Hk3 & Hok3).
  set (e3 := (damage_create_init srv (map_fields attr e0)).1) in *.
  assert (heap s3 !! w = Some e3) as He3
    by (rewrite Hh3; apply lookup_insert_eq).
  destruct (at_entry_ok (bind_window_pixmap (Comp.tfp (comp s3)) (srv_bind srv))
              s3 (l ++ [w]) w _ Hok3 (bind_keeps_links _ _) He3)
    as (s4 & E4 & Hh4 & Hc4 & Hk4 & Hok4).
  assert (Win.xid e3 = child ∧ Win.mapped e3 = true) as [Hx3 Hm3].
  { unfold e3, damage_create_init. by split_ifs. }
  exists w, s4. split_and!.
  - unfold init_child. rewrite Ea, Hv, Ho. cbn -[add_win]. rewrite Hoom, E.
    cbn -[at_entry bind_at]. rewrite E2. cbn -[at_entry bind_at].
    rewrite E3. cbn -[at_entry bind_at]. exact E4.
  - done.
  - destruct Hok1 as ((_ & _ & Hnd) & _).
    apply NoDup_app in Hnd as (_ & Hnd & _). intros Hin.
    apply (Hnd w Hin). by left.
  - eexists. split; [rewrite Hh4; apply lookup_insert_eq |].
    pose proof (bind_fields (Comp.tfp (comp s3)) (srv_bind srv) e3)
      as (Hm & _ & _ & Hx & _).
    simpl in Hm, Hx. by rewrite Hm, Hx.
  - intros q Hq. rewrite <- (Hothers q Hq). unfold field_at.
    by rewrite Hh4, Hh3, Hh2, !lookup_insert_ne.
  - rewrite Hc4, Hc3, Hc2, Hc1. by destruct (comp s).
  - rewrite Hc4, Hc3, Hc2, Hc1. by destruct (comp s).
Qed.

Lemma filter_accepts_comp (c c' : Comp.t) (children : list (Z * Server)) :
  Comp.root c' = Comp.root c → Comp.overlay c' = Comp.overlay c →
  filter (λ ch, init_accepts c' ch = true) children
  = filter (λ ch, init_accepts c ch = true) children.
Proof.
  intros Hr Ho. induction children as [| ch children IH]; [done |].
  rewrite !filter_cons, IH, (init_accepts_comp c c' ch Hr Ho). done.
Qed.

Lemma init_children_spec (children : list (Z * Server)) :
  ∀ (s : State) (l : list ptr),
  registry_ok s l → NoDup children.*1 →
  (∀ x, x ∈ children.*1 → x ∉ xids_of (heap s) l) →
  ∃ s' l', init_children children s = Some s'
    ∧ registry_ok s' (l ++ l')
    ∧ xids_of (heap s') l'
      = (filter (λ ch, init_accepts (comp s) ch = true) children).*1
    ∧ (∀ q, q ∈ l →
         field_at Win.payload (heap s') q = field_at Win.payload (heap s) q)
    ∧ (∀ q, q ∈ l' → ∃ e, heap s' !! q = Some e ∧ Win.mapped e = true)
    ∧ Comp.root (comp s') = Comp.root (comp s)
    ∧ Comp.overlay (comp s') = Comp.overlay (comp s).
Proof.
  induction children as [| [child srv] children IH]; intros s l Hok Hnd Hnew.
  { exists s, []. rewrite app_nil_r. split_and!; try done.
    intros q Hq. by apply elem_of_nil in Hq. }
  rewrite fmap_cons in Hnd. apply NoDup_cons in Hnd as [Hchild Hnd].
  cbn [init_children]. rewrite filter_cons.
  destruct (init_accepts (comp s) (child, srv)) eqn:Hacc.
  - assert (child ∉ xids_of (heap s) l) as Hnin
      by (apply Hnew; rewrite fmap_cons; by left).
    destruct (init_child_new s l child srv Hok Hnin Hacc)
      as (w & s1 & E & Hok1 & Hw & (e & He & Hx & Hm) & Hothers & Hr1 & Ho1).
    assert (xids_of (heap s1) (l ++ [w]) = xids_of (heap s) l ++ [child])
      as Hxs.
    { rewrite xids_of_app. f_equal.
      - apply xids_of_frame. intros q Hq.
        assert (q ≠ w) as Hne by (intros ->; done).
        pose proof (Hothers q Hne) as Hp. by apply payload_field_xid.
      - unfold xids_of, entries_of. simpl. by rewrite He, <- Hx. }
    destruct (IH s1 (l ++ [w]) Hok1 Hnd)
      as (s' & l' & E' & Hok' & Hxs' & Hold' & Hnew' & Hr' & Ho').
    { intros x Hx'. rewrite Hxs. intros [Hin | Hin]%elem_of_app.
      - apply (Hnew x); [rewrite fmap_cons; by right | done].
      - apply list_elem_of_singleton in Hin. by subst x. }
    exists s', (w :: l'). rewrite E. cbn [mbind option_bind].
    rewrite (cons_middle w l l'), app_assoc. split_and!; try done.
    + rewrite decide_True by done. rewrite fmap_cons. cbn [fst].
      assert (field_at Win.payload (heap s') w
              = field_at Win.payload (heap s1) w) as Hp.
      { apply Hold'. apply elem_of_app. right. by left. }
      apply payload_field_xid in Hp. unfold field_at in Hp.
      rewrite He in Hp.
      change (w :: l') with ([w] ++ l'). rewrite xids_of_app.
      rewrite Hxs', (filter_accepts_comp (comp s) (comp s1)) by done.
      unfold xids_of, entries_of. simpl.
      destruct (heap s' !! w) as [e'|]; [| done]. simpl in *.
      injection Hp as Hp. by rewrite Hp, Hx.
    + intros q Hq. rewrite Hold' by (apply elem_of_app; by left).
      apply Hothers. by intros ->.
    + intros q [-> | Hq]%elem_of_cons; [| by apply Hnew'].
      assert (field_at Win.payload (heap s') w
              = field_at Win.payload (heap s1) w) as Hp.
      { apply Hold'. apply elem_of_app. right. by left. }
      unfold field_at in Hp. rewrite He in Hp.
      destruct (heap s' !! w) as [e'|]; [| done].
      exists e'. split; [done |]. simpl in Hp. apply (inj Some) in Hp.
      apply (f_equal Win.mapped) in Hp. simpl in Hp.
      by rewrite <- Hm, <- Hp.
    + by rewrite Hr'.
    + by rewrite Ho'.
  - rewrite (init_child_skip s l child srv Hok Hacc). cbn [mbind option_bind].
    rewrite decide_False by done.
    apply (IH s l Hok Hnd). intros x Hx. apply Hnew. rewrite fmap_cons.
    by right.
Qed.

(** X20.  Start-up enumeration.  When the children that [XQueryTree]
    lists (bottom-most first) are distinct and none of them is tracked
    yet, they are entered in that order on top of what is tracked.
    Exactly the children that are viewable, are neither the overlay nor
    the root and for which memory is available get an entry; every new
    entry is marked mapped, the entries tracked before keep their
    payload, and a redraw is requested.  When the query fails only the
    redraw is requested. *)
Theorem init_windows_order (children : list (Z * Server)) (s : State)
    (l : list ptr) :
  registry_ok s l → NoDup children.*1 →
  (∀ x, x ∈ children.*1 → x ∉ xids_of (heap s) l) →
  (∃ s' l', init_windows (Some children) s = Some s'
     ∧ registry_ok s' (l ++ l')
     ∧ stacking_order s' = Some (l ++ l')
     ∧ xids_of (heap s') (l ++ l')
       = xids_of (heap s) l
         ++ (filter (λ ch, init_accepts (comp s) ch = true) children).*1
     ∧ (∀ q, q ∈ l →
          field_at Win.payload (heap s') q = field_at Win.payload (heap s) q)
     ∧ (∀ q, q ∈ l' → ∃ e, heap s' !! q = Some e ∧ Win.mapped e = true)
     ∧ Comp.needs_redraw (comp s') = true)
  ∧ init_windows None s = Some (with_comp (Comp.set_needs_redraw true) s).
Proof.
  intros Hok Hnd Hnew. split; [| done].
  destruct (init_children_spec children s l Hok Hnd Hnew)
    as (s1 & l' & E & Hok1 & Hxs & Hold & Hnew1 & _).
  exists (with_comp (Comp.set_needs_redraw true) s1), l'.
  assert (registry_ok (with_comp (Comp.set_needs_redraw true) s1) (l ++ l'))
    as Hok' by by apply registry_redraw.
  split_and!; try done.
  - unfold init_windows. by rewrite E.
  - by apply registry_order.
  - simpl. rewrite xids_of_app, Hxs. f_equal.
    apply xids_of_frame. intros q Hq. apply payload_field_xid. by apply Hold.
Qed.

Lemma init_windows_order_witness :
  (∃ s' l', init_windows (Some sample_children) empty_state = Some s'
     ∧ registry_ok s' ([] ++ l')
     ∧ stacking_order s' = Some ([] ++ l')
     ∧ xids_of (heap s') ([] ++ l')
       = xids_of (heap empty_state) []
         ++ (filter (λ ch, init_accepts (comp empty_state) ch = true)
               sample_children).*1
     ∧ (∀ q, q ∈ [] →
          field_at Win.payload (heap s') q
          = field_at Win.payload (heap empty_state) q)
     ∧ (∀ q, q ∈ l' → ∃ e, heap s' !! q = Some e ∧ Win.mapped e = true)
     ∧ Comp.needs_redraw (comp s') = true)
  ∧ init_windows None empty_state
    = Some (with_comp (Comp.set_needs_redraw true) empty_state).
Proof.
  apply (init_windows_order sample_children empty_state []).
  - apply registry_okb_sound. vm_compute. reflexivity.
  - apply (bool_decide_unpack _). vm_compute. exact I.
  - intros x _ Hin. by apply elem_of_nil in Hin.
Defined.

(** ** The texture-from-pixmap tables: first match per depth *)

(** The loop body, read as: skip what is no candidate, and keep the first
    candidate of a depth. *)
Lemma tfp_step_spec (t : TfpTable) (cfgs : list Z) (c : FBConfig) :
  tfp_step (t, cfgs) c
  = match tfp_candidate c with
    | None => (t, cfgs)
    | Some d =>
      if tfp_available_at t d then (t, cfgs)
      else ({| tfp_format := <[Z.to_nat d := tfp_format_of c]> (tfp_format t);
               tfp_available := <[Z.to_nat d := true]> (tfp_available t) |},
            <[Z.to_nat d := fb_config c]> cfgs)
    end.
Proof.
  unfold tfp_step, tfp_candidate, tfp_format_of.
  destruct (Z.land (fb_drawable_type c) GLX_PIXMAP_BIT =? 0); [done |].
  destruct (Z.land (fb_tex_targets c) GLX_TEXTURE_2D_BIT_EXT =? 0); [done |].
  destruct (fb_doublebuffer c =? 0); [| done].
  destruct (fb_bind_rgb c =? 0), (fb_bind_rgba c =? 0); simpl; try done;
    (destruct (fb_visual_depth c) as [d|]; [| done]); simpl;
    rewrite Z.geb_leb, (Z.ltb_antisym d 0), (Z.ltb_antisym MAX_DEPTH d);
    by destruct (d <=? 0), (MAX_DEPTH <=? d).
Qed.

Lemma tfp_candidate_range (c : FBConfig) (d : Z) :
  tfp_candidate c = Some d → 0 < d < MAX_DEPTH.
Proof.
  unfold tfp_candidate. destruct (_ && _); [| done].
  destruct (fb_visual_depth c) as [d'|]; [| done]. simpl.
  destruct (0 <? d') eqn:E1; [| done]. destruct (d' <? MAX_DEPTH) eqn:E2;
    [| done].
  simpl. intros [= <-]. lia.
Qed.

(** What the loop makes of an accumulator whose availability table has
    full length: a depth that is available stays as it is; a depth that
    is not takes the first candidate of the list. *)
Lemma tfp_fold_spec (configs : list FBConfig) :
  ∀ (t : TfpTable) (cfgs : list Z) (d : Z),
  length (tfp_available t) = Z.to_nat MAX_DEPTH →
  let r := foldl tfp_step (t, cfgs) configs in
  length (tfp_available r.1) = Z.to_nat MAX_DEPTH
  ∧ length (tfp_format r.1) = length (tfp_format t)
  ∧ length r.2 = length cfgs
  ∧ match (if tfp_available_at t d then None else tfp_first configs d) with
    | Some c =>
      tfp_available_at r.1 d = true
      ∧ (length (tfp_format t) = Z.to_nat MAX_DEPTH →
         tfp_format_at r.1 d = tfp_format_of c)
      ∧ (length cfgs = Z.to_nat MAX_DEPTH →
         r.2 !! Z.to_nat d = Some (fb_config c))
    | None =>
      tfp_available_at r.1 d = tfp_available_at t d
      ∧ tfp_format_at r.1 d = tfp_format_at t d
      ∧ r.2 !! Z.to_nat d = cfgs !! Z.to_nat d
    end.
Proof.
  induction configs as [| c configs IH]; intros t cfgs d Hlen.
  { simpl. unfold tfp_first. simpl. by destruct (tfp_available_at t d). }
  cbn [foldl]. rewrite tfp_step_spec. unfold tfp_first. rewrite filter_cons.
  destruct (tfp_candidate c) as [d0|] eqn:Ec.
  2:{ rewrite decide_False by done. apply (IH t cfgs d Hlen). }
  pose proof (tfp_candidate_range c d0 Ec) as Hd0.
  destruct (tfp_available_at t d0) eqn:Ea0.
  { specialize (IH t cfgs d Hlen). simpl in IH. unfold tfp_first in IH.
    case_decide as Ed; [| done].
    injection Ed as ->. by rewrite Ea0 in IH |- *. }
  set (t' := {| tfp_format := _; tfp_available := _ |}).
  set (cfgs' := <[Z.to_nat d0 := fb_config c]> cfgs).
  assert (length (tfp_available t') = Z.to_nat MAX_DEPTH) as Hlen'
    by (simpl; by rewrite length_insert).
  specialize (IH t' cfgs' d Hlen'). simpl in IH. unfold tfp_first in IH.
  destruct IH as (L1 & L2 & L3 & IH).
  split; [done |]. split; [by rewrite L2; simpl; rewrite length_insert |].
  split; [by rewrite L3; unfold cfgs'; rewrite length_insert |].
  destruct (decide (d = d0)) as [-> | Hne].
  - rewrite Ea0, decide_True by done. cbn [head].
    assert (tfp_available_at t' d0 = true) as Ha'.
    { unfold tfp_available_at, t'. simpl.
      rewrite list_lookup_insert_eq; [done |]. rewrite Hlen. lia. }
    rewrite Ha' in IH. destruct IH as (I1 & I2 & I3).
    split; [by rewrite I1 |]. split.
    + intros Hf. rewrite I2. unfold tfp_format_at, t'. simpl.
      rewrite list_lookup_insert_eq; [done |]. rewrite Hf. lia.
    + intros Hc. rewrite I3. unfold cfgs'.
      rewrite list_lookup_insert_eq; [done |]. rewrite Hc. lia.
  - rewrite decide_False by (intros [= ->]; done).
    assert (Z.to_nat d0 ≠ Z.to_nat d) as Hidx by lia.
    assert (tfp_available_at t' d = tfp_available_at t d) as Ha'.
    { unfold tfp_available_at, t'. simpl.
      by rewrite list_lookup_insert_ne. }
    assert (tfp_format_at t' d = tfp_format_at t d) as Hf'.
    { unfold tfp_format_at, t'. simpl. by rewrite list_lookup_insert_ne. }
    assert (cfgs' !! Z.to_nat d = cfgs !! Z.to_nat d) as Hc'.
    { unfold cfgs'. by rewrite list_lookup_insert_ne. }
    rewrite <- Ha', <- Hf', <- Hc'.
    destruct (tfp_available_at t' d); [exact IH |].
    destruct (head _) as [c1|]; [| exact IH].
    destruct IH as (I1 & I2 & I3). split; [done |]. split.
    + intros Hf. apply I2. simpl. by rewrite length_insert.
    + intros Hc. apply I3. unfold cfgs'. by rewrite length_insert.
Qed.

Lemma tfp_cleared_at (t : TfpTable) (d : Z) :
  tfp_available_at
    {| tfp_format := tfp_format t;
       tfp_available := replicate (Z.to_nat MAX_DEPTH) false |} d = false.
Proof.
  unfold tfp_available_at. cbn [tfp_available].
  destruct (replicate _ _ !! _) as [b|] eqn:E; [| done].
  by apply lookup_replicate_1 in E as [-> _].
Qed.

Lemma tfp_first_Some (configs : list FBConfig) (d : Z) (c : FBConfig) :
  tfp_first configs d = Some c → c ∈ configs ∧ tfp_candidate c = Some d.
Proof.
  unfold tfp_first. intros H. apply head_Some in H as (l' & H).
  assert (c ∈ filter (λ c, tfp_candidate c = Some d) configs) as Hin
    by (rewrite H; by left).
  apply list_elem_of_filter in Hin as [? ?]. done.
Qed.

Lemma tfp_first_None (configs : list FBConfig) (d : Z) (c : FBConfig) :
  tfp_first configs d = None → c ∈ configs → tfp_candidate c ≠ Some d.
Proof.
  unfold tfp_first. intros H Hin Hc. apply head_None in H.
  assert (c ∈ filter (λ c, tfp_candidate c = Some d) configs) as Hin'
    by by apply list_elem_of_filter.
  rewrite H in Hin'. by apply elem_of_nil in Hin'.
Qed.

Lemma find_tfp_spec (configs : list FBConfig) (t : TfpTable) (cfgs : list Z)
    (d : Z) :
  let r := find_tfp_fbconfigs (Some configs) t cfgs in
  match tfp_first configs d with
  | Some c =>
    tfp_available_at r.1 d = true
    ∧ (length (tfp_format t) = Z.to_nat MAX_DEPTH →
       tfp_format_at r.1 d = tfp_format_of c)
    ∧ (length cfgs = Z.to_nat MAX_DEPTH →
       r.2 !! Z.to_nat d = Some (fb_config c))
  | None =>
    tfp_available_at r.1 d = false
    ∧ tfp_format_at r.1 d = tfp_format_at t d
    ∧ r.2 !! Z.to_nat d = cfgs !! Z.to_nat d
  end.
Proof.
  unfold find_tfp_fbconfigs.
  pose proof (tfp_fold_spec configs
                {| tfp_format := tfp_format t;
                   tfp_available := replicate (Z.to_nat MAX_DEPTH) false |}
                cfgs d (length_replicate _ _)) as H.
  cbv zeta in H. rewrite (tfp_cleared_at t d) in H.
  destruct H as (_ & _ & _ & H).
  destruct (tfp_first configs d); exact H.
Qed.

(** X21.  [find_tfp_fbconfigs] keeps the first match per depth.  A
    configuration is a candidate for depth d when it can render to
    pixmaps, binds to 2D textures, is single-buffered, binds as RGB or
    RGBA and has a visual of depth d with 0 < d < 33.  On tables of 33
    slots, after the scan a depth with a candidate is available, with the
    handle of the first candidate in list order and the RGBA format if
    that configuration binds as RGBA, else RGB; a depth without a
    candidate is not available and its format and handle are as before.
    The bound checks that bind repeats never reject an available depth. *)
Theorem find_tfp_first_match (configs : list FBConfig) (t : TfpTable)
    (cfgs : list Z) (d : Z) :
  length (tfp_format t) = Z.to_nat MAX_DEPTH →
  length cfgs = Z.to_nat MAX_DEPTH →
  let r := find_tfp_fbconfigs (Some configs) t cfgs in
  depth_usable r.1 d = tfp_available_at r.1 d
  ∧ match tfp_first configs d with
    | Some c =>
      tfp_available_at r.1 d = true
      ∧ tfp_format_at r.1 d = tfp_format_of c
      ∧ r.2 !! Z.to_nat d = Some (fb_config c)
    | None =>
      tfp_available_at r.1 d = false
      ∧ tfp_format_at r.1 d = tfp_format_at t d
      ∧ r.2 !! Z.to_nat d = cfgs !! Z.to_nat d
    end.
Proof.
  intros Hf Hc r. pose proof (find_tfp_spec configs t cfgs d) as H.
  fold r in H. destruct (tfp_first configs d) as [c|] eqn:E.
  - destruct H as (H1 & H2 & H3).
    apply tfp_first_Some in E as [_ E]. apply tfp_candidate_range in E.
    split; [| by auto].
    unfold depth_usable. rewrite H1.
    destruct (Z.leb_spec d 0); [lia |]. rewrite Z.geb_leb.
    destruct (Z.leb_spec MAX_DEPTH d); [lia | done].
  - destruct H as (H1 & H2 & H3). split; [| done].
    unfold depth_usable. rewrite H1. simpl. by rewrite orb_true_r.
Qed.

Lemma find_tfp_first_match_witness :
  let r := find_tfp_fbconfigs (Some sample_fbconfigs) zero_tfp
             (replicate 33 0) in
  depth_usable r.1 24 = tfp_available_at r.1 24
  ∧ match tfp_first sample_fbconfigs 24 with
    | Some c =>
      tfp_available_at r.1 24 = true
      ∧ tfp_format_at r.1 24 = tfp_format_of c
      ∧ r.2 !! Z.to_nat 24 = Some (fb_config c)
    | None =>
      tfp_available_at r.1 24 = false
      ∧ tfp_format_at r.1 24 = tfp_format_at zero_tfp 24
      ∧ r.2 !! Z.to_nat 24 = replicate 33 0 !! Z.to_nat 24
    end.
Proof.
  apply (find_tfp_first_match sample_fbconfigs zero_tfp (replicate 33 0) 24).
  - reflexivity.
  - reflexivity.
Defined.

(** X22.  Start-up goes on past the check of lines 905-919 exactly when
    [glXGetFBConfigs] returned a list that holds a candidate
    configuration; the tables the Compositor held before play no part,
    because the scan clears the availability table first. *)
Theorem have_any_tfp_iff (configs : option (list FBConfig)) (t : TfpTable)
    (cfgs : list Z) :
  have_any_tfp (find_tfp_fbconfigs configs t cfgs).1 = true
  ↔ ∃ cs c, configs = Some cs ∧ c ∈ cs ∧ is_Some (tfp_candidate c).
Proof.
  unfold have_any_tfp. rewrite existsb_exists. split.
  - intros (n & _ & Ha). destruct configs as [cs|].
    + pose proof (find_tfp_spec cs t cfgs (Z.of_nat n)) as H. simpl in H.
      destruct (tfp_first cs (Z.of_nat n)) as [c|] eqn:E.
      * apply tfp_first_Some in E as [Hin Hc]. exists cs, c.
        split_and!; try done.
      * destruct H as (H & _). simpl in Ha. congruence.
    + simpl in Ha. by rewrite tfp_cleared_at in Ha.
  - intros (cs & c & -> & Hin & [d Hc]).
    pose proof (tfp_candidate_range c d Hc) as Hd.
    exists (Z.to_nat d). split.
    + apply in_seq. lia.
    + rewrite Z2Nat.id by lia.
      pose proof (find_tfp_spec cs t cfgs d) as H. simpl in H.
      destruct (tfp_first cs d) as [c1|] eqn:E; [by destruct H |].
      by destruct (tfp_first_None cs d c E Hin).
Qed.

(** ** Resolving the shader path *)

Lemma resolve_shader_path_cases (PATH_MAX : nat) (readable : list ascii → bool)
    (malloc_fails strdup_fails : bool) (shader_dir input : list ascii) :
  resolve_shader_path PATH_MAX readable malloc_fails strdup_fails
    shader_dir input
  = if used_as_is input
    then (if strdup_fails then None else Some input)
    else if malloc_fails then None
    else if readable (snprintf_dir_input PATH_MAX shader_dir input)
    then Some (snprintf_dir_input PATH_MAX shader_dir input)
    else (if strdup_fails then None else Some input).
Proof. reflexivity. Qed.

(** The first two characters of the path built from the directory are
    those of the directory followed by the separator. *)
Lemma used_as_is_dir (PATH_MAX : nat) (shader_dir input : list ascii) :
  (3 ≤ PATH_MAX)%nat →
  used_as_is (snprintf_dir_input PATH_MAX shader_dir input)
  = used_as_is (shader_dir ++ ["/"%char]).
Proof.
  intros Hmax. unfold snprintf_dir_input.
  destruct PATH_MAX as [| [| [| n]]]; [lia | lia | lia |].
  replace (S (S (S n)) - 1)%nat with (S (S n)) by lia.
  by destruct shader_dir as [| a [| b shader_dir]].
Qed.

(** X23.  When the executable directory is absolute or starts with ./ or
    .. (what [get_exe_dir] returns), [PATH_MAX] is at least 3 and memory
    is available, [resolve_shader_path] gives a path that is stable:
    resolving it again gives the same path.  The path is either the input
    itself or the input under the executable directory (cut to
    [PATH_MAX - 1] characters), the latter only when the input is not
    absolute, does not start with ./ or .. and the file under the
    directory is readable. *)
Theorem resolve_shader_path_stable (PATH_MAX : nat)
    (readable : list ascii → bool) (shader_dir input : list ascii) :
  (3 ≤ PATH_MAX)%nat → used_as_is (shader_dir ++ ["/"%char]) = true →
  ∃ p, resolve_shader_path PATH_MAX readable false false shader_dir input
       = Some p
    ∧ resolve_shader_path PATH_MAX readable false false shader_dir p = Some p
    ∧ (p = input
       ∨ (used_as_is input = false
          ∧ p = take (PATH_MAX - 1) (shader_dir ++ "/"%char :: input)
          ∧ readable p = true)).
Proof.
  intros Hmax Hdir. rewrite resolve_shader_path_cases.
  destruct (used_as_is input) eqn:Ei.
  { exists input. rewrite resolve_shader_path_cases, Ei. auto. }
  destruct (readable (snprintf_dir_input PATH_MAX shader_dir input)) eqn:Er.
  - exists (snprintf_dir_input PATH_MAX shader_dir input).
    rewrite resolve_shader_path_cases, (used_as_is_dir _ _ _ Hmax), Hdir.
    split; [done |]. split; [done |]. right. done.
  - exists input. rewrite resolve_shader_path_cases, Ei, Er. auto.
Qed.

Lemma resolve_shader_path_stable_witness :
  let PATH_MAX := 4096%nat in
  let readable (p : list ascii) :=
    bool_decide (p = list_ascii_of_string "/opt/ss/shaders/crt.frag") in
  let shader_dir := list_ascii_of_string "/opt/ss" in
  let input := list_ascii_of_string "shaders/crt.frag" in
  ∃ p, resolve_shader_path PATH_MAX readable false false shader_dir input
       = Some p
    ∧ resolve_shader_path PATH_MAX readable false false shader_dir p = Some p
    ∧ (p = input
       ∨ (used_as_is input = false
          ∧ p = take (PATH_MAX - 1) (shader_dir ++ "/"%char :: input)
          ∧ readable p = true)).
Proof.
  apply (resolve_shader_path_stable 4096
           (λ p, bool_decide
                   (p = list_ascii_of_string "/opt/ss/shaders/crt.frag"))
           (list_ascii_of_string "/opt/ss")
           (list_ascii_of_string "shaders/crt.frag")).
  - apply (bool_decide_unpack _). vm_compute. exact I.
  - vm_compute. reflexivity.
Defined.

(** ** [CirculateNotify] for a tracked window *)

(** [handle_circulate] on a tracked window only relinks, and requests a
    redraw. *)
Lemma circulate_links (s : State) (a b : list ptr) (w : ptr)
    (window place : Z) :
  registry_ok s (a ++ w :: b) →
  field_at Win.xid (heap s) w = Some window →
  ∃ s0, handle_circulate window place s
        = Some (with_comp (Comp.set_needs_redraw true) s0)
    ∧ same_but_links s s0.
Proof.
  intros Hok Hx. unfold handle_circulate.
  rewrite (find_win_linked s (a ++ w :: b)) by apply Hok. simpl.
  rewrite (lookup_xid_unique _ _ _ w); [| apply Hok | | done].
  2: { apply elem_of_app. right. by left. }
  destruct (detached s a b w Hok)
    as (s1 & s2 & s3 & E1 & E2 & E3 & Hl3 & Hs3 & Hw & Ha3 & Hn3 & Hp3).
  rewrite E1. simpl. rewrite E2. simpl. rewrite E3. simpl.
  destruct (place =? PlaceOnTop).
  - destruct (place_at_top_linked s3 (a ++ b) w Hl3 Hw Ha3)
      as (s' & E' & Hl' & Hs').
    unfold place_at_top in E'.
    destruct (store w (Win.set_prev (Comp.win_tail (comp s3))) s3)
      as [s4|] eqn:E4; [| done].
    simpl in E' |- *.
    assert (store w (Win.set_next None) s4 = Some s4) as E5.
    { destruct (store_prev_views w (Comp.win_tail (comp s3)) s3 Ha3)
        as (s4' & E4' & Hn4 & _).
      rewrite E4 in E4'. injection E4' as <-.
      specialize (Hn4 w). rewrite Hn3 in Hn4.
      apply field_at_allocated in Hn4 as (e4 & He4 & En4).
      apply (store_id _ _ _ e4); [done | by apply set_next_id]. }
    rewrite E5 in E'. simpl in E'.
    destruct (match Comp.win_tail (comp s4) with
              | Some t => store t (Win.set_next (Some w)) s4
              | None => Some (with_comp (Comp.set_win_head (Some w)) s4)
              end) as [s5|]; [| done].
    simpl in E' |- *. injection E' as <-.
    eexists. split; [reflexivity |].
    exact (same_but_links_trans _ _ _ Hs3 Hs').
  - destruct (place_at_bottom_linked s3 (a ++ b) w Hl3 Hw Ha3)
      as (s' & E' & Hl' & Hs').
    unfold place_at_bottom in E'.
    destruct (store w (Win.set_next (Comp.win_head (comp s3))) s3)
      as [s4|] eqn:E4; [| done].
    simpl in E' |- *.
    assert (store w (Win.set_prev None) s4 = Some s4) as E5.
    { destruct (store_next_views w (Comp.win_head (comp s3)) s3 Ha3)
        as (s4' & E4' & _ & Hp4 & _).
      rewrite E4 in E4'. injection E4' as <-.
      specialize (Hp4 w). rewrite Hp3 in Hp4.
      apply field_at_allocated in Hp4 as (e4 & He4 & Ep4).
      apply (store_id _ _ _ e4); [done | by apply set_prev_id]. }
    rewrite E5 in E'. simpl in E'.
    destruct (match Comp.win_head (comp s4) with
              | Some h => store h (Win.set_prev (Some w)) s4
              | None => Some (with_comp (Comp.set_win_tail (Some w)) s4)
              end) as [s5|]; [| done].
    simpl in E' |- *. injection E' as <-.
    eexists. split; [reflexivity |].
    exact (same_but_links_trans _ _ _ Hs3 Hs').
Qed.

Lemma redraw_unlinked (c c' : Comp.t) :
  Comp.set_win_head None (Comp.set_win_tail None c')
  = Comp.set_win_head None (Comp.set_win_tail None c) →
  Comp.set_win_head None
    (Comp.set_win_tail None (Comp.set_needs_redraw true c'))
  = Comp.set_win_head None
      (Comp.set_win_tail None (Comp.set_needs_redraw true c)).
Proof.
  intros H. apply (f_equal (Comp.set_needs_redraw true)) in H.
  destruct c, c'. exact H.
Qed.

Lemma circulate_tracked (s : State) (a b : list ptr) (w : ptr)
    (window place : Z) :
  registry_ok s (a ++ w :: b) →
  field_at Win.xid (heap s) w = Some window →
  ∃ s', handle_circulate window place s = Some s'
    ∧ registry_ok s'
        (if place =? PlaceOnTop then a ++ b ++ [w] else w :: a ++ b)
    ∧ same_but_links (with_comp (Comp.set_needs_redraw true) s) s'.
Proof.
  intros Hok Hx.
  destruct (circulate_ok s a b w window place Hok Hx) as (s' & E & Hok' & _).
  destruct (circulate_links s a b w window place Hok Hx)
    as (s0 & E0 & Hp & Hc & Hk).
  exists s'. split; [done |]. split; [done |].
  rewrite E in E0. injection E0 as ->. split_and!; try done.
  simpl. by apply redraw_unlinked.
Qed.

(** X24.  A [CirculateNotify] for a tracked window moves its entry to the
    top of the stacking order when the place is [PlaceOnTop] and to the
    bottom otherwise; the other windows keep their relative order, every
    entry keeps its contents, no call is made and a redraw is requested.
    Delivering the same notification again changes nothing. *)
Theorem circulate_placement (s : State) (a b : list ptr) (w : ptr)
    (e : Win.t) (srv : Server) (place : Z) :
  registry_ok s (a ++ w :: b) → heap s !! w = Some e →
  let l' := if place =? PlaceOnTop then a ++ b ++ [w] else w :: a ++ b in
  ∃ s', handle_event srv (CirculateNotify (Win.xid e) place) s = Some s'
    ∧ registry_ok s' l'
    ∧ stacking_order s' = Some l'
    ∧ (∀ q, field_at Win.payload (heap s') q
            = field_at Win.payload (heap s) q)
    ∧ calls s' = calls s
    ∧ Comp.needs_redraw (comp s') = true
    ∧ handle_event srv (CirculateNotify (Win.xid e) place) s' = Some s'.
Proof.
  intros Hok He l'. simpl.
  assert (field_at Win.xid (heap s) w = Some (Win.xid e)) as Hx
    by by rewrite (field_at_Some _ _ _ _ He).
  destruct (circulate_tracked s a b w (Win.xid e) place Hok Hx)
    as (s' & E & Hok' & Hp & Hc & Hk).
  fold l' in Hok'.
  assert (Comp.needs_redraw (comp s') = true) as Hr.
  { apply (f_equal Comp.needs_redraw) in Hc. simpl in Hc.
    revert Hc. by destruct (comp s'), (comp s). }
  exists s'. split_and!; try done.
  { by apply registry_order. }
  assert (field_at Win.xid (heap s') w = Some (Win.xid e)) as Hx'.
  { rewrite <- Hx. apply payload_field_xid. apply Hp. }
  assert (∃ a' b', l' = a' ++ w :: b'
            ∧ (if place =? PlaceOnTop then a' ++ b' ++ [w] else w :: a' ++ b')
              = l') as (a' & b' & El & El').
  { unfold l'. destruct (place =? PlaceOnTop).
    - exists (a ++ b), []. simpl. by rewrite <- app_assoc.
    - by exists [], (a ++ b). }
  rewrite El in Hok'.
  destruct (circulate_tracked s' a' b' w (Win.xid e) place Hok' Hx')
    as (s2 & E2 & Hok2 & Hp2 & Hc2 & Hk2).
  rewrite El' in Hok2. rewrite <- El in Hok'.
  rewrite E2. f_equal.
  apply (registry_determined s' s2 l' Hok' Hok2); try done.
  rewrite Hc2. simpl. clear - Hr. destruct (comp s'). simpl in *. by subst.
Qed.

Lemma circulate_placement_witness :
  let e := Win.mk 101 2101 3101 4101 1101 101 0 100 50 0 true false true true
             (Some 3%positive) (Some 1%positive) in
  let l' := if PlaceOnTop =? PlaceOnTop
            then [1%positive] ++ [3%positive] ++ [2%positive]
            else 2%positive :: [1%positive] ++ [3%positive] in
  ∃ s', handle_event srv_ok (CirculateNotify (Win.xid e) PlaceOnTop) abc_state
        = Some s'
    ∧ registry_ok s' l'
    ∧ stacking_order s' = Some l'
    ∧ (∀ q, field_at Win.payload (heap s') q
            = field_at Win.payload (heap abc_state) q)
    ∧ calls s' = calls abc_state
    ∧ Comp.needs_redraw (comp s') = true
    ∧ handle_event srv_ok (CirculateNotify (Win.xid e) PlaceOnTop) s'
      = Some s'.
Proof.
  apply (circulate_placement abc_state [1%positive] [3%positive] 2%positive
           (Win.mk 101 2101 3101 4101 1101 101 0 100 50 0 true false true
              true (Some 3%positive) (Some 1%positive))
           srv_ok PlaceOnTop).
  - apply registry_okb_sound. vm_compute. reflexivity.
  - vm_compute. reflexivity.
Defined.

(** ** Unmap, then map again *)

Lemma unmap_entry_fields (e : Win.t) :
  let e1 := (unmap_entry e).1 in
  Win.xid e1 = Win.xid e ∧ Win.mapped e1 = false
  ∧ Win.pixmap_valid e1 = false ∧ Win.damage e1 = 0.
Proof.
  unfold unmap_entry.
  pose proof (unbind_fields (Win.set_mapped false e))
    as (Hm & _ & _ & Hx & _).
  pose proof (unbind_released (Win.set_mapped false e)) as Hv.
  destruct (unbind_window_pixmap (Win.set_mapped false e)) as [e2 c2].
  simpl in Hm, Hx, Hv. unfold damage_destroy.
  destruct (negb (Win.damage e2 =? 0)) eqn:Ed; simpl.
  - by rewrite Hx, Hm, Hv.
  - apply negb_false_iff, Z.eqb_eq in Ed. by rewrite Hx, Hm, Hv, Ed.
Qed.

(** X25.  An unmapped window keeps its entry and its place.  An
    [UnmapNotify] for a tracked window marks the entry unmapped and
    leaves it without binding and without damage handle; a [MapNotify]
    that follows (attributes readable) marks it mapped again with the
    size of the attribute reply.  Through both the stacking order is the
    same and every other entry is untouched: the window is not moved to
    the top as a newly mapped window would be. *)
Theorem unmap_then_map_keeps_place (s : State) (l : list ptr) (w : ptr)
    (e : Win.t) (srv : Server) (attr : XWindowAttributes) :
  registry_ok s l → heap s !! w = Some e → srv_attr srv = Some attr →
  ∃ s1 s2 e1 e2,
    handle_event srv (UnmapNotify (Win.xid e)) s = Some s1
    ∧ handle_event srv (MapNotify (Win.xid e)) s1 = Some s2
    ∧ stacking_order s1 = Some l ∧ stacking_order s2 = Some l
    ∧ registry_ok s2 l
    ∧ heap s1 = <[w := e1]> (heap s)
    ∧ Win.mapped e1 = false ∧ Win.pixmap_valid e1 = false
    ∧ Win.damage e1 = 0
    ∧ heap s2 = <[w := e2]> (heap s)
    ∧ Win.xid e2 = Win.xid e ∧ Win.mapped e2 = true
    ∧ Win.width e2 = attr_width attr ∧ Win.height e2 = attr_height attr
    ∧ calls s2
      = calls s ++ (unmap_entry e).2
        ++ (map_entry (Comp.tfp (comp s)) srv attr e1).2.
Proof.
  intros Hok He Ha. simpl.
  destruct (handle_unmap_tracked s l w e Hok He)
    as (s1 & E1 & Hok1 & Hh1 & Hk1 & Hc1).
  pose proof (unmap_entry_fields e) as (Hx1 & Hm1 & Hv1 & Hd1).
  set (e1 := (unmap_entry e).1) in *.
  assert (heap s1 !! w = Some e1) as He1
    by (rewrite Hh1; apply lookup_insert_eq).
  destruct (handle_map_tracked s1 l w e1 srv attr Hok1 He1 Ha)
    as (s2 & E2 & Hok2 & Hh2 & Hk2 & Hc2).
  rewrite Hx1 in E2.
  assert (Comp.tfp (comp s1) = Comp.tfp (comp s)) as Ht
    by (rewrite Hc1; by destruct (comp s)).
  rewrite Ht in Hh2, Hk2.
  pose proof (map_entry_fields (Comp.tfp (comp s)) srv attr e1)
    as (Fx & Fm & _ & _ & Fw & Fh & _).
  exists s1, s2, e1, (map_entry (Comp.tfp (comp s)) srv attr e1).1.
  split_and!; try done.
  - by apply registry_order.
  - by apply registry_order.
  - by rewrite Hh2, Hh1, insert_insert_eq.
  - by rewrite Fx.
  - by rewrite Hk2, Hk1, app_assoc.
Qed.

Lemma unmap_then_map_keeps_place_witness :
  let e := Win.mk 101 2101 3101 4101 1101 101 0 100 50 0 true false true true
             (Some 3%positive) (Some 1%positive) in
  let srv := srv_win 101 in
  let attr := default sample_attr (srv_attr (srv_win 101)) in
  let s := abc_state in
  let l := [1%positive; 2%positive; 3%positive] in
  let w := 2%positive in
  ∃ s1 s2 e1 e2,
    handle_event srv (UnmapNotify (Win.xid e)) s = Some s1
    ∧ handle_event srv (MapNotify (Win.xid e)) s1 = Some s2
    ∧ stacking_order s1 = Some l ∧ stacking_order s2 = Some l
    ∧ registry_ok s2 l
    ∧ heap s1 = <[w := e1]> (heap s)
    ∧ Win.mapped e1 = false ∧ Win.pixmap_valid e1 = false
    ∧ Win.damage e1 = 0
    ∧ heap s2 = <[w := e2]> (heap s)
    ∧ Win.xid e2 = Win.xid e ∧ Win.mapped e2 = true
    ∧ Win.width e2 = attr_width attr ∧ Win.height e2 = attr_height attr
    ∧ calls s2
      = calls s ++ (unmap_entry e).2
        ++ (map_entry (Comp.tfp (comp s)) srv attr e1).2.
Proof.
  apply (unmap_then_map_keeps_place abc_state
           [1%positive; 2%positive; 3%positive] 2%positive
           (Win.mk 101 2101 3101 4101 1101 101 0 100 50 0 true false true
              true (Some 3%positive) (Some 1%positive))
           (srv_win 101) (default sample_attr (srv_attr (srv_win 101)))).
  - apply registry_okb_sound. vm_compute. reflexivity.
  - vm_compute. reflexivity.
  - reflexivity.
Defined.
